(** * A red-black tree with parent pointers (rbtree.go)

    The Go package keeps its nodes on the garbage-collected heap and links
    them with [*node] pointers in three directions (parent, left, right).
    The embedding below keeps that shape: a node store indexed by addresses,
    a [Tree] record with the four mutable fields of the Go struct, and every
    method written in a small state-and-panic monad, one line of Go per
    line of Rocq.  The second half of the file relates stores to inductive
    trees and proves the properties of the package's documentation. *)

From stdpp Require Import gmap list.
From Stdlib Require Import ZArith Lia.

Set Warnings "-clear-no-such-hyp,-level-tolerance,-notation-for-abbreviation".

Local Open Scope Z_scope.

(** ** Data model *)

(** [const red = iota] and [const black = 1 + iota]: the two values the
    [color] field ever holds. *)
Inductive color_t := red | black.

#[global] Instance color_t_eq_dec : EqDecision color_t.
Proof. solve_decision. Defined.

(** A [*node] is [None] for [nil] and [Some a] for the address [a]. *)
Abbreviation ptr := (option positive).

Section Model.

Context {Item : Type}.

(** [type node struct { item Item; parent, left, right *node; color int }] *)
Record node := mkNode {
  item : Item;
  parent : ptr;
  left : ptr;
  right : ptr;
  color : color_t
}.

(** [type Tree struct { root *node; minNode, maxNode *node; count int; compare CompareFunc }].
    The comparator is set once by [NewTree] and never assigned again, so
    it is the section variable [compare] below rather than a field.  [count]
    is a Go [int]; it counts live nodes, which occupy distinct addresses, so
    it stays far inside the range of [int] and is kept as an integer. *)
Record Tree := mkTree {
  root : ptr;
  minNode : ptr;
  maxNode : ptr;
  count : Z
}.

(** The program state: the node store and the one [Tree] value that owns it.
    Nodes are never freed (Go collects them); an unlinked node stays in the
    store as garbage. *)
Record state := mkState {
  heap : gmap positive node;
  tree : Tree
}.

(** [type Iterator struct { root *Tree; node *node }]; the [root] field is
    the tree of the state the iterator is used with. *)
Record Iterator := mkIterator { iter_node : ptr }.

(** ** The monad: state, panics and loop fuel *)

Inductive result (A : Type) :=
| Ok (a : A) (s : state)
| Panic
| Timeout.
Arguments Ok {A} a s.
Arguments Panic {A}.
Arguments Timeout {A}.

Definition M (A : Type) := state -> result A.

Definition ret {A} (a : A) : M A := fun s => Ok a s.

Definition bind {A B} (m : M A) (k : A -> M B) : M B :=
  fun s => match m s with
           | Ok a s' => k a s'
           | Panic => Panic
           | Timeout => Timeout
           end.

Definition panic {A} : M A := fun _ => Panic.
Definition timeout {A} : M A := fun _ => Timeout.

Notation "x <- m ;; k" := (bind m (fun x => k))
  (at level 100, m at next level, right associativity).
Notation "m ;;; k" := (bind m (fun _ => k))
  (at level 100, right associativity).

(** Every Go loop of the package follows pointers through the store.  A loop
    is unrolled at most [loop_fuel] times, one more than the number of
    allocated nodes; [Timeout] stands for a loop that did not leave within
    that bound.  The theorems show that on a well-formed tree no operation
    ends in [Timeout]. *)
Definition loop_fuel : M nat := fun s => Ok (S (size (heap s))) s.

(** [n.f] for a field [f]: a nil or dangling [n] panics. *)
Definition load {A} (f : node -> A) (n : ptr) : M A :=
  fun s => match n with
           | None => Panic
           | Some a => match heap s !! a with
                       | Some nd => Ok (f nd) s
                       | None => Panic
                       end
           end.

(** [n.f = v], as an update [g] of the node record. *)
Definition store (g : node -> node) (n : ptr) : M unit :=
  fun s => match n with
           | None => Panic
           | Some a => match heap s !! a with
                       | Some nd => Ok tt (mkState (<[a := g nd]> (heap s)) (tree s))
                       | None => Panic
                       end
           end.

Definition with_item (v : Item) (nd : node) : node :=
  mkNode v (parent nd) (left nd) (right nd) (color nd).
Definition with_parent (v : ptr) (nd : node) : node :=
  mkNode (item nd) v (left nd) (right nd) (color nd).
Definition with_left (v : ptr) (nd : node) : node :=
  mkNode (item nd) (parent nd) v (right nd) (color nd).
Definition with_right (v : ptr) (nd : node) : node :=
  mkNode (item nd) (parent nd) (left nd) v (color nd).
Definition with_color (v : color_t) (nd : node) : node :=
  mkNode (item nd) (parent nd) (left nd) (right nd) v.

Definition set_item (n : ptr) (v : Item) : M unit := store (with_item v) n.
Definition set_parent (n : ptr) (v : ptr) : M unit := store (with_parent v) n.
Definition set_left (n : ptr) (v : ptr) : M unit := store (with_left v) n.
Definition set_right (n : ptr) (v : ptr) : M unit := store (with_right v) n.
Definition set_color (n : ptr) (v : color_t) : M unit := store (with_color v) n.

(** [new(node)] followed by the assignments of [Insert]. *)
Definition new_node (nd : node) : M ptr :=
  fun s => let a := fresh (dom (heap s)) in
           Ok (Some a) (mkState (<[a := nd]> (heap s)) (tree s)).

(** Fields of the [Tree] struct. *)
Definition get {A} (f : Tree -> A) : M A := fun s => Ok (f (tree s)) s.
Definition put (g : Tree -> Tree) : M unit :=
  fun s => Ok tt (mkState (heap s) (g (tree s))).

Definition set_root (v : ptr) : M unit :=
  put (fun t => mkTree v (minNode t) (maxNode t) (count t)).
Definition set_minNode (v : ptr) : M unit :=
  put (fun t => mkTree (root t) v (maxNode t) (count t)).
Definition set_maxNode (v : ptr) : M unit :=
  put (fun t => mkTree (root t) (minNode t) v (count t)).
Definition set_count (v : Z) : M unit :=
  put (fun t => mkTree (root t) (minNode t) (maxNode t) v).

(** [func doAssert(b bool)]: panics when [b] is false. *)
Definition doAssert (b : bool) : M unit :=
  if b then ret tt else panic.

(** Pointer comparison [a == b] and the nil test. *)
Definition ptr_eqb (a b : ptr) : bool := bool_decide (a = b).
Definition is_nil (a : ptr) : bool := match a with None => true | Some _ => false end.

(** Go's short-circuit [a && b] on conditions that dereference. *)
Definition andM (a b : M bool) : M bool :=
  x <- a ;; if x then b else ret false.
Notation "a &&& b" := (andM a b) (at level 40, left associativity).

(** ** Internal node attribute accessors *)

(** [func getColor(n *node) int] *)
Definition getColor (n : ptr) : M color_t :=
  if is_nil n then ret black else load color n.

(** The tests [c == red] and [c == black]. *)
Definition is_red (c : color_t) : bool :=
  match c with red => true | black => false end.
Definition is_black (c : color_t) : bool :=
  match c with red => false | black => true end.

(** [func (n *node) isLeftChild() bool { return n == n.parent.left }] *)
Definition isLeftChild (n : ptr) : M bool :=
  p <- load parent n ;;
  l <- load left p ;;
  ret (ptr_eqb n l).

(** [func (n *node) isRightChild() bool { return n == n.parent.right }] *)
Definition isRightChild (n : ptr) : M bool :=
  p <- load parent n ;;
  r <- load right p ;;
  ret (ptr_eqb n r).

(** [func (n *node) sibling() *node] *)
Definition sibling (n : ptr) : M ptr :=
  p <- load parent n ;;
  doAssert (negb (is_nil p)) ;;;
  b <- isLeftChild n ;;
  if b then
    p <- load parent n ;; load right p
  else
    p <- load parent n ;; load left p.

(** [for m.left != nil { m = m.left }] *)
Fixpoint leftmost_loop (fuel : nat) (m : ptr) : M ptr :=
  match fuel with
  | O => timeout
  | S fuel =>
      l <- load left m ;;
      if is_nil l then ret m else leftmost_loop fuel l
  end.

(** [for m.right != nil { m = m.right }] *)
Fixpoint rightmost_loop (fuel : nat) (m : ptr) : M ptr :=
  match fuel with
  | O => timeout
  | S fuel =>
      r <- load right m ;;
      if is_nil r then ret m else rightmost_loop fuel r
  end.

(** The climbing loop of [next]. *)
Fixpoint next_loop (fuel : nat) (n : ptr) : M ptr :=
  match fuel with
  | O => timeout
  | S fuel =>
      if is_nil n then ret None else
      p <- load parent n ;;
      if is_nil p then ret None else
      b <- isLeftChild n ;;
      if b then ret p else next_loop fuel p
  end.

(** [func (n *node) next() *node] *)
Definition next (n : ptr) : M ptr :=
  r <- load right n ;;
  if negb (is_nil r) then
    fuel <- loop_fuel ;;
    leftmost_loop fuel r
  else
    fuel <- loop_fuel ;;
    next_loop fuel n.

(** [func maxPredecessor(n *node) *node] *)
Definition maxPredecessor (n : ptr) : M ptr :=
  l <- load left n ;;
  doAssert (negb (is_nil l)) ;;;
  m <- load left n ;;
  fuel <- loop_fuel ;;
  rightmost_loop fuel m.

(** The climbing loop of [prev]. *)
Fixpoint prev_loop (fuel : nat) (n : ptr) : M ptr :=
  match fuel with
  | O => timeout
  | S fuel =>
      if is_nil n then ret None else
      p <- load parent n ;;
      if is_nil p then ret None else
      b <- isRightChild n ;;
      if b then ret p else prev_loop fuel p
  end.

(** [func (n *node) prev() *node] *)
Definition prev (n : ptr) : M ptr :=
  l <- load left n ;;
  if negb (is_nil l) then
    maxPredecessor n
  else
    fuel <- loop_fuel ;;
    prev_loop fuel n.

(** ** Rotations and link replacement *)

(** [func (root *Tree) replaceNode(oldn, newn *node)] *)
Definition replaceNode (oldn newn : ptr) : M unit :=
  op <- load parent oldn ;;
  (if is_nil op then
     set_root newn
   else
     opl <- load left op ;;
     if ptr_eqb oldn opl then set_left op newn else set_right op newn) ;;;
  if negb (is_nil newn) then
    op <- load parent oldn ;;
    set_parent newn op
  else ret tt.

(** [func (root *Tree) rotateLeft(x *node)] *)
Definition rotateLeft (x : ptr) : M unit :=
  y <- load right x ;;
  yl <- load left y ;;
  set_right x yl ;;;
  yl <- load left y ;;
  (if negb (is_nil yl) then set_parent yl x else ret tt) ;;;
  xp <- load parent x ;;
  set_parent y xp ;;;
  xp <- load parent x ;;
  (if is_nil xp then
     set_root y
   else
     b <- isLeftChild x ;;
     if b then set_left xp y else set_right xp y) ;;;
  set_left y x ;;;
  set_parent x y.

(** [func (root *Tree) rotateRight(y *node)] *)
Definition rotateRight (y : ptr) : M unit :=
  x <- load left y ;;
  xr <- load right x ;;
  set_left y xr ;;;
  xr <- load right x ;;
  (if negb (is_nil xr) then set_parent xr y else ret tt) ;;;
  yp <- load parent y ;;
  set_parent x yp ;;;
  yp <- load parent y ;;
  (if is_nil yp then
     set_root x
   else
     b <- isLeftChild y ;;
     if b then set_left yp x else set_right yp x) ;;;
  set_right x y ;;;
  set_parent y x.

(** ** Search *)

Variable compare : Item -> Item -> Z.

(** The loop of [findGE]. *)
Fixpoint findGE_loop (fuel : nat) (key : Item) (n : ptr) : M (ptr * bool) :=
  match fuel with
  | O => timeout
  | S fuel =>
      if is_nil n then ret (None, false) else
      it <- load item n ;;
      let comp := compare key it in
      if comp =? 0 then ret (n, true)
      else if comp <? 0 then
        l <- load left n ;;
        if negb (is_nil l) then findGE_loop fuel key l
        else ret (n, false)
      else
        r <- load right n ;;
        if negb (is_nil r) then findGE_loop fuel key r
        else
          succ <- next n ;;
          if is_nil succ then ret (None, false)
          else
            it' <- load item succ ;;
            let comp := compare key it' in
            ret (succ, comp =? 0)
  end.

(** [func (root *Tree) findGE(key Item)], returning a node and a bool *)
Definition findGE (key : Item) : M (ptr * bool) :=
  n <- get root ;;
  fuel <- loop_fuel ;;
  findGE_loop fuel key n.

(** ** Insertion *)

(** [func (root *Tree) maybeSetMinNode(n *node)] *)
Definition maybeSetMinNode (n : ptr) : M unit :=
  mn <- get minNode ;;
  if is_nil mn then
    set_minNode n ;;; set_maxNode n
  else
    it <- load item n ;;
    mn <- get minNode ;;
    mit <- load item mn ;;
    if compare it mit <? 0 then set_minNode n else ret tt.

(** [func (root *Tree) maybeSetMaxNode(n *node)] *)
Definition maybeSetMaxNode (n : ptr) : M unit :=
  mx <- get maxNode ;;
  if is_nil mx then
    set_minNode n ;;; set_maxNode n
  else
    it <- load item n ;;
    mx <- get maxNode ;;
    mit <- load item mx ;;
    if compare it mit >? 0 then set_maxNode n else ret tt.

(** The descent loop of [doInsert]. *)
Fixpoint doInsert_loop (fuel : nat) (n : ptr) (parent_ : ptr) : M bool :=
  match fuel with
  | O => timeout
  | S fuel =>
      it <- load item n ;;
      pit <- load item parent_ ;;
      let comp := compare it pit in
      if comp =? 0 then ret false
      else if comp <? 0 then
        pl <- load left parent_ ;;
        if is_nil pl then
          set_parent n parent_ ;;;
          set_left parent_ n ;;;
          c <- get count ;; set_count (c + 1) ;;;
          maybeSetMinNode n ;;;
          ret true
        else
          pl <- load left parent_ ;;
          doInsert_loop fuel n pl
      else
        pr <- load right parent_ ;;
        if is_nil pr then
          set_parent n parent_ ;;;
          set_right parent_ n ;;;
          c <- get count ;; set_count (c + 1) ;;;
          maybeSetMaxNode n ;;;
          ret true
        else
          pr <- load right parent_ ;;
          doInsert_loop fuel n pr
  end.

(** [func (root *Tree) doInsert(n *node) bool] *)
Definition doInsert (n : ptr) : M bool :=
  r <- get root ;;
  if is_nil r then
    set_parent n None ;;;
    set_root n ;;;
    set_minNode n ;;;
    set_maxNode n ;;;
    c <- get count ;; set_count (c + 1) ;;;
    ret true
  else
    parent_ <- get root ;;
    fuel <- loop_fuel ;;
    doInsert_loop fuel n parent_.

(** The rebalancing loop of [Insert] ([for true { ... }]). *)
Fixpoint Insert_loop (fuel : nat) (n : ptr) : M unit :=
  match fuel with
  | O => timeout
  | S fuel =>
      (* Case 1: N is at the root *)
      np <- load parent n ;;
      if is_nil np then set_color n black
      else
      (* Case 2: the parent is black *)
      np <- load parent n ;;
      npc <- load color np ;;
      if is_black npc then ret tt
      else
      (* Case 3: parent and uncle are both red *)
      np <- load parent n ;;
      grandparent <- load parent np ;;
      np <- load parent n ;;
      b <- isLeftChild np ;;
      uncle <- (if b then load right grandparent else load left grandparent) ;;
      c3 <- (ret (negb (is_nil uncle)) &&& (uc <- load color uncle ;; ret (is_red uc))) ;;
      if c3 then
        np <- load parent n ;;
        set_color np black ;;;
        set_color uncle black ;;;
        set_color grandparent red ;;;
        Insert_loop fuel grandparent
      else
      (* Case 4: parent is red, uncle is black (1) *)
      c4 <- (isRightChild n &&& (np <- load parent n ;; isLeftChild np)) ;;
      if c4 then
        np <- load parent n ;;
        rotateLeft np ;;;
        nl <- load left n ;;
        Insert_loop fuel nl
      else
      c4' <- (isLeftChild n &&& (np <- load parent n ;; isRightChild np)) ;;
      if c4' then
        np <- load parent n ;;
        rotateRight np ;;;
        nr <- load right n ;;
        Insert_loop fuel nr
      else
      (* Case 5: parent is red, uncle is black (2) *)
      np <- load parent n ;;
      set_color np black ;;;
      set_color grandparent red ;;;
      b <- isLeftChild n ;;
      if b then rotateRight grandparent else rotateLeft grandparent
  end.

(** [func (root *Tree) Insert(item Item) bool] *)
Definition Insert (it : Item) : M bool :=
  n <- new_node (mkNode it None None None red) ;;
  inserted <- doInsert n ;;
  if negb inserted then ret false
  else
    set_color n red ;;;
    fuel <- loop_fuel ;;
    Insert_loop fuel n ;;;
    ret true.

(** ** Deletion *)

(** [func (root *Tree) deleteCase5(n *node)], with case 6 at its end. *)
Definition deleteCase5 (n : ptr) : M unit :=
  c5 <- ((np <- load parent n ;; npl <- load left np ;; ret (ptr_eqb n npl)) &&&
         (s <- sibling n ;; c <- getColor s ;; ret (is_black c)) &&&
         (s <- sibling n ;; sl <- load left s ;; c <- getColor sl ;; ret (is_red c)) &&&
         (s <- sibling n ;; sr <- load right s ;; c <- getColor sr ;; ret (is_black c))) ;;
  (if c5 then
     s <- sibling n ;; set_color s red ;;;
     s <- sibling n ;; sl <- load left s ;; set_color sl black ;;;
     s <- sibling n ;; rotateRight s
   else
     c5' <- ((np <- load parent n ;; npr <- load right np ;; ret (ptr_eqb n npr)) &&&
             (s <- sibling n ;; c <- getColor s ;; ret (is_black c)) &&&
             (s <- sibling n ;; sr <- load right s ;; c <- getColor sr ;; ret (is_red c)) &&&
             (s <- sibling n ;; sl <- load left s ;; c <- getColor sl ;; ret (is_black c))) ;;
     if c5' then
       s <- sibling n ;; set_color s red ;;;
       s <- sibling n ;; sr <- load right s ;; set_color sr black ;;;
       s <- sibling n ;; rotateLeft s
     else ret tt) ;;;
  (* case 6 *)
  s <- sibling n ;;
  np <- load parent n ;; c <- getColor np ;;
  set_color s c ;;;
  np <- load parent n ;; set_color np black ;;;
  np <- load parent n ;; npl <- load left np ;;
  if ptr_eqb n npl then
    s <- sibling n ;; sr <- load right s ;; c <- getColor sr ;;
    doAssert (is_red c) ;;;
    s <- sibling n ;; sr <- load right s ;; set_color sr black ;;;
    np <- load parent n ;; rotateLeft np
  else
    s <- sibling n ;; sl <- load left s ;; c <- getColor sl ;;
    doAssert (is_red c) ;;;
    s <- sibling n ;; sl <- load left s ;; set_color sl black ;;;
    np <- load parent n ;; rotateRight np.

(** [func (root *Tree) deleteCase1(n *node)] is one loop whose body has
    three parts.  The first part: a red sibling is rotated above the
    parent. *)
Definition deleteCase2 (n : ptr) : M unit :=
  s <- sibling n ;; sc <- getColor s ;;
  if is_red sc then
    np <- load parent n ;; set_color np red ;;;
    s <- sibling n ;; set_color s black ;;;
    np <- load parent n ;; npl <- load left np ;;
    if ptr_eqb n npl then
      np <- load parent n ;; rotateLeft np
    else
      np <- load parent n ;; rotateRight np
  else ret tt.

(** The second and third part: parent, sibling and nephews all black, where
    the loop goes on at the parent ([continue], here [again]); and case 4,
    or else [deleteCase5]. *)
Definition deleteCase3 (again : ptr -> M unit) (n : ptr) : M unit :=
  c3 <- ((np <- load parent n ;; c <- getColor np ;; ret (is_black c)) &&&
         (s <- sibling n ;; c <- getColor s ;; ret (is_black c)) &&&
         (s <- sibling n ;; sl <- load left s ;; c <- getColor sl ;; ret (is_black c)) &&&
         (s <- sibling n ;; sr <- load right s ;; c <- getColor sr ;; ret (is_black c))) ;;
  if c3 then
    s <- sibling n ;; set_color s red ;;;
    np <- load parent n ;;
    again np
  else
    (* case 4 *)
    c4 <- ((np <- load parent n ;; c <- getColor np ;; ret (is_red c)) &&&
           (s <- sibling n ;; c <- getColor s ;; ret (is_black c)) &&&
           (s <- sibling n ;; sl <- load left s ;; c <- getColor sl ;; ret (is_black c)) &&&
           (s <- sibling n ;; sr <- load right s ;; c <- getColor sr ;; ret (is_black c))) ;;
    if c4 then
      s <- sibling n ;; set_color s red ;;;
      np <- load parent n ;; set_color np black
    else
      deleteCase5 n.

Fixpoint deleteCase1 (fuel : nat) (n : ptr) : M unit :=
  match fuel with
  | O => timeout
  | S fuel =>
      np <- load parent n ;;
      if negb (is_nil np) then
        deleteCase2 n ;;;
        deleteCase3 (deleteCase1 fuel) n
      else ret tt
  end.

(** The two-children branch of [doDelete]: [n] and its predecessor trade
    places in the tree, link by link. *)
Definition swapWithPredecessor (n : ptr) : M unit :=
  pred <- maxPredecessor n ;;
  doAssert (negb (ptr_eqb pred n)) ;;;
  isLeft <- isLeftChild pred ;;
  tmp_item <- load item pred ;;
  tmp_parent <- load parent pred ;;
  tmp_left <- load left pred ;;
  tmp_right <- load right pred ;;
  tmp_color <- load color pred ;;
  replaceNode n pred ;;;
  nc <- load color n ;; set_color pred nc ;;;
  (if ptr_eqb tmp_parent n then
     (* swap the positions of n and pred *)
     (if isLeft then
        set_left pred n ;;;
        nr <- load right n ;; set_right pred nr ;;;
        pr <- load right pred ;;
        (if negb (is_nil pr) then set_parent pr pred else ret tt)
      else
        nl <- load left n ;; set_left pred nl ;;;
        pl <- load left pred ;;
        (if negb (is_nil pl) then set_parent pl pred else ret tt) ;;;
        set_right pred n) ;;;
     set_item n tmp_item ;;;
     set_parent n pred ;;;
     set_left n tmp_left ;;;
     nl <- load left n ;;
     (if negb (is_nil nl) then set_parent nl n else ret tt) ;;;
     set_right n tmp_right ;;;
     nr <- load right n ;;
     (if negb (is_nil nr) then set_parent nr n else ret tt)
   else
     nl <- load left n ;; set_left pred nl ;;;
     pl <- load left pred ;;
     (if negb (is_nil pl) then set_parent pl pred else ret tt) ;;;
     nr <- load right n ;; set_right pred nr ;;;
     pr <- load right pred ;;
     (if negb (is_nil pr) then set_parent pr pred else ret tt) ;;;
     (if isLeft then set_left tmp_parent n else set_right tmp_parent n) ;;;
     set_item n tmp_item ;;;
     set_parent n tmp_parent ;;;
     set_left n tmp_left ;;;
     nl <- load left n ;;
     (if negb (is_nil nl) then set_parent nl n else ret tt) ;;;
     set_right n tmp_right ;;;
     nr <- load right n ;;
     (if negb (is_nil nr) then set_parent nr n else ret tt)) ;;;
  set_color n tmp_color.

(** [for root.minNode.left != nil { root.minNode = root.minNode.left }] *)
Fixpoint minNode_loop (fuel : nat) : M unit :=
  match fuel with
  | O => timeout
  | S fuel =>
      mn <- get minNode ;;
      l <- load left mn ;;
      if is_nil l then ret tt
      else
        mn <- get minNode ;;
        l <- load left mn ;;
        set_minNode l ;;;
        minNode_loop fuel
  end.

(** [for root.maxNode.right != nil { root.maxNode = root.maxNode.right }] *)
Fixpoint maxNode_loop (fuel : nat) : M unit :=
  match fuel with
  | O => timeout
  | S fuel =>
      mx <- get maxNode ;;
      r <- load right mx ;;
      if is_nil r then ret tt
      else
        mx <- get maxNode ;;
        r <- load right mx ;;
        set_maxNode r ;;;
        maxNode_loop fuel
  end.

(** The tail of [doDelete]: the cached minimum and maximum are looked up
    again when they were cleared. *)
Definition refreshMinMax : M unit :=
  c <- get count ;;
  if c >? 0 then
    mn <- get minNode ;;
    (if is_nil mn then
       r <- get root ;; set_minNode r ;;;
       mn <- get minNode ;;
       if negb (is_nil mn) then
         fuel <- loop_fuel ;;
         minNode_loop fuel
       else ret tt
     else ret tt) ;;;
    mx <- get maxNode ;;
    (if is_nil mx then
       r <- get root ;; set_maxNode r ;;;
       mx <- get maxNode ;;
       if negb (is_nil mx) then
         fuel <- loop_fuel ;;
         maxNode_loop fuel
       else ret tt
     else ret tt)
  else ret tt.

(** The head of [doDelete]: a cached pointer to [n] is cleared, and the
    count goes down. *)
Definition clearMinMax (n : ptr) : M unit :=
  mn <- get minNode ;;
  (if ptr_eqb mn n then set_minNode None else ret tt) ;;;
  mx <- get maxNode ;;
  (if ptr_eqb mx n then set_maxNode None else ret tt) ;;;
  c <- get count ;; set_count (c - 1).

(** The middle of [doDelete]: [n] has at most one child now; the fixup
    runs when [n] is black, then [n] is replaced by its child. *)
Definition unlinkNode (n : ptr) : M unit :=
  nl <- load left n ;; nr <- load right n ;;
  doAssert (is_nil nl || is_nil nr) ;;;
  child <- load right n ;;
  child <- (if is_nil child then load left n else ret child) ;;
  nc <- load color n ;;
  (if is_black nc then
     cc <- getColor child ;;
     set_color n cc ;;;
     fuel <- loop_fuel ;;
     deleteCase1 fuel n
   else ret tt) ;;;
  replaceNode n child ;;;
  np <- load parent n ;;
  (if is_nil np && negb (is_nil child) then set_color child black else ret tt).

(** [func (root *Tree) doDelete(n *node)] *)
Definition doDelete (n : ptr) : M unit :=
  clearMinMax n ;;;
  c2 <- ((nl <- load left n ;; ret (negb (is_nil nl))) &&&
         (nr <- load right n ;; ret (negb (is_nil nr)))) ;;
  (if c2 then swapWithPredecessor n else ret tt) ;;;
  unlinkNode n ;;;
  refreshMinMax.

(** ** Public definitions *)

(** [func NewTree(compare CompareFunc) *Tree]: [new(Tree)] with every field
    at its zero value, and an empty node store. *)
Definition NewTree : state := mkState ∅ (mkTree None None None 0).

(** [func (root *Tree) Len() int] *)
Definition Len : M Z := get count.

(** [func (root *Tree) Get(key Item) Item]; a nil [Item] is [None]. *)
Definition Get (key : Item) : M (option Item) :=
  r <- findGE key ;;
  if snd r then it <- load item (fst r) ;; ret (Some it)
  else ret None.

(** [func (root *Tree) Begin() Iterator] *)
Definition Begin : M Iterator :=
  mn <- get minNode ;; ret (mkIterator mn).

(** [func (root *Tree) End() Iterator] *)
Definition End : M Iterator := ret (mkIterator None).

(** [func (root *Tree) FindGE(key Item) Iterator] *)
Definition FindGE (key : Item) : M Iterator :=
  r <- findGE key ;;
  ret (mkIterator (fst r)).

(** [func (root *Tree) FindLE(key Item) Iterator] *)
Definition FindLE (key : Item) : M Iterator :=
  r <- findGE key ;;
  if snd r then ret (mkIterator (fst r))
  else if negb (is_nil (fst r)) then
    p <- prev (fst r) ;; ret (mkIterator p)
  else
    (* return the max element *)
    n <- get root ;;
    if is_nil n then ret (mkIterator None)
    else
      fuel <- loop_fuel ;;
      m <- rightmost_loop fuel n ;;
      ret (mkIterator m).

(** [func (iter Iterator) End() bool] *)
Definition Iterator_End (iter : Iterator) : M bool :=
  ret (is_nil (iter_node iter)).

(** [func (iter Iterator) Begin() bool] *)
Definition Iterator_Begin (iter : Iterator) : M bool :=
  mn <- get minNode ;;
  ret (ptr_eqb (iter_node iter) mn).

(** [func (iter Iterator) Item() interface{}] *)
Definition Iterator_Item (iter : Iterator) : M Item :=
  load item (iter_node iter).

(** [func (iter Iterator) Next() Iterator] *)
Definition Iterator_Next (iter : Iterator) : M Iterator :=
  e <- Iterator_End iter ;;
  doAssert (negb e) ;;;
  n <- next (iter_node iter) ;;
  ret (mkIterator n).

(** [func (iter Iterator) Prev() Iterator] *)
Definition Iterator_Prev (iter : Iterator) : M Iterator :=
  b <- Iterator_Begin iter ;;
  doAssert (negb b) ;;;
  e <- Iterator_End iter ;;
  if e then
    len <- Len ;;
    doAssert (len >? 0) ;;;
    mx <- get maxNode ;;
    ret (mkIterator mx)
  else
    p <- prev (iter_node iter) ;;
    ret (mkIterator p).

(** [func (root *Tree) DeleteWithIterator(iter Iterator)] *)
Definition DeleteWithIterator (iter : Iterator) : M unit :=
  e <- Iterator_End iter ;;
  doAssert (negb e) ;;;
  doDelete (iter_node iter).

(** [func (root *Tree) DeleteWithKey(key Item) bool] *)
Definition DeleteWithKey (key : Item) : M bool :=
  iter <- FindGE key ;;
  if negb (is_nil (iter_node iter)) then
    DeleteWithIterator iter ;;;
    ret true
  else ret false.

End Model.

Arguments node : clear implicits.
Arguments state : clear implicits.
Arguments M : clear implicits.
Arguments result : clear implicits.
Arguments Ok {Item A} a s.
Arguments Panic {Item A}.
Arguments Timeout {Item A}.

Declare Scope rb_scope.
Notation "x <- m ;; k" := (bind m (fun x => k))
  (at level 100, m at next level, right associativity) : rb_scope.
Notation "m ;;; k" := (bind m (fun _ => k))
  (at level 100, right associativity) : rb_scope.

(** ** Inductive trees and the stores that represent them *)

Section Shape.

Context {Item : Type}.

(** A tree whose nodes carry their address, color and item; this is what
    the package's invariants R1 to R6 speak about. *)
Inductive rbt :=
| E
| T (p : positive) (c : color_t) (l : rbt) (x : Item) (r : rbt).

(** One step of a path from a node up to the root: the parent, seen from
    its left child ([FL], with the right subtree) or from its right child
    ([FR], with the left subtree). *)
Inductive frame :=
| FL (p : positive) (c : color_t) (x : Item) (r : rbt)
| FR (p : positive) (c : color_t) (l : rbt) (x : Item).

(** A path to the root, nearest ancestor first. *)
Definition ctx := list frame.

Definition ptr_of (t : rbt) : ptr :=
  match t with E => None | T p _ _ _ _ => Some p end.

Definition root_color (t : rbt) : color_t :=
  match t with E => black | T _ c _ _ _ => c end.

Definition fill (f : frame) (t : rbt) : rbt :=
  match f with
  | FL p c x r => T p c t x r
  | FR p c l x => T p c l x t
  end.

Fixpoint plug (C : ctx) (t : rbt) : rbt :=
  match C with
  | [] => t
  | f :: C' => plug C' (fill f t)
  end.

Definition fptr (f : frame) : positive :=
  match f with FL p _ _ _ => p | FR p _ _ _ => p end.

Definition fcolor (f : frame) : color_t :=
  match f with FL _ c _ _ => c | FR _ c _ _ => c end.

Definition fitem (f : frame) : Item :=
  match f with FL _ _ x _ => x | FR _ _ _ x => x end.

Definition fsib (f : frame) : rbt :=
  match f with FL _ _ _ r => r | FR _ _ l _ => l end.

(** The parent pointer of the node that sits in the hole of [C]. *)
Definition cpar (C : ctx) : ptr :=
  match C with [] => None | f :: _ => Some (fptr f) end.

(** In-order list of the nodes: address and item. *)
Fixpoint nodes (t : rbt) : list (positive * Item) :=
  match t with
  | E => []
  | T p _ l x r => nodes l ++ (p, x) :: nodes r
  end.

Definition ptrs (t : rbt) : list positive := (nodes t).*1.
Definition items (t : rbt) : list Item := (nodes t).*2.

Definition fptrs (f : frame) : list positive := fptr f :: ptrs (fsib f).

Fixpoint cptrs (C : ctx) : list positive :=
  match C with
  | [] => []
  | f :: C' => fptrs f ++ cptrs C'
  end.

(** [rep h par t]: the store [h] holds the nodes of [t], linked as in [t],
    the root of [t] having parent pointer [par]. *)
Fixpoint rep (h : gmap positive (node Item)) (par : ptr) (t : rbt) : Prop :=
  match t with
  | E => True
  | T p c l x r =>
      h !! p = Some (mkNode x par (ptr_of l) (ptr_of r) c) /\
      rep h (Some p) l /\ rep h (Some p) r
  end.

(** [repc h rt C q]: the store holds the ancestors recorded in [C], the
    nearest one pointing to [q] in the direction of the hole, and the
    topmost node is the tree's root [rt]. *)
Fixpoint repc (h : gmap positive (node Item)) (rt : ptr) (C : ctx) (q : ptr) : Prop :=
  match C with
  | [] => rt = q
  | FL p c x r :: C' =>
      h !! p = Some (mkNode x (cpar C') q (ptr_of r) c) /\
      rep h (Some p) r /\ repc h rt C' (Some p)
  | FR p c l x :: C' =>
      h !! p = Some (mkNode x (cpar C') (ptr_of l) q c) /\
      rep h (Some p) l /\ repc h rt C' (Some p)
  end.

(** The state represents the tree [t]: [root] points to its root, every
    node is in the store with the right links in all three directions, and
    no address occurs twice. *)
Definition Rep (s : state Item) (t : rbt) : Prop :=
  root (tree s) = ptr_of t /\ rep (heap s) None t /\ NoDup (ptrs t).

(** ** The invariants R1 to R6 *)

(** The number of nodes. *)
Definition size_t (t : rbt) : nat := length (nodes t).

(** R2 (root color): the root is black, or the tree is empty. *)
Definition R2 (t : rbt) : Prop := root_color t = black.

(** R3 (no red-red): a red node has no red child. *)
Fixpoint R3 (t : rbt) : Prop :=
  match t with
  | E => True
  | T _ c l _ r =>
      (c = red -> root_color l = black /\ root_color r = black) /\ R3 l /\ R3 r
  end.

(** The number of black nodes on each path from the root of [t] down to a
    nil link, one entry per nil link. *)
Definition bw (c : color_t) : nat := if is_black c then 1%nat else 0%nat.

Fixpoint path_blacks (t : rbt) : list nat :=
  match t with
  | E => [0%nat]
  | T _ c l _ r => map (Nat.add (bw c)) (path_blacks l ++ path_blacks r)
  end.

(** The subtrees of [t], one per node, [t] itself included. *)
Fixpoint subtrees (t : rbt) : list rbt :=
  match t with
  | E => []
  | T _ _ l _ r => t :: subtrees l ++ subtrees r
  end.

(** R4 (black-height): every path from any node to any nil link passes
    through the same number of black nodes. *)
Definition R4 (t : rbt) : Prop :=
  forall u, u ∈ subtrees t ->
  forall a b, a ∈ path_blacks u -> b ∈ path_blacks u -> a = b.

(** The same, by structural recursion: the black height along the left
    spine, and the two subtrees of every node agreeing on it. *)
Fixpoint bh (t : rbt) : nat :=
  match t with
  | E => 0%nat
  | T _ c l _ _ => (bh l + bw c)%nat
  end.

Fixpoint bal (t : rbt) : Prop :=
  match t with
  | E => True
  | T _ _ l _ r => bh l = bh r /\ bal l /\ bal r
  end.

(** The same invariants for a path, seen from its hole: [k] is the black
    height and [c0] the color of what is plugged in. *)
Fixpoint cbal (C : ctx) (k : nat) : Prop :=
  match C with
  | [] => True
  | f :: C' => bal (fsib f) /\ bh (fsib f) = k /\ cbal C' (k + bw (fcolor f))%nat
  end.

Fixpoint cnrr (C : ctx) (c0 : color_t) : Prop :=
  match C with
  | [] => True
  | f :: C' =>
      R3 (fsib f) /\
      (fcolor f = red -> c0 = black /\ root_color (fsib f) = black) /\
      cnrr C' (fcolor f)
  end.

Fixpoint croot (C : ctx) (c0 : color_t) : color_t :=
  match C with
  | [] => c0
  | f :: C' => croot C' (fcolor f)
  end.

(** The nodes to the left and to the right of the hole of a path. *)
Fixpoint cleft (C : ctx) : list (positive * Item) :=
  match C with
  | [] => []
  | FL _ _ _ _ :: C' => cleft C'
  | FR p _ l x :: C' => cleft C' ++ nodes l ++ [(p, x)]
  end.

Fixpoint cright (C : ctx) : list (positive * Item) :=
  match C with
  | [] => []
  | FL p _ x r :: C' => (p, x) :: nodes r ++ cright C'
  | FR _ _ _ _ :: C' => cright C'
  end.

(** ** The algorithms on inductive trees

    Each function below is the Go code of the same name read on an
    inductive tree with a focus: the node that the Go variable [n] points
    to is the subtree in the hole, and its ancestors are the path.  They
    return [None] where the Go code would dereference nil. *)

(** The loop of [Insert], started at the root [n] of the subtree [t].
    Case 4 is always followed by one more turn of the loop, which is
    written out here. *)
Fixpoint ifix (C : ctx) (t : rbt) {struct C} : option rbt :=
  match t with
  | E => None
  | T n cn l x r =>
    match C with
    | [] => Some (T n black l x r)
    | f :: C1 =>
      if is_black (fcolor f) then Some (plug C t)
      else
        match C1 with
        | [] => None
        | g :: C2 =>
          match fsib g with
          | T u red ul ux ur =>
              let u' := T u black ul ux ur in
              match f, g with
              | FL p _ xp pr, FL gp _ gx _ =>
                  ifix C2 (T gp red (T p black t xp pr) gx u')
              | FR p _ pl xp, FL gp _ gx _ =>
                  ifix C2 (T gp red (T p black pl xp t) gx u')
              | FL p _ xp pr, FR gp _ _ gx =>
                  ifix C2 (T gp red u' gx (T p black t xp pr))
              | FR p _ pl xp, FR gp _ _ gx =>
                  ifix C2 (T gp red u' gx (T p black pl xp t))
              end
          | u =>
              match f, g with
              | FL p _ xp pr, FL gp _ gx _ =>
                  Some (plug C2 (T p black t xp (T gp red pr gx u)))
              | FR p _ pl xp, FR gp _ _ gx =>
                  Some (plug C2 (T p black (T gp red u gx pl) xp t))
              | FR p pc pl xp, FL gp gc gx _ =>
                  (* rotateLeft(p); the loop goes on at p, child of n *)
                  if is_black cn then
                    Some (plug C2 (T gp gc (T n cn (T p pc pl xp l) x r) gx u))
                  else
                    Some (plug C2 (T n black (T p pc pl xp l) x (T gp red r gx u)))
              | FL p pc xp pr, FR gp gc _ gx =>
                  (* rotateRight(p); the loop goes on at p, child of n *)
                  if is_black cn then
                    Some (plug C2 (T gp gc u gx (T n cn l x (T p pc r xp pr))))
                  else
                    Some (plug C2 (T n black (T gp red u gx l) x (T p pc r xp pr)))
              end
          end
        end
    end
  end.

(** [for m.left != nil { m = m.left }] from the root of [t]. *)
Fixpoint leftmost (t : rbt) : option (positive * Item) :=
  match t with
  | E => None
  | T p _ l x _ => match l with E => Some (p, x) | _ => leftmost l end
  end.

(** [for m.right != nil { m = m.right }] from the root of [t]. *)
Fixpoint rightmost (t : rbt) : option (positive * Item) :=
  match t with
  | E => None
  | T p _ _ x r => match r with E => Some (p, x) | _ => rightmost r end
  end.

Definition root_node (t : rbt) : option (positive * Item) :=
  match t with E => None | T p _ _ x _ => Some (p, x) end.

(** The same two loops, keeping the path: the focus of the minimum
    (maximum) of [t], which sits in the hole of [C]. *)
Fixpoint min_path (C : ctx) (t : rbt) : ctx * rbt :=
  match t with
  | E => (C, E)
  | T p c l x r =>
      match l with
      | E => (C, t)
      | _ => min_path (FL p c x r :: C) l
      end
  end.

Fixpoint max_path (C : ctx) (t : rbt) : ctx * rbt :=
  match t with
  | E => (C, E)
  | T p c l x r =>
      match r with
      | E => (C, t)
      | _ => max_path (FR p c l x :: C) r
      end
  end.

(** The climbing loops of [next] and [prev]: the focus of the first
    ancestor that is reached from its left (right) child. *)
Fixpoint climb_next (C : ctx) (t : rbt) : option (ctx * rbt) :=
  match C with
  | [] => None
  | FL p c x r :: C' => Some (C', T p c t x r)
  | FR p c l x :: C' => climb_next C' (T p c l x t)
  end.

Fixpoint climb_prev (C : ctx) (t : rbt) : option (ctx * rbt) :=
  match C with
  | [] => None
  | FR p c l x :: C' => Some (C', T p c l x t)
  | FL p c x r :: C' => climb_prev C' (T p c t x r)
  end.

(** [next] and [prev] of the root of [t], which sits in the hole of [C]. *)
Definition next_abs (C : ctx) (t : rbt) : option (ctx * rbt) :=
  match t with
  | E => None
  | T p c l x r =>
      match r with
      | E => climb_next C t
      | _ => Some (min_path (FR p c l x :: C) r)
      end
  end.

Definition prev_abs (C : ctx) (t : rbt) : option (ctx * rbt) :=
  match t with
  | E => None
  | T p c l x r =>
      match l with
      | E => climb_prev C t
      | _ => Some (max_path (FL p c x r :: C) l)
      end
  end.

(** The node a focus stands for. *)
Definition focus_node (o : option (ctx * rbt)) : option (positive * Item) :=
  match o with None => None | Some (_, t) => root_node t end.

Definition focus_ptr (o : option (ctx * rbt)) : ptr :=
  fst <$> focus_node o.

Variable compare : Item -> Item -> Z.

(** R1 (order): every item in the left subtree of a node compares
    strictly less than the item of the node, every item in its right
    subtree strictly greater. *)
Fixpoint R1 (t : rbt) : Prop :=
  match t with
  | E => True
  | T _ _ l x r =>
      Forall (fun y => compare y x < 0) (items l) /\
      Forall (fun y => compare y x > 0) (items r) /\
      R1 l /\ R1 r
  end.

(** Strictly increasing order of a list of items. *)
Fixpoint increasing (l : list Item) : Prop :=
  match l with
  | [] => True
  | x :: l' => Forall (fun y => compare x y < 0) l' /\ increasing l'
  end.

(** The loop of [findGE] at the root of [t]: the focus of the node found,
    and whether it is an exact match. *)
Fixpoint findGE_abs (key : Item) (C : ctx) (t : rbt) : option (ctx * rbt) * bool :=
  match t with
  | E => (None, false)
  | T p c l x r =>
      let comp := compare key x in
      if comp =? 0 then (Some (C, t), true)
      else if comp <? 0 then
        match l with
        | E => (Some (C, t), false)
        | _ => findGE_abs key (FL p c x r :: C) l
        end
      else
        match r with
        | E => match climb_next C t with
               | None => (None, false)
               | Some (C', T q c' l' y r') =>
                   (Some (C', T q c' l' y r'), compare key y =? 0)
               | Some (_, E) => (None, false)
               end
        | _ => findGE_abs key (FR p c l x :: C) r
        end
  end.

(** [FindLE] on the tree [t]. *)
Definition FindLE_abs (key : Item) (t : rbt) : option (ctx * rbt) :=
  match findGE_abs key [] t with
  | (o, true) => o
  | (Some (C, t'), false) => prev_abs C t'
  | (None, false) =>
      match t with
      | E => None
      | _ => Some (max_path [] t)
      end
  end.

(** The descent of [doInsert]: the path to the nil link where the new
    node is attached, or [None] when an equal item is met. *)
Fixpoint ins_path (x : Item) (C : ctx) (t : rbt) : option ctx :=
  match t with
  | E => Some C
  | T p c l y r =>
      let comp := compare x y in
      if comp =? 0 then None
      else if comp <? 0 then ins_path x (FL p c y r :: C) l
      else ins_path x (FR p c l y :: C) r
  end.

(** [maybeSetMinNode] and [maybeSetMaxNode], after the new node [n] with
    item [x] was attached below the nearest frame of [C]. *)
Definition cache_after_attach (n : positive) (x : Item) (C : ctx) (t : rbt)
    (mn mx : ptr) : ptr * ptr :=
  match C with
  | [] => (Some n, Some n)
  | FL _ _ _ _ :: _ =>
      match leftmost t with
      | None => (Some n, Some n)
      | Some (_, y) => (if compare x y <? 0 then Some n else mn, mx)
      end
  | FR _ _ _ _ :: _ =>
      match rightmost t with
      | None => (Some n, Some n)
      | Some (_, y) => (mn, if compare x y >? 0 then Some n else mx)
      end
  end.

(** The tree after [Insert] of item [x] in a fresh node [n]; [None] when
    the item is already there. *)
Definition insert_abs (n : positive) (x : Item) (t : rbt) : option rbt :=
  match ins_path x [] t with
  | None => None
  | Some C => ifix C (T n red E x E)
  end.

(** The two-children branch of [doDelete] at the node [T n c l x r] in
    the hole of [C]: the predecessor takes the place, color and children
    of [n]; [n] takes the place, item, color and children of the
    predecessor.  The result is the new path and subtree of [n]. *)
Definition swap_abs (C : ctx) (n : positive) (c : color_t) (l : rbt) (r : rbt)
    : option (ctx * rbt) :=
  match max_path [] l with
  | (Cl, T pr cpr prl px prr) =>
      Some (Cl ++ FL pr c px r :: C, T n cpr prl px prr)
  | _ => None
  end.

(** Cases 3 to 6 of the deletion fixup for a node in the hole below the
    frame [f]: the loop stops with a new path for the node, or goes on at
    the parent with the new frame of the node. *)
Inductive dstep :=
| DStop (C : ctx)
| DUp (f : frame)
| DFail.

Definition dcases (f : frame) (C1 : ctx) : dstep :=
  match f with
  | FL p cp xp (T sp black sl sx sr) =>
      if is_black (root_color sl) && is_black (root_color sr) then
        match cp with
        | black => DUp (FL p black xp (T sp red sl sx sr))
        | red => DStop (FL p black xp (T sp red sl sx sr) :: C1)
        end
      else
        let s' :=
          if is_red (root_color sl) && is_black (root_color sr) then
            match sl with
            | T slp _ sll slx slr => T slp black sll slx (T sp red slr sx sr)
            | E => E
            end
          else T sp black sl sx sr in
        match s' with
        | T sp' _ sl' sx' (T srp red srl srx srr) =>
            DStop (FL p black xp sl' :: FL sp' cp sx' (T srp black srl srx srr) :: C1)
        | _ => DFail
        end
  | FR p cp (T sp black sl sx sr) xp =>
      if is_black (root_color sl) && is_black (root_color sr) then
        match cp with
        | black => DUp (FR p black (T sp red sl sx sr) xp)
        | red => DStop (FR p black (T sp red sl sx sr) xp :: C1)
        end
      else
        let s' :=
          if is_red (root_color sr) && is_black (root_color sl) then
            match sr with
            | T srp _ srl srx srr => T srp black (T sp red sl sx srl) srx srr
            | E => E
            end
          else T sp black sl sx sr in
        match s' with
        | T sp' _ (T slp red sll slx slr) sx' sr' =>
            DStop (FR p black sr' xp :: FR sp' cp (T slp black sll slx slr) sx' :: C1)
        | _ => DFail
        end
  | _ => DFail
  end.

(** [deleteCase1] for the node in the hole of [C]: its path afterwards. *)
Fixpoint dfix (C : ctx) : option ctx :=
  match C with
  | [] => Some []
  | f :: C1 =>
      match f with
      | FL p _ xp (T sp red sl sx sr) =>
          match dcases (FL p red xp sl) (FL sp black sx sr :: C1) with
          | DStop C' => Some C'
          | _ => None
          end
      | FR p _ (T sp red sl sx sr) xp =>
          match dcases (FR p red sr xp) (FR sp black sl sx :: C1) with
          | DStop C' => Some C'
          | _ => None
          end
      | _ =>
          match dcases f C1 with
          | DStop C' => Some C'
          | DUp f' =>
              match dfix C1 with
              | Some C1' => Some (f' :: C1')
              | None => None
              end
          | DFail => None
          end
      end
  end.

Definition blacken (t : rbt) : rbt :=
  match t with E => E | T p _ l x r => T p black l x r end.

(** [doDelete] of the node [T n c l x r] in the hole of [C]. *)
Definition delete_abs (C : ctx) (t : rbt) : option rbt :=
  match t with
  | E => None
  | T n c l x r =>
      let focus :=
        match l, r with
        | T _ _ _ _ _, T _ _ _ _ _ => swap_abs C n c l r
        | _, _ => Some (C, t)
        end in
      match focus with
      | Some (C2, T _ cn l2 _ r2) =>
          let child := match r2 with E => l2 | _ => r2 end in
          let C3 := if is_black cn then dfix C2 else Some C2 in
          match C3 with
          | Some [] => Some (blacken child)
          | Some C3 => Some (plug C3 child)
          | None => None
          end
      | _ => None
      end
  end.

End Shape.

Arguments rbt : clear implicits.
Arguments frame : clear implicits.
Arguments ctx : clear implicits.

(** * Vocabulary of the specifications

    The predicates and functions that the statements about the code are
    written with. *)

Section Specs.

Context {Item : Type}.

Local Open Scope rb_scope.

(** Two lists of addresses have no element in common. *)
Definition disj (l k : list positive) : Prop := forall a, a ∈ l -> a ∉ k.

(** Weakest preconditions: [wp m s Q] says that [m] run from [s] returns
    normally, with a value and a final state that satisfy [Q]. *)
Definition wp {A} (m : M Item A) (s : state Item) (Q : A -> state Item -> Prop) : Prop :=
  match m s with Ok a s' => Q a s' | _ => False end.

(** The three cached fields of the tree are untouched. *)
Definition same_cache (s s' : state Item) : Prop :=
  minNode (tree s') = minNode (tree s) /\ maxNode (tree s') = maxNode (tree s) /\
  count (tree s') = count (tree s).

(** The cached pointers are the leftmost and rightmost nodes (R5). *)
Definition cache_ok (s : state Item) (t : rbt Item) : Prop :=
  minNode (tree s) = fst <$> leftmost t /\ maxNode (tree s) = fst <$> rightmost t.

(** The node at address [m] holds the item [y]. *)
Definition has_item (h : gmap positive (node Item)) (m : positive) (y : Item) : Prop :=
  exists nd, h !! m = Some nd /\ item nd = y.

(** The path of the node after the first part of the loop body. *)
Definition case1 (f : frame Item) (C1 : ctx Item) : ctx Item :=
  match f with
  | FL p _ xp (T sp red sl sx sr) => FL p red xp sl :: FL sp black sx sr :: C1
  | FR p _ (T sp red sl sx sr) xp => FR p red sr xp :: FR sp black sl sx :: C1
  | _ => f :: C1
  end.

(** The cache as [refreshMinMax] leaves it: a cleared pointer is looked up
    again when the tree is not empty. *)
Definition refreshed (cnt : Z) (old : ptr) (fresh_ : ptr) : ptr :=
  if cnt >? 0 then (if is_nil old then fresh_ else old) else old.

(** Paths inside a subtree whose root has parent pointer [par0]. *)
Definition cparg (par0 : ptr) (C : ctx Item) : ptr :=
  match C with [] => par0 | f :: _ => Some (fptr f) end.

(** The address of the root of [plug C t], from the address [q] of the root
    of [t]. *)
Fixpoint ctop (C : ctx Item) (q : ptr) : ptr :=
  match C with [] => q | f :: C' => ctop C' (Some (fptr f)) end.

(** [repc] for a path inside a subtree. *)
Fixpoint repcg (h : gmap positive (node Item)) (par0 : ptr) (C : ctx Item) (q : ptr) : Prop :=
  match C with
  | [] => True
  | FL p c x r :: C' =>
      h !! p = Some (mkNode x (cparg par0 C') q (ptr_of r) c) /\
      rep h (Some p) r /\ repcg h par0 C' (Some p)
  | FR p c l x :: C' =>
      h !! p = Some (mkNode x (cparg par0 C') (ptr_of l) q c) /\
      rep h (Some p) l /\ repcg h par0 C' (Some p)
  end.

(** The frames of a right spine. *)
Definition isFR (f : frame Item) : Prop :=
  match f with FR _ _ _ _ => True | FL _ _ _ _ => False end.

(** The child that [doDelete] links in the place of the node. *)
Definition child_of (l2 r2 : rbt Item) : rbt Item :=
  match r2 with E => l2 | _ => r2 end.

(** The nearest ancestor in a path that is reached from its left child. *)
Fixpoint first_FL (C : ctx Item) : option (positive * Item) :=
  match C with
  | [] => None
  | FL p _ x _ :: _ => Some (p, x)
  | FR _ _ _ _ :: C' => first_FL C'
  end.

Definition or_else {A} (o1 o2 : option A) : option A :=
  match o1 with Some a => Some a | None => o2 end.

(** The nodes that can be reached from [root] through [left] and [right]
    links. *)
Inductive reachable (s : state Item) : positive -> Prop :=
| reach_root p : root (tree s) = Some p -> reachable s p
| reach_left q nd p :
    reachable s q -> heap s !! q = Some nd -> left nd = Some p -> reachable s p
| reach_right q nd p :
    reachable s q -> heap s !! q = Some nd -> right nd = Some p -> reachable s p.

(** The mutating operations of the public interface. *)
Inductive op :=
| OpInsert (x : Item)
| OpDeleteKey (key : Item)
| OpDeleteIter (it : Iterator).

(** An iterator given to [DeleteWithIterator] must not be stale: it
    references a node that is in the tree. *)
Definition valid_op (s : state Item) (o : op) : Prop :=
  match o with
  | OpDeleteIter it =>
      match iter_node it with Some p => reachable s p | None => True end
  | _ => True
  end.

(** Which entries of a trace count as an insertion and as a deletion. *)
Definition is_insert (e : op * bool) : bool :=
  match e with (OpInsert _, true) => true | _ => false end.

Definition is_delete (e : op * bool) : bool :=
  match e with
  | (OpDeleteKey _, true) => true
  | (OpDeleteIter _, _) => true
  | _ => false
  end.

Fixpoint count_ops (f : op * bool -> bool) (tr : list (op * bool)) : Z :=
  match tr with
  | [] => 0
  | e :: tr' => (if f e then 1 else 0) + count_ops f tr'
  end.

Variable compare : Item -> Item -> Z.

(** The item of the node [q] is not below [key]. *)
Definition ge_key (key : Item) (q : positive * Item) : bool := compare key q.2 <=? 0.

(** The invariants R1 to R6 of a tree state, [t] being the tree that the
    store holds. *)
Definition Inv (s : state Item) (t : rbt Item) : Prop :=
  Rep s t /\ cache_ok s t /\ count (tree s) = Z.of_nat (size_t t) /\
  R1 compare t /\ R2 t /\ R3 t /\ R4 t.

(** One operation, with what it returns; [DeleteWithIterator] returns
    nothing, which is recorded as [true]. *)
Definition exec (o : op) : M Item bool :=
  match o with
  | OpInsert x => Insert compare x
  | OpDeleteKey key => DeleteWithKey compare key
  | OpDeleteIter it => DeleteWithIterator it ;;; ret true
  end.

(** The states reached from the empty tree, with the operations performed
    and what they returned. *)
Inductive run : list (op * bool) -> state Item -> Prop :=
| run_nil : run [] NewTree
| run_step tr s o b s' :
    run tr s -> valid_op s o -> exec o s = Ok b s' -> run (tr ++ [(o, b)]) s'.

End Specs.

(** ** Concrete trees over the integers *)

Definition cmpZ (a b : Z) : Z := a - b.

(** The state after a list of operations on the empty tree. *)
Definition after (ops : list (@op Z)) : state Z :=
  fold_left (fun s o => match exec cmpZ o s with Ok _ s' => s' | _ => s end)
    ops NewTree.

Definition s10 : state Z := after [OpInsert 10].

Definition s3 : state Z := after [OpInsert 10; OpInsert 5; OpInsert 15].

Definition t10 : rbt Z := T 1 black E 10 E.

Definition t3 : rbt Z := T 1 black (T 2 red E 5 E) 10 (T 3 red E 15 E).

(** * Proofs *)

Local Open Scope rb_scope.

(** ** Address lists without repetition *)

Section Disjoint.

Lemma disj_cons_l a l k : disj (a :: l) k <-> (a ∉ k) /\ disj l k.
Proof. unfold disj. set_solver. Qed.
Lemma disj_cons_r a l k : disj l (a :: k) <-> (a ∉ l) /\ disj l k.
Proof. unfold disj. set_solver. Qed.
Lemma disj_app_l l1 l2 k : disj (l1 ++ l2) k <-> disj l1 k /\ disj l2 k.
Proof. unfold disj. set_solver. Qed.
Lemma disj_app_r l k1 k2 : disj l (k1 ++ k2) <-> disj l k1 /\ disj l k2.
Proof. unfold disj. set_solver. Qed.
Lemma disj_nil_l k : disj [] k <-> True.
Proof. unfold disj. set_solver. Qed.
Lemma disj_nil_r l : disj l [] <-> True.
Proof. unfold disj. set_solver. Qed.
Lemma disj_sym l k : disj l k -> disj k l.
Proof. unfold disj. set_solver. Qed.
Lemma NoDup_app_disj (l k : list positive) :
  NoDup (l ++ k) <-> NoDup l /\ NoDup k /\ disj l k.
Proof. rewrite NoDup_app. unfold disj. tauto. Qed.
Lemma NoDup_cons_iff (a : positive) l : NoDup (a :: l) <-> (a ∉ l) /\ NoDup l.
Proof. apply NoDup_cons. Qed.
Lemma NoDup_nil_iff : NoDup (@nil positive) <-> True.
Proof. split; [done|]. intros _. constructor. Qed.
Lemma not_elem_cons_iff (a b : positive) l : a ∉ b :: l <-> a <> b /\ (a ∉ l).
Proof. apply not_elem_of_cons. Qed.
Lemma not_elem_app_iff (a : positive) l k : a ∉ l ++ k <-> (a ∉ l) /\ (a ∉ k).
Proof. apply not_elem_of_app. Qed.
Lemma not_elem_nil_iff (a : positive) : a ∉ @nil positive <-> True.
Proof. split; [done|]. intros _. apply not_elem_of_nil. Qed.

End Disjoint.

Section Basics.

Context {Item : Type}.
Implicit Types (t : rbt Item) (C : ctx Item) (s : state Item).
Implicit Types (h : gmap positive (node Item)).

Lemma ptrs_T p c (l : rbt Item) x r : ptrs (T p c l x r) = ptrs l ++ p :: ptrs r.
Proof. unfold ptrs. simpl. rewrite fmap_app. reflexivity. Qed.

Lemma ptrs_E : ptrs (@E Item) = [].
Proof. reflexivity. Qed.

Lemma cptrs_cons (f : frame Item) C : cptrs (f :: C) = fptr f :: ptrs (fsib f) ++ cptrs C.
Proof. reflexivity. Qed.

Lemma cptrs_app C1 C2 : cptrs (C1 ++ C2) = cptrs C1 ++ cptrs C2.
Proof.
  induction C1 as [|f C1 IH]; simpl; [done|].
  rewrite IH. unfold fptrs. by rewrite <- !app_assoc.
Qed.

Lemma ptrs_plug C t : ptrs (plug C t) ≡ₚ ptrs t ++ cptrs C.
Proof.
  revert t. induction C as [|f C IH]; intros t; simpl.
  - by rewrite app_nil_r.
  - rewrite IH. destruct f; simpl; unfold fptrs; simpl; rewrite ptrs_T; solve_Permutation.
Qed.

Lemma plug_app C1 C2 t : plug (C1 ++ C2) t = plug C2 (plug C1 t).
Proof. revert t. induction C1 as [|f C1 IH]; intros t; simpl; [done|]. apply IH. Qed.

Lemma rep_plug h rt C t :
  (rt = ptr_of (plug C t) /\ rep h None (plug C t)) <->
  (repc h rt C (ptr_of t) /\ rep h (cpar C) t).
Proof.
  revert t. induction C as [|f C IH]; intros t; simpl.
  - tauto.
  - rewrite IH. destruct f; simpl; tauto.
Qed.

Lemma Rep_plug s C t :
  Rep s (plug C t) <->
  repc (heap s) (root (tree s)) C (ptr_of t) /\ rep (heap s) (cpar C) t /\
  NoDup (ptrs t ++ cptrs C).
Proof.
  unfold Rep. rewrite <- ptrs_plug.
  pose proof (rep_plug (heap s) (root (tree s)) C t). tauto.
Qed.

Lemma Rep_NoDup s C t : Rep s (plug C t) -> NoDup (ptrs t ++ cptrs C).
Proof. rewrite Rep_plug. tauto. Qed.

Lemma Rep_lookup s C p c l x r :
  Rep s (plug C (T p c l x r)) ->
  heap s !! p = Some (mkNode x (cpar C) (ptr_of l) (ptr_of r) c).
Proof. rewrite Rep_plug. simpl. tauto. Qed.

Lemma ptr_of_elem t a : ptr_of t = Some a -> a ∈ ptrs t.
Proof. destruct t; simpl; [done|]. intros [= ->]. rewrite ptrs_T. set_solver. Qed.

Lemma ptr_of_not_elem t a : a ∉ ptrs t -> Some a <> ptr_of t.
Proof. intros H Heq. apply H. by apply ptr_of_elem. Qed.

Lemma rep_frame h h' par t :
  rep h par t -> (forall a, a ∈ ptrs t -> h' !! a = h !! a) -> rep h' par t.
Proof.
  revert par. induction t as [|p c l IHl x r IHr]; intros par; simpl; [done|].
  rewrite ptrs_T. intros (Hp & Hl & Hr) Hf. split_and!.
  - rewrite Hf; [done|set_solver].
  - apply IHl; [done|]. intros; apply Hf; set_solver.
  - apply IHr; [done|]. intros; apply Hf; set_solver.
Qed.

Lemma repc_frame h h' rt C q :
  repc h rt C q -> (forall a, a ∈ cptrs C -> h' !! a = h !! a) -> repc h' rt C q.
Proof.
  revert q. induction C as [|f C IH]; intros q; simpl; [done|].
  destruct f; unfold fptrs; simpl; intros (Hp & Hs & Hc) Hf; split_and!.
  - rewrite Hf; [done|set_solver].
  - eapply rep_frame; [done|]. intros; apply Hf; set_solver.
  - apply IH; [done|]. intros; apply Hf; set_solver.
  - rewrite Hf; [done|set_solver].
  - eapply rep_frame; [done|]. intros; apply Hf; set_solver.
  - apply IH; [done|]. intros; apply Hf; set_solver.
Qed.

Lemma rep_dom h par t a : rep h par t -> a ∈ ptrs t -> is_Some (h !! a).
Proof.
  revert par. induction t as [|p c l IHl x r IHr]; intros par; simpl.
  - intros _ H. by apply elem_of_nil in H.
  - rewrite ptrs_T. intros (Hp & Hl & Hr) Ha.
    apply elem_of_app in Ha as [Ha|Ha]; [by eapply IHl|].
    apply elem_of_cons in Ha as [->|Ha]; [by eexists|by eapply IHr].
Qed.

(** The tree has no more nodes than the store. *)
Lemma Rep_size s t : Rep s t -> (length (ptrs t) <= size (heap s))%nat.
Proof.
  intros (_ & Hr & Hnd).
  rewrite <- size_dom.
  rewrite <- (size_list_to_set (C := gset positive) (ptrs t)) by done.
  apply subseteq_size. intros a Ha. apply elem_of_list_to_set in Ha.
  apply elem_of_dom. by eapply rep_dom.
Qed.

Lemma wp_Ok {A} (m : M Item A) s Q :
  wp m s Q <-> exists a s', m s = Ok a s' /\ Q a s'.
Proof.
  unfold wp. destruct (m s) as [a s'| |]; split; try done.
  - eauto.
  - intros (a' & s'' & [= -> ->] & HQ). done.
  - intros (a' & s'' & [=] & _).
  - intros (a' & s'' & [=] & _).
Qed.

Lemma wp_mono {A} (m : M Item A) s (Q1 Q2 : A -> state Item -> Prop) :
  wp m s Q1 -> (forall a s', Q1 a s' -> Q2 a s') -> wp m s Q2.
Proof. unfold wp. destruct (m s); auto. Qed.

Lemma wp_ret {A} (a : A) s (Q : A -> state Item -> Prop) : Q a s -> wp (ret a) s Q.
Proof. done. Qed.

Lemma wp_bind {A B} (m : M Item A) (k : A -> M Item B) s Q :
  wp m s (fun a s' => wp (k a) s' Q) -> wp (bind m k) s Q.
Proof. unfold wp, bind. destruct (m s); auto. Qed.

Lemma wp_load {A} (f : node Item -> A) a nd s (Q : A -> state Item -> Prop) :
  heap s !! a = Some nd -> Q (f nd) s -> wp (load f (Some a)) s Q.
Proof. intros H HQ. unfold wp, load. rewrite H. done. Qed.

Lemma wp_store g a nd s (Q : unit -> state Item -> Prop) :
  heap s !! a = Some nd ->
  Q tt (mkState (<[a := g nd]> (heap s)) (tree s)) ->
  wp (store g (Some a)) s Q.
Proof. intros H HQ. unfold wp, store. rewrite H. done. Qed.

Lemma wp_get {A} (f : Tree -> A) s (Q : A -> state Item -> Prop) :
  Q (f (tree s)) s -> wp (get f) s Q.
Proof. done. Qed.

Lemma wp_put g s (Q : unit -> state Item -> Prop) :
  Q tt (mkState (heap s) (g (tree s))) -> wp (put g) s Q.
Proof. done. Qed.

Lemma wp_seq2 {A B D} (m1 : M Item A) (m2 : M Item B) (rest : M Item D) s Q :
  wp (bind m1 (fun _ => m2)) s (fun _ s' => wp rest s' Q) ->
  wp (bind m1 (fun _ => bind m2 (fun _ => rest))) s Q.
Proof.
  unfold wp, bind. destruct (m1 s); [|done..]. destruct (m2 s0); done.
Qed.

Lemma wp_loop_fuel s (Q : nat -> state Item -> Prop) :
  Q (S (size (heap s))) s -> wp loop_fuel s Q.
Proof. done. Qed.

Lemma ptr_eqb_refl (a : ptr) : ptr_eqb a a = true.
Proof. unfold ptr_eqb. by rewrite bool_decide_eq_true_2. Qed.

Lemma ptr_eqb_ne (a b : ptr) : a <> b -> ptr_eqb a b = false.
Proof. intros. unfold ptr_eqb. by rewrite bool_decide_eq_false_2. Qed.

Lemma ptr_eqb_Some_ne (a b : positive) : a <> b -> ptr_eqb (Some a) (Some b) = false.
Proof. intros. apply ptr_eqb_ne. congruence. Qed.

Lemma ptr_eqb_ptr_of t a : a ∉ ptrs t -> ptr_eqb (Some a) (ptr_of t) = false.
Proof. intros. apply ptr_eqb_ne. by apply ptr_of_not_elem. Qed.

Lemma ptr_eqb_ptr_of' t a : a ∉ ptrs t -> ptr_eqb (ptr_of t) (Some a) = false.
Proof. intros H. apply ptr_eqb_ne. intros Heq. by eapply ptr_of_not_elem. Qed.

Lemma ptr_eqb_Some_None (a : positive) : ptr_eqb (Some a) None = false.
Proof. by apply ptr_eqb_ne. Qed.

Lemma ptr_eqb_None_Some (a : positive) : ptr_eqb None (Some a) = false.
Proof. by apply ptr_eqb_ne. Qed.

Lemma same_cache_refl s : same_cache s s.
Proof. done. Qed.

Lemma same_cache_trans s1 s2 s3 : same_cache s1 s2 -> same_cache s2 s3 -> same_cache s1 s3.
Proof. unfold same_cache. intros (-> & -> & ->) (-> & -> & ->). done. Qed.

End Basics.

Ltac nd_break :=
  repeat match goal with
  | H : context [ptrs (plug _ _)] |- _ => rewrite ptrs_plug in H
  | H : context [ptrs (T _ _ _ _ _)] |- _ => rewrite ptrs_T in H
  | H : context [@ptrs ?I (@E ?I)] |- _ => change (@ptrs I (@E I)) with (@nil positive) in H
  | H : context [cptrs (_ :: _)] |- _ => rewrite cptrs_cons in H; simpl fptr in H; simpl fsib in H
  | H : context [cptrs []] |- _ => simpl cptrs in H
  | H : NoDup (_ ++ _) |- _ => apply NoDup_app_disj in H; destruct H as (? & ? & ?)
  | H : NoDup (_ :: _) |- _ => apply NoDup_cons_iff in H; destruct H as (? & ?)
  | H : NoDup [] |- _ => clear H
  | H : disj (_ :: _) _ |- _ => apply disj_cons_l in H; destruct H as (? & ?)
  | H : disj (_ ++ _) _ |- _ => apply disj_app_l in H; destruct H as (? & ?)
  | H : disj [] _ |- _ => clear H
  | H : disj _ (_ :: _) |- _ => apply disj_cons_r in H; destruct H as (? & ?)
  | H : disj _ (_ ++ _) |- _ => apply disj_app_r in H; destruct H as (? & ?)
  | H : disj _ [] |- _ => clear H
  | H : _ ∉ _ :: _ |- _ => apply not_elem_cons_iff in H; destruct H as (? & ?)
  | H : _ ∉ _ ++ _ |- _ => apply not_elem_app_iff in H; destruct H as (? & ?)
  | H : _ ∉ [] |- _ => clear H
  end.

Ltac nd_atom :=
  first [ assumption | apply not_eq_sym; assumption | apply disj_sym; assumption ].

Ltac nd_goal :=
  repeat first
  [ rewrite ptrs_plug | rewrite ptrs_T
  | match goal with |- context [@ptrs ?I (@E ?I)] => change (@ptrs I (@E I)) with (@nil positive) end
  | rewrite cptrs_cons; simpl fptr; simpl fsib
  | progress simpl cptrs ];
  repeat match goal with
  | |- NoDup (_ ++ _) => apply NoDup_app_disj; split_and!
  | |- NoDup (_ :: _) => apply NoDup_cons_iff; split
  | |- NoDup [] => constructor
  | |- disj (_ :: _) _ => apply disj_cons_l; split
  | |- disj (_ ++ _) _ => apply disj_app_l; split
  | |- disj [] _ => by apply disj_nil_l
  | |- disj _ (_ :: _) => apply disj_cons_r; split
  | |- disj _ (_ ++ _) => apply disj_app_r; split
  | |- disj _ [] => by apply disj_nil_r
  | |- _ ∉ _ :: _ => apply not_elem_cons_iff; split
  | |- _ ∉ _ ++ _ => apply not_elem_app_iff; split
  | |- _ ∉ [] => apply not_elem_of_nil
  end; nd_atom.

(** Solve [heap S !! a = Some ?nd] for a state [S] built from inserts. *)
Ltac lk :=
  simpl heap;
  repeat first [ rewrite lookup_insert_eq | rewrite lookup_insert_ne by nd_atom ];
  first [eassumption | reflexivity].

Ltac msimpl :=
  unfold set_item, set_parent, set_left, set_right, set_color,
         set_root, set_minNode, set_maxNode, set_count,
         with_item, with_parent, with_left, with_right, with_color;
  cbn beta iota delta [item parent left right color
       is_nil negb ptr_of root minNode maxNode count tree heap fst snd getColor
       root_color fptr fcolor fitem fsib cpar doAssert andb orb].

Ltac ptr_dec :=
  first
  [ rewrite ptr_eqb_refl
  | rewrite ptr_eqb_Some_None
  | rewrite ptr_eqb_None_Some
  | rewrite ptr_eqb_Some_ne by nd_atom
  | rewrite ptr_eqb_ptr_of by nd_atom
  | rewrite ptr_eqb_ptr_of' by nd_atom ].

(** One step of execution on a state given by explicit store updates. *)
Ltac mstep :=
  lazymatch goal with
  | |- wp (bind _ _) _ _ => apply wp_bind
  | |- wp (ret _) _ _ => apply wp_ret
  | |- wp (load _ (Some _)) _ _ => eapply wp_load; [lk|]
  | |- wp (store _ (Some _)) _ _ => eapply wp_store; [lk|]
  | |- wp (get _) _ _ => apply wp_get
  | |- wp (put _) _ _ => apply wp_put
  | |- wp (isLeftChild _) _ _ => unfold isLeftChild
  | |- wp (isRightChild _) _ _ => unfold isRightChild
  | |- wp (andM _ _) _ _ => unfold andM
  | |- context [ptr_eqb _ _] => ptr_dec
  end; msimpl.

Ltac rep_fr :=
  first
  [ exact I
  | eapply rep_frame; [eassumption|];
    let a := fresh "a" in let Ha := fresh "Ha" in
    intros a Ha; simpl heap;
    repeat (rewrite lookup_insert_ne by (intros ->; contradiction)); reflexivity
  | eapply repc_frame; [eassumption|];
    let a := fresh "a" in let Ha := fresh "Ha" in
    intros a Ha; simpl heap;
    repeat (rewrite lookup_insert_ne by (intros ->; contradiction)); reflexivity ].

(** Close a goal [Rep S t'] for a state [S] given by explicit store updates. *)
Ltac rep_close :=
  first [apply Rep_plug | unfold Rep];
  cbn [repc rep plug fill cpar fptr ptr_of root tree heap]; split_and!;
  first [ lk | rep_fr | nd_goal | reflexivity ].

Ltac mfin := split; [rep_close | done].

Ltac rep_open H :=
  let Hc := fresh "Hc" in let Hr := fresh "Hr" in let Hnd := fresh "Hnd" in
  apply Rep_plug in H as (Hc & Hr & Hnd);
  cbn [repc rep plug fill cpar fptr ptr_of] in Hc, Hr;
  destruct_and?; nd_break.

Ltac mrun := msimpl; repeat mstep.

Section Primitives.

Context {Item : Type}.
Implicit Types (t : rbt Item) (C : ctx Item) (s : state Item).

Lemma set_color_spec s C p c l x r c' :
  Rep s (plug C (T p c l x r)) ->
  wp (set_color (Some p) c') s (fun _ s' =>
    Rep s' (plug C (T p c' l x r)) /\ same_cache s s').
Proof.
  intros H. rep_open H. mrun. mfin.
Qed.

Lemma rotateLeft_spec s C x cx a ix y cy b iy c :
  Rep s (plug C (T x cx a ix (T y cy b iy c))) ->
  wp (rotateLeft (Some x)) s (fun _ s' =>
    Rep s' (plug C (T y cy (T x cx a ix b) iy c)) /\ same_cache s s').
Proof.
  intros H.
  destruct C as [|[p cp xp sb|p cp sb xp] C]; destruct b as [|bp cb bl bx br];
    rep_open H; unfold rotateLeft; mrun; mfin.
Qed.

Lemma rotateRight_spec s C x cx a ix y cy b iy c :
  Rep s (plug C (T y cy (T x cx a ix b) iy c)) ->
  wp (rotateRight (Some y)) s (fun _ s' =>
    Rep s' (plug C (T x cx a ix (T y cy b iy c))) /\ same_cache s s').
Proof.
  intros H.
  destruct C as [|[p cp xp sb|p cp sb xp] C]; destruct b as [|bp cb bl bx br];
    rep_open H; unfold rotateRight; mrun; mfin.
Qed.

End Primitives.

(** Find the node with address [p] in the focused tree [plug C t] and pass
    its own focus to [k]. *)
Ltac find_down p C t k :=
  lazymatch t with
  | T ?q ?c ?l ?x ?r =>
      first [ constr_eq q p; k C t
            | find_down p (FL q c x r :: C) l k
            | find_down p (FR q c l x :: C) r k ]
  end.

Ltac find_any p C t k :=
  first [ find_down p C t k
        | lazymatch C with
          | ?f :: ?C' =>
              let t' := eval cbn [fill] in (fill f t) in
              find_any p C' t' k
          end ].

Ltac with_focus s p k :=
  match goal with
  | H : Rep ?s0 ?TT |- _ =>
      let H' := constr:(H : Rep s TT) in
      lazymatch TT with
      | plug ?C ?t => find_any p C t ltac:(fun C' t' => k H H' C' t')
      | ?t =>
          lazymatch type of t with
          | rbt ?I => find_any p (@nil (frame I)) t ltac:(fun C' t' => k H H' C' t')
          end
      end
  end.

Ltac rlk s p :=
  with_focus s p ltac:(fun H H' C' t' =>
    lazymatch t' with
    | T _ ?c ?l ?x ?r => exact (Rep_lookup s C' p c l x r H')
    end).

Ltac use_spec s p spec :=
  with_focus s p ltac:(fun H H' C' t' =>
    let H2 := fresh "HR" in
    assert (H2 : Rep s (plug C' t')) by exact H';
    eapply wp_mono; [ eapply spec; exact H2 | ];
    clear H2; clear H;
    let s' := fresh "s" in let HR := fresh "HR" in let Hsc := fresh "Hsc" in
    intros [] s' [HR Hsc];
    cbn [plug fill] in HR).

Ltac sc_merge :=
  repeat match goal with
  | H1 : same_cache ?s0 ?s1, H2 : same_cache ?s1 ?s2 |- _ =>
      pose proof (same_cache_trans _ _ _ H1 H2); clear H1 H2
  end.

Ltac rsimpl :=
  cbn beta iota delta [item parent left right color
       is_nil negb ptr_of fst snd getColor
       root minNode maxNode count tree heap
       root_color fptr fcolor fitem fsib cpar doAssert andb orb is_red is_black
       focus_ptr focus_node root_node fmap option_fmap option_map].

(** One step of execution on a state described by [Rep]. *)
Ltac rstep :=
  lazymatch goal with
  | |- wp (bind _ _) _ _ => apply wp_bind
  | |- wp (ret _) _ _ => apply wp_ret
  | |- wp (load _ (Some ?p)) ?s _ => eapply wp_load; [rlk s p|]
  | |- wp (set_color (Some ?p) _) ?s _ => use_spec s p set_color_spec; sc_merge
  | |- wp (rotateLeft (Some ?p)) ?s _ => use_spec s p rotateLeft_spec; sc_merge
  | |- wp (rotateRight (Some ?p)) ?s _ => use_spec s p rotateRight_spec; sc_merge
  | |- wp (get _) _ _ => apply wp_get
  | |- wp (put _) _ _ => apply wp_put
  | |- wp (set_root _) _ _ => unfold set_root
  | |- wp (set_minNode _) _ _ => unfold set_minNode
  | |- wp (set_maxNode _) _ _ => unfold set_maxNode
  | |- wp (set_count _) _ _ => unfold set_count
  | |- wp loop_fuel _ _ => apply wp_loop_fuel
  | |- wp (isLeftChild _) _ _ => unfold isLeftChild
  | |- wp (sibling _) _ _ => unfold sibling
  | |- wp (isRightChild _) _ _ => unfold isRightChild
  | |- wp (andM _ _) _ _ => unfold andM
  | |- context [ptr_eqb _ _] => ptr_dec
  end;
  rsimpl.

Ltac rsteps := rsimpl; repeat rstep.

Section InsertLoop.

Context {Item : Type}.
Implicit Types (t : rbt Item) (C : ctx Item) (s : state Item).

Lemma Insert_loop_sim fuel : forall C t s n t',
  Rep s (plug C t) -> ptr_of t = Some n -> ifix C t = Some t' ->
  (length C + 2 <= fuel)%nat ->
  wp (Insert_loop fuel (Some n)) s (fun _ s' => Rep s' t' /\ same_cache s s').
Proof.
  induction fuel as [|fuel IH]; intros C t s n t' HR Hn Hf Hfuel; [lia|].
  destruct t as [|n' cn l x r]; [done|]. simpl in Hn. injection Hn as ->.
  pose proof (Rep_NoDup _ _ _ HR) as Hnd.
  destruct C as [|f C1]; simpl in Hf.
  { injection Hf as <-. simpl in HR. nd_break. simpl. repeat rstep. done. }
  destruct f as [p [] xp pr|p [] pl xp]; simpl in Hf;
    try (injection Hf as <-; nd_break; simpl; repeat rstep; done).
  all: destruct C1 as [|g C2]; [done|].
  all: destruct g as [gp gc gx u|gp gc u gx]; simpl in Hf.
  all: destruct u as [|up [] ul ux ur]; nd_break; simpl; repeat rstep.
  all: try (injection Hf as <-; done).
  all: try (lazymatch type of Hf with
      | ifix ?C0 ?t0 = _ =>
        eapply wp_mono;
        [ eapply (IH C0 t0); [exact HR | reflexivity | exact Hf | simpl in Hfuel |- *; lia]
        | intros [] s' [? ?]; split; [done | eapply same_cache_trans; eassumption] ]
      end).
  all: destruct fuel as [|fuel]; [simpl in Hfuel; lia|].
  all: destruct cn; simpl in Hf; injection Hf as <-; simpl; repeat rstep; done.
Qed.

End InsertLoop.

Section Search.

Context {Item : Type}.
Implicit Types (t : rbt Item) (C : ctx Item) (s : state Item).

Lemma length_cptrs C : (length C <= length (cptrs C))%nat.
Proof.
  induction C as [|f C IH]; simpl; [lia|].
  unfold fptrs. rewrite length_app. simpl. lia.
Qed.

Lemma Rep_size_plug s C t :
  Rep s (plug C t) -> (length (ptrs t) + length C <= size (heap s))%nat.
Proof.
  intros H. apply Rep_size in H. rewrite ptrs_plug, length_app in H.
  pose proof (length_cptrs C). lia.
Qed.

Lemma length_ptrs_T p c (l : rbt Item) x r :
  length (ptrs (T p c l x r)) = S (length (ptrs l) + length (ptrs r)).
Proof. rewrite ptrs_T, length_app. simpl. lia. Qed.

Lemma leftmost_loop_sim t : forall C s fuel m,
  Rep s (plug C t) -> ptr_of t = Some m -> (length (ptrs t) <= fuel)%nat ->
  wp (leftmost_loop fuel (Some m)) s (fun r s' =>
    s' = s /\ r = focus_ptr (Some (min_path C t))).
Proof.
  induction t as [|p c l IHl x r _]; intros C s fuel m HR Hm Hfuel; [done|].
  simpl in Hm. injection Hm as ->.
  rewrite length_ptrs_T in Hfuel.
  destruct fuel as [|fuel]; [lia|]. simpl leftmost_loop. rsteps.
  destruct l as [|lp lc ll lx lr]; rsteps; [done|].
  eapply (IHl (FL m c x r :: C)); [exact HR|reflexivity|lia].
Qed.

Lemma rightmost_loop_sim t : forall C s fuel m,
  Rep s (plug C t) -> ptr_of t = Some m -> (length (ptrs t) <= fuel)%nat ->
  wp (rightmost_loop fuel (Some m)) s (fun r s' =>
    s' = s /\ r = focus_ptr (Some (max_path C t))).
Proof.
  induction t as [|p c l _ x r IHr]; intros C s fuel m HR Hm Hfuel; [done|].
  simpl in Hm. injection Hm as ->.
  rewrite length_ptrs_T in Hfuel.
  destruct fuel as [|fuel]; [lia|]. simpl rightmost_loop. rsteps.
  destruct r as [|rp rc rl rx rr]; rsteps; [done|].
  eapply (IHr (FR m c l x :: C)); [exact HR|reflexivity|lia].
Qed.

Lemma next_loop_sim C : forall t s fuel n,
  Rep s (plug C t) -> ptr_of t = Some n -> (length C < fuel)%nat ->
  wp (next_loop fuel (Some n)) s (fun r s' =>
    s' = s /\ r = focus_ptr (climb_next C t)).
Proof.
  induction C as [|f C IH]; intros t s fuel n HR Hn Hfuel;
    (destruct fuel as [|fuel]; [simpl in Hfuel; lia|]);
    (destruct t as [|n' cn l x r]; [done|]); simpl in Hn; injection Hn as ->;
    pose proof (Rep_NoDup _ _ _ HR) as Hnd; nd_break; simpl next_loop.
  - rsteps. done.
  - destruct f as [p c xp pr|p c pl xp]; rsteps; [done|].
    eapply (IH (T p c pl xp (T n cn l x r))); [exact HR|reflexivity|simpl in Hfuel; lia].
Qed.

Lemma prev_loop_sim C : forall t s fuel n,
  Rep s (plug C t) -> ptr_of t = Some n -> (length C < fuel)%nat ->
  wp (prev_loop fuel (Some n)) s (fun r s' =>
    s' = s /\ r = focus_ptr (climb_prev C t)).
Proof.
  induction C as [|f C IH]; intros t s fuel n HR Hn Hfuel;
    (destruct fuel as [|fuel]; [simpl in Hfuel; lia|]);
    (destruct t as [|n' cn l x r]; [done|]); simpl in Hn; injection Hn as ->;
    pose proof (Rep_NoDup _ _ _ HR) as Hnd; nd_break; simpl prev_loop.
  - rsteps. done.
  - destruct f as [p c xp pr|p c pl xp]; rsteps; [|done].
    eapply (IH (T p c (T n cn l x r) xp pr)); [exact HR|reflexivity|simpl in Hfuel; lia].
Qed.

Lemma next_sim C t s n :
  Rep s (plug C t) -> ptr_of t = Some n ->
  wp (next (Some n)) s (fun r s' => s' = s /\ r = focus_ptr (next_abs C t)).
Proof.
  intros HR Hn. destruct t as [|n' cn l x r]; [done|]. simpl in Hn. injection Hn as ->.
  pose proof (Rep_size_plug _ _ _ HR) as Hsz. rewrite length_ptrs_T in Hsz.
  unfold next. rsteps. destruct r as [|rp rc rl rx rr]; rsteps.
  - eapply next_loop_sim; [exact HR|reflexivity|lia].
  - eapply (leftmost_loop_sim _ (FR n cn l x :: C)); [exact HR|reflexivity|lia].
Qed.

Lemma maxPredecessor_sim C n cn l x r s :
  Rep s (plug C (T n cn l x r)) -> l <> E ->
  wp (maxPredecessor (Some n)) s (fun q s' =>
    s' = s /\ q = focus_ptr (Some (max_path (FL n cn x r :: C) l))).
Proof.
  intros HR Hl. destruct l as [|lp lc ll lx lr]; [done|].
  pose proof (Rep_size_plug _ _ _ HR) as Hsz. rewrite length_ptrs_T in Hsz.
  unfold maxPredecessor. rsteps.
  eapply (rightmost_loop_sim _ (FL n cn x r :: C)); [exact HR|reflexivity|lia].
Qed.

Lemma prev_sim C t s n :
  Rep s (plug C t) -> ptr_of t = Some n ->
  wp (prev (Some n)) s (fun r s' => s' = s /\ r = focus_ptr (prev_abs C t)).
Proof.
  intros HR Hn. destruct t as [|n' cn l x r]; [done|]. simpl in Hn. injection Hn as ->.
  pose proof (Rep_size_plug _ _ _ HR) as Hsz. rewrite length_ptrs_T in Hsz.
  unfold prev. rsteps. destruct l as [|lp lc ll lx lr]; rsteps.
  - eapply prev_loop_sim; [exact HR|reflexivity|lia].
  - eapply wp_mono; [eapply maxPredecessor_sim; [exact HR|done]|].
    intros q s' [-> ->]. done.
Qed.

End Search.

Section Foci.

Context {Item : Type}.
Implicit Types (t : rbt Item) (C : ctx Item) (s : state Item).

(** Every focus-returning function returns a focus of the same tree. *)
Lemma min_path_plug t : forall C, plug (min_path C t).1 (min_path C t).2 = plug C t.
Proof.
  induction t as [|p c l IHl x r _]; intros C; [done|].
  destruct l as [|lp lc ll lx lr]; [done|].
  change (min_path C (T p c (T lp lc ll lx lr) x r))
    with (min_path (FL p c x r :: C) (T lp lc ll lx lr)).
  rewrite IHl. done.
Qed.

Lemma max_path_plug t : forall C, plug (max_path C t).1 (max_path C t).2 = plug C t.
Proof.
  induction t as [|p c l _ x r IHr]; intros C; [done|].
  destruct r as [|rp rc rl rx rr]; [done|].
  change (max_path C (T p c l x (T rp rc rl rx rr)))
    with (max_path (FR p c l x :: C) (T rp rc rl rx rr)).
  rewrite IHr. done.
Qed.

Lemma min_path_node t : forall C, t <> E -> exists p c x r, (min_path C t).2 = T p c E x r.
Proof.
  induction t as [|p c l IHl x r _]; intros C Ht; [done|].
  destruct l as [|lp lc ll lx lr]; [by eexists _, _, _, _|].
  apply (IHl (FL p c x r :: C)). done.
Qed.

Lemma max_path_node t : forall C, t <> E -> exists p c l x, (max_path C t).2 = T p c l x E.
Proof.
  induction t as [|p c l _ x r IHr]; intros C Ht; [done|].
  destruct r as [|rp rc rl rx rr]; [by eexists _, _, _, _|].
  apply (IHr (FR p c l x :: C)). done.
Qed.

Lemma climb_next_plug C : forall t C' t',
  climb_next C t = Some (C', t') -> plug C' t' = plug C t /\ exists p c l x r, t' = T p c l x r.
Proof.
  induction C as [|f C IH]; intros t C' t' H; [done|].
  destruct f as [p c x r|p c l x]; simpl in H.
  - injection H as <- <-. split; [done|]. by eexists _, _, _, _, _.
  - apply IH in H as [-> ?]. done.
Qed.

Lemma climb_prev_plug C : forall t C' t',
  climb_prev C t = Some (C', t') -> plug C' t' = plug C t /\ exists p c l x r, t' = T p c l x r.
Proof.
  induction C as [|f C IH]; intros t C' t' H; [done|].
  destruct f as [p c x r|p c l x]; simpl in H.
  - apply IH in H as [-> ?]. done.
  - injection H as <- <-. split; [done|]. by eexists _, _, _, _, _.
Qed.

Lemma next_abs_plug C t C' t' :
  next_abs C t = Some (C', t') -> plug C' t' = plug C t /\ exists p c l x r, t' = T p c l x r.
Proof.
  destruct t as [|p c l x r]; [done|]. unfold next_abs.
  destruct r as [|rp rc rl rx rr]; cbv beta iota.
  - apply climb_next_plug.
  - intros Heq. apply (inj Some) in Heq.
    pose proof (min_path_plug (T rp rc rl rx rr) (FR p c l x :: C)) as Hp.
    destruct (min_path_node (T rp rc rl rx rr) (FR p c l x :: C)) as (?&?&?&?&Hn); [done|].
    rewrite Heq in Hp, Hn. simpl in Hp, Hn. subst t'. split; [done|].
    by eexists _, _, _, _, _.
Qed.

Lemma prev_abs_plug C t C' t' :
  prev_abs C t = Some (C', t') -> plug C' t' = plug C t /\ exists p c l x r, t' = T p c l x r.
Proof.
  destruct t as [|p c l x r]; [done|]. unfold prev_abs.
  destruct l as [|lp lc ll lx lr]; cbv beta iota.
  - apply climb_prev_plug.
  - intros Heq. apply (inj Some) in Heq.
    pose proof (max_path_plug (T lp lc ll lx lr) (FL p c x r :: C)) as Hp.
    destruct (max_path_node (T lp lc ll lx lr) (FL p c x r :: C)) as (?&?&?&?&Hn); [done|].
    rewrite Heq in Hp, Hn. simpl in Hp, Hn. subst t'. split; [done|].
    by eexists _, _, _, _, _.
Qed.

Variable compare : Item -> Item -> Z.

Lemma findGE_abs_plug key t : forall C C' t' b,
  findGE_abs compare key C t = (Some (C', t'), b) ->
  plug C' t' = plug C t /\ exists p c l x r, t' = T p c l x r.
Proof.
  induction t as [|p c l IHl x r IHr]; intros C C' t' b H; [done|].
  simpl in H. destruct (compare key x =? 0).
  { injection H as <- <- <-. split; [done|]. by eexists _, _, _, _, _. }
  destruct (compare key x <? 0).
  - destruct l as [|lp lc ll lx lr].
    + injection H as <- <- <-. split; [done|]. by eexists _, _, _, _, _.
    + apply IHl in H. done.
  - destruct r as [|rp rc rl rx rr].
    + destruct (climb_next C (T p c l x E)) as [[C1 t1]|] eqn:Hc; [|done].
      apply climb_next_plug in Hc as [Hp (?&?&?&?&?&->)].
      injection H as <- <- <-. split; [done|]. by eexists _, _, _, _, _.
    + apply IHr in H. done.
Qed.

Lemma findGE_abs_exact key t : forall C o,
  findGE_abs compare key C t = (o, true) ->
  exists C' p c l x r, o = Some (C', T p c l x r) /\ compare key x = 0.
Proof.
  induction t as [|p c l IHl x r IHr]; intros C o H; [done|].
  simpl in H. destruct (compare key x =? 0) eqn:E0.
  { injection H as <-. apply Z.eqb_eq in E0. by eexists _, _, _, _, _, _. }
  destruct (compare key x <? 0).
  - destruct l as [|lp lc ll lx lr]; [done|]. by eapply IHl.
  - destruct r as [|rp rc rl rx rr]; [|by eapply IHr].
    destruct (climb_next C (T p c l x E)) as [[C1 [|q c' l' y r']]|] eqn:Hc; [done| |done].
    injection H as <- Hy. apply Z.eqb_eq in Hy. by eexists _, _, _, _, _, _.
Qed.

Lemma findGE_loop_sim key t : forall C s fuel n,
  Rep s (plug C t) -> ptr_of t = Some n -> (length (ptrs t) <= fuel)%nat ->
  wp (findGE_loop compare fuel key (Some n)) s (fun r s' =>
    s' = s /\ r = (focus_ptr (findGE_abs compare key C t).1, (findGE_abs compare key C t).2)).
Proof.
  induction t as [|p c l IHl x r IHr]; intros C s fuel n HR Hn Hfuel; [done|].
  simpl in Hn. injection Hn as ->.
  rewrite length_ptrs_T in Hfuel.
  destruct fuel as [|fuel]; [lia|]. simpl findGE_loop. rsteps.
  simpl findGE_abs. destruct (compare key x =? 0); rsteps; [done|].
  destruct (compare key x <? 0); rsteps.
  - destruct l as [|lp lc ll lx lr]; rsteps; [done|].
    eapply (IHl (FL n c x r :: C)); [exact HR|reflexivity|lia].
  - destruct r as [|rp rc rl rx rr]; rsteps.
    + eapply wp_mono; [eapply next_sim; [exact HR|reflexivity]|].
      intros q s' [-> ->]. simpl next_abs.
      destruct (climb_next C (T n c l x E)) as [[C1 t1]|] eqn:Hc; [|rsteps; done].
      apply climb_next_plug in Hc as [Hp (?&?&?&?&?&->)].
      rewrite <- Hp in HR. rsteps. done.
    + eapply (IHr (FR n c l x :: C)); [exact HR|reflexivity|lia].
Qed.

Lemma findGE_sim key s t :
  Rep s t ->
  wp (findGE compare key) s (fun r s' =>
    s' = s /\ r = (focus_ptr (findGE_abs compare key [] t).1, (findGE_abs compare key [] t).2)).
Proof.
  intros HR. unfold findGE. rsteps.
  destruct t as [|p c l x r].
  - destruct HR as (-> & _). simpl. done.
  - pose proof (Rep_size _ _ HR).
    destruct HR as (Hroot & HR). rewrite Hroot.
    eapply (findGE_loop_sim key _ []); [split; done|reflexivity|lia].
Qed.

End Foci.

Section InsertSim.

Context {Item : Type}.
Implicit Types (t : rbt Item) (C : ctx Item) (s : state Item).

Lemma wp_load_item s m y (Q : Item -> state Item -> Prop) :
  has_item (heap s) m y -> Q y s -> wp (load item (Some m)) s Q.
Proof. intros (nd & H & <-) HQ. eapply wp_load; eauto. Qed.

Lemma leftmost_min_path t : forall C, leftmost t = root_node (min_path C t).2.
Proof.
  induction t as [|p c l IHl x r _]; intros C; [done|].
  destruct l as [|lp lc ll lx lr]; [done|].
  apply (IHl (FL p c x r :: C)).
Qed.

Lemma rightmost_max_path t : forall C, rightmost t = root_node (max_path C t).2.
Proof.
  induction t as [|p c l _ x r IHr]; intros C; [done|].
  destruct r as [|rp rc rl rx rr]; [done|].
  apply (IHr (FR p c l x :: C)).
Qed.

Lemma Rep_has_item s C p c l x r :
  Rep s (plug C (T p c l x r)) -> has_item (heap s) p x.
Proof. intros H. apply Rep_lookup in H. by eexists. Qed.

Lemma Rep_leftmost_item s t m y :
  Rep s t -> leftmost t = Some (m, y) -> has_item (heap s) m y.
Proof.
  intros HR Hl. rewrite (leftmost_min_path t []) in Hl.
  pose proof (min_path_plug t []) as Hp. simpl in Hp.
  destruct (min_path [] t) as [C' [|p c l x r]]; [done|].
  simpl in *. injection Hl as -> ->. rewrite <- Hp in HR. by eapply Rep_has_item.
Qed.

Lemma Rep_rightmost_item s t m y :
  Rep s t -> rightmost t = Some (m, y) -> has_item (heap s) m y.
Proof.
  intros HR Hl. rewrite (rightmost_max_path t []) in Hl.
  pose proof (max_path_plug t []) as Hp. simpl in Hp.
  destruct (max_path [] t) as [C' [|p c l x r]]; [done|].
  simpl in *. injection Hl as -> ->. rewrite <- Hp in HR. by eapply Rep_has_item.
Qed.

Lemma leftmost_elem t m y : leftmost t = Some (m, y) -> m ∈ ptrs t.
Proof.
  induction t as [|p c l IHl x r _]; [done|]. rewrite ptrs_T.
  destruct l as [|lp lc ll lx lr].
  - cbn [leftmost rightmost]. intros [= -> ->]. rewrite elem_of_app, elem_of_cons. tauto.
  - intros H. apply IHl in H. rewrite elem_of_app. tauto.
Qed.

Lemma rightmost_elem t m y : rightmost t = Some (m, y) -> m ∈ ptrs t.
Proof.
  induction t as [|p c l _ x r IHr]; [done|]. rewrite ptrs_T.
  destruct r as [|rp rc rl rx rr].
  - cbn [leftmost rightmost]. intros [= -> ->]. rewrite elem_of_app, elem_of_cons. tauto.
  - intros H. apply IHr in H. rewrite elem_of_app, elem_of_cons. tauto.
Qed.

Lemma has_item_insert (h : gmap positive (node Item)) a nd nd' m y :
  h !! a = Some nd -> item nd' = item nd ->
  has_item h m y -> has_item (<[a := nd']> h) m y.
Proof.
  intros Ha Hi (ndm & Hm & <-). unfold has_item.
  destruct (decide (a = m)) as [->|Hne].
  - rewrite lookup_insert_eq. eexists; split; [done|]. congruence.
  - rewrite lookup_insert_ne by done. eauto.
Qed.

Lemma has_item_insert_ne (h : gmap positive (node Item)) a nd' m y :
  a <> m -> has_item h m y -> has_item (<[a := nd']> h) m y.
Proof.
  intros Hne (ndm & Hm & <-). unfold has_item.
  rewrite lookup_insert_ne by done. eauto.
Qed.

Lemma attach_left_wp {A} s C p c y r n x (rest : M Item A) Q :
  Rep s (plug C (T p c E y r)) ->
  heap s !! n = Some (mkNode x None None None red) ->
  n ∉ ptrs (plug C (T p c E y r)) ->
  (forall s', Rep s' (plug C (T p c (T n red E x E) y r)) -> same_cache s s' ->
     (forall m z, m <> n -> has_item (heap s) m z -> has_item (heap s') m z) ->
     wp rest s' Q) ->
  wp (set_parent (Some n) (Some p)) s (fun _ s1 =>
    wp (set_left (Some p) (Some n) ;;; rest) s1 Q).
Proof.
  intros HR Hn Hnin Hk. rewrite ptrs_plug in Hnin.
  rep_open HR. mrun. apply Hk; [rep_close | done |].
  intros m z Hm Hi. simpl.
  eapply has_item_insert; [lk|reflexivity|]. by apply has_item_insert_ne.
Qed.

Lemma attach_right_wp {A} s C p c y l n x (rest : M Item A) Q :
  Rep s (plug C (T p c l y E)) ->
  heap s !! n = Some (mkNode x None None None red) ->
  n ∉ ptrs (plug C (T p c l y E)) ->
  (forall s', Rep s' (plug C (T p c l y (T n red E x E))) -> same_cache s s' ->
     (forall m z, m <> n -> has_item (heap s) m z -> has_item (heap s') m z) ->
     wp rest s' Q) ->
  wp (set_parent (Some n) (Some p)) s (fun _ s1 =>
    wp (set_right (Some p) (Some n) ;;; rest) s1 Q).
Proof.
  intros HR Hn Hnin Hk. rewrite ptrs_plug in Hnin.
  rep_open HR. mrun. apply Hk; [rep_close | done |].
  intros m z Hm Hi. simpl.
  eapply has_item_insert; [lk|reflexivity|]. by apply has_item_insert_ne.
Qed.

Variable compare : Item -> Item -> Z.

Lemma doInsert_loop_sim x n t : forall C s fuel p T0,
  T0 = plug C t -> Rep s T0 -> ptr_of t = Some p -> cache_ok s T0 ->
  heap s !! n = Some (mkNode x None None None red) -> n ∉ ptrs T0 ->
  (length (ptrs t) <= fuel)%nat ->
  wp (doInsert_loop compare fuel (Some n) (Some p)) s (fun b s' =>
    match ins_path compare x C t with
    | None => b = false /\ s' = s
    | Some C' =>
        b = true /\ Rep s' (plug C' (T n red E x E)) /\
        count (tree s') = count (tree s) + 1 /\
        (minNode (tree s'), maxNode (tree s')) =
          cache_after_attach compare n x C' T0 (minNode (tree s)) (maxNode (tree s))
    end).
Proof.
  induction t as [|p' c l IHl y r IHr]; intros C s fuel p T0 HT HR Hp Hcache Hn Hnin Hfuel;
    [done|].
  simpl in Hp. injection Hp as ->. subst T0.
  rewrite length_ptrs_T in Hfuel.
  destruct fuel as [|fuel]; [lia|]. simpl doInsert_loop.
  eapply wp_bind, wp_load; [exact Hn|]. rsteps.
  simpl ins_path. destruct (compare x y =? 0); rsteps; [done|].
  destruct Hcache as [Hcmin Hcmax].
  destruct (compare x y <? 0); rsteps.
  - destruct l as [|lp lc ll lx lr]; rsteps.
    + eapply attach_left_wp; [exact HR|exact Hn|exact Hnin|].
      intros s1 HR1 (Hmin & Hmax & Hcnt) Hitem. rsteps. unfold maybeSetMinNode. rsteps.
      cbn [ins_path cache_after_attach]. rewrite Hmin, Hcmin.
      destruct (leftmost (plug C (T p c E y r))) as [[m my]|] eqn:Hl; rsteps.
      * eapply wp_load_item.
        { apply Hitem; [|by eapply Rep_leftmost_item].
          intros ->. apply Hnin. by eapply leftmost_elem. }
        destruct (compare x my <? 0); rsteps;
          (split; [done|split; [exact HR1|split; [lia|by rewrite ?Hmin, ?Hcmin, ?Hmax]]]).
      * split; [done|split; [exact HR1|split; [lia|done]]].
    + eapply (IHl (FL p c y r :: C)); try done. lia.
  - destruct r as [|rp rc rl rx rr]; rsteps.
    + eapply attach_right_wp; [exact HR|exact Hn|exact Hnin|].
      intros s1 HR1 (Hmin & Hmax & Hcnt) Hitem. rsteps. unfold maybeSetMaxNode. rsteps.
      cbn [ins_path cache_after_attach]. rewrite Hmax, Hcmax.
      destruct (rightmost (plug C (T p c l y E))) as [[m my]|] eqn:Hl; rsteps.
      * eapply wp_load_item.
        { apply Hitem; [|by eapply Rep_rightmost_item].
          intros ->. apply Hnin. by eapply rightmost_elem. }
        destruct (compare x my >? 0); rsteps;
          (split; [done|split; [exact HR1|split; [lia|by rewrite ?Hmin, ?Hcmin, ?Hmax]]]).
      * split; [done|split; [exact HR1|split; [lia|done]]].
    + eapply (IHr (FR p c l y :: C)); try done. lia.
Qed.

Lemma doInsert_sim x n s t :
  Rep s t -> cache_ok s t ->
  heap s !! n = Some (mkNode x None None None red) -> n ∉ ptrs t ->
  wp (doInsert compare (Some n)) s (fun b s' =>
    match ins_path compare x [] t with
    | None => b = false /\ s' = s
    | Some C' =>
        b = true /\ Rep s' (plug C' (T n red E x E)) /\
        count (tree s') = count (tree s) + 1 /\
        (minNode (tree s'), maxNode (tree s')) =
          cache_after_attach compare n x C' t (minNode (tree s)) (maxNode (tree s))
    end).
Proof.
  intros HR Hcache Hn Hnin. unfold doInsert. rsteps.
  destruct t as [|p c l y r].
  - destruct HR as (Hroot & _ & _). rewrite Hroot. mrun.
    split; [done|]. split; [|done]. rep_close.
  - pose proof (Rep_size _ _ HR) as Hsz.
    pose proof HR as (Hroot & _). rewrite Hroot. rsteps. rewrite Hroot.
    eapply (doInsert_loop_sim x n _ []); try done. lia.
Qed.

Lemma Rep_alloc s t nd :
  Rep s t ->
  let n := fresh (dom (heap s)) in
  Rep (mkState (<[n := nd]> (heap s)) (tree s)) t /\ n ∉ ptrs t.
Proof.
  intros HR n.
  assert (Hn : n ∉ ptrs t).
  { intros Hin. destruct HR as (_ & Hr & _).
    eapply rep_dom in Hin; [|exact Hr]. apply elem_of_dom in Hin.
    by apply is_fresh in Hin. }
  split; [|done]. destruct HR as (Hroot & Hr & Hnd). split_and!; [done| |done].
  eapply rep_frame; [exact Hr|]. intros a Ha. simpl.
  rewrite lookup_insert_ne; [done|]. intros <-. done.
Qed.

Lemma Insert_sim x s t :
  Rep s t -> cache_ok s t ->
  let n := fresh (dom (heap s)) in
  match ins_path compare x [] t with
  | None =>
      Insert compare x s =
        Ok false (mkState (<[n := mkNode x None None None red]> (heap s)) (tree s))
  | Some C' =>
      forall t', ifix C' (T n red E x E) = Some t' ->
      wp (Insert compare x) s (fun b s' =>
        b = true /\ Rep s' t' /\
        count (tree s') = count (tree s) + 1 /\
        (minNode (tree s'), maxNode (tree s')) =
          cache_after_attach compare n x C' t (minNode (tree s)) (maxNode (tree s)))
  end.
Proof.
  intros HR Hcache n.
  destruct (Rep_alloc s t (mkNode x None None None red) HR) as [HR0 Hnin].
  fold n in HR0, Hnin.
  set (s0 := mkState (<[n := mkNode x None None None red]> (heap s)) (tree s)) in *.
  assert (Hn : heap s0 !! n = Some (mkNode x None None None red))
    by (simpl; apply lookup_insert_eq).
  pose proof (doInsert_sim x n s0 t HR0 Hcache Hn Hnin) as Hd.
  destruct (ins_path compare x [] t) as [C'|].
  - intros t' Hfix. unfold Insert. apply wp_bind.
    unfold wp at 1. change (new_node _ s) with (Ok (A:=ptr) (Some n) s0).
    cbv beta iota. apply wp_bind.
    eapply wp_mono; [exact Hd|]. clear Hd.
    intros b s1 (-> & HR1 & Hcnt & Hmm). rsteps.
    destruct Hsc as (Hmin & Hmax & Hc).
    pose proof (Rep_size_plug _ _ _ HR1) as Hsz. rewrite length_ptrs_T in Hsz.
    eapply wp_mono;
      [eapply (Insert_loop_sim _ C' (T n red E x E)); [exact HR1|reflexivity|exact Hfix|lia]|].
    intros [] s3 [HR3 (Hmin3 & Hmax3 & Hc3)]. rsteps.
    split; [done|]. split; [done|]. split; [rewrite Hc3, Hc, Hcnt; reflexivity|].
    rewrite Hmin3, Hmax3, Hmin, Hmax. exact Hmm.
  - unfold Insert, bind. change (new_node _ s) with (Ok (A:=ptr) (Some n) s0).
    cbv beta iota. unfold wp in Hd.
    destruct (doInsert compare (Some n) s0) as [b s1| |]; [|done..].
    destruct Hd as [-> ->]. reflexivity.
Qed.

End InsertSim.

Section DeleteFix.

Context {Item : Type}.
Implicit Types (t : rbt Item) (C : ctx Item) (s : state Item).

Lemma deleteCase2_sim f C1 tn n s :
  Rep s (plug (f :: C1) tn) -> ptr_of tn = Some n ->
  wp (deleteCase2 (Some n)) s (fun _ s' =>
    Rep s' (plug (case1 f C1) tn) /\ same_cache s s').
Proof.
  intros HR Hn. destruct tn as [|n' cn l x r]; [done|]. simpl in Hn. injection Hn as ->.
  pose proof (Rep_NoDup _ _ _ HR) as Hnd.
  destruct f as [p cp xp [|sp [] sl sx sr]|p cp [|sp [] sl sx sr] xp];
    nd_break; unfold deleteCase2; rsteps; done.
Qed.

Lemma deleteCase3_sim again f C1 tn n s (Q : unit -> state Item -> Prop) :
  Rep s (plug (f :: C1) tn) -> ptr_of tn = Some n ->
  match dcases f C1 with
  | DStop C' => forall s', Rep s' (plug C' tn) -> same_cache s s' -> Q tt s'
  | DUp f' =>
      forall s', Rep s' (plug (f' :: C1) tn) -> same_cache s s' ->
        wp (again (Some (fptr f))) s' Q
  | DFail => False
  end ->
  wp (deleteCase3 again (Some n)) s Q.
Proof.
  intros HR Hn Hk. destruct tn as [|n' cn l x r]; [done|]. simpl in Hn. injection Hn as ->.
  pose proof (Rep_NoDup _ _ _ HR) as Hnd.
  destruct f as [p cp xp [|sp [] sl sx sr]|p cp [|sp [] sl sx sr] xp]; try done.
  - destruct sl as [|slp [] sll slx slr]; destruct sr as [|srp [] srl srx srr];
      destruct cp; simpl in Hk; try done; nd_break;
      unfold deleteCase3, deleteCase5; rsteps; by apply Hk.
  - destruct sl as [|slp [] sll slx slr]; destruct sr as [|srp [] srl srx srr];
      destruct cp; simpl in Hk; try done; nd_break;
      unfold deleteCase3, deleteCase5; rsteps; by apply Hk.
Qed.

Lemma dcases_DUp (f : frame Item) C1 f' : dcases f C1 = DUp f' -> fptr f' = fptr f.
Proof.
  destruct f as [p cp xp [|sp [] sl sx sr]|p cp [|sp [] sl sx sr] xp]; simpl; try done.
  - destruct (is_black (root_color sl) && is_black (root_color sr)).
    + destruct cp; intros [= <-]; done.
    + destruct (is_red (root_color sl) && is_black (root_color sr));
        [destruct sl as [|? ? ? ? [|? [] ? ? ?]]|destruct sr as [|? [] ? ? ?]]; done.
  - destruct (is_black (root_color sl) && is_black (root_color sr)).
    + destruct cp; intros [= <-]; done.
    + destruct (is_red (root_color sr) && is_black (root_color sl));
        [destruct sr as [|? ? [|? [] ? ? ?] ? ?]|destruct sl as [|? [] ? ? ?]]; done.
Qed.

Lemma deleteCase1_sim fuel : forall C tn s n C',
  Rep s (plug C tn) -> ptr_of tn = Some n -> dfix C = Some C' ->
  (length C < fuel)%nat ->
  wp (deleteCase1 fuel (Some n)) s (fun _ s' =>
    Rep s' (plug C' tn) /\ same_cache s s').
Proof.
  induction fuel as [|fuel IH]; intros C tn s n C' HR Hn Hf Hfuel; [lia|].
  destruct C as [|f C1].
  { injection Hf as <-. destruct tn as [|n' cn l x r]; [done|].
    simpl in Hn. injection Hn as ->. simpl. rsteps. done. }
  simpl deleteCase1.
  assert (Hpar : wp (load parent (Some n)) s (fun v s' => v = Some (fptr f) /\ s' = s)).
  { destruct tn as [|n' cn l x r]; [done|]. simpl in Hn. injection Hn as ->.
    destruct f; rsteps; done. }
  apply wp_bind. eapply wp_mono; [exact Hpar|]. intros v s' [-> ->]. rsimpl.
  apply wp_bind. eapply wp_mono; [by eapply deleteCase2_sim|].
  intros [] s1 [HR1 Hsc1].
  assert (Hcase : match dcases (hd f (case1 f C1)) (tl (case1 f C1)) with
                  | DStop C2 => C' = C2
                  | DUp f' => exists C1', dfix C1 = Some C1' /\ C' = f' :: C1' /\
                                case1 f C1 = f :: C1
                  | DFail => False
                  end).
  { destruct f as [p cp xp [|sp [] sl sx sr]|p cp [|sp [] sl sx sr] xp];
      cbn [dfix case1 hd tl] in Hf |- *;
      lazymatch type of Hf with
      | context [dcases ?a ?b] => destruct (dcases a b); try done
      end; try (by injection Hf as <-).
    all: destruct (dfix C1) as [C1'|]; [|done]; injection Hf as <-; by eexists. }
  assert (Hshape : case1 f C1 = hd f (case1 f C1) :: tl (case1 f C1)).
  { destruct f as [p cp xp [|sp [] sl sx sr]|p cp [|sp [] sl sx sr] xp]; done. }
  rewrite Hshape in HR1.
  eapply deleteCase3_sim; [exact HR1|exact Hn|].
  destruct (dcases (hd f (case1 f C1)) (tl (case1 f C1))) as [C2|f'|] eqn:Hdc; [| |done].
  - subst C'. intros s2 HR2 Hsc2. split; [done|]. by eapply same_cache_trans.
  - destruct Hcase as (C1' & Hd & -> & Hc1). rewrite Hc1 in Hdc |- *. cbn [hd tl] in Hdc |- *.
    apply dcases_DUp in Hdc.
    intros s2 HR2 Hsc2.
    eapply wp_mono.
    { eapply (IH C1 (fill f' tn)); [exact HR2| |exact Hd|simpl in Hfuel; lia].
      rewrite <- Hdc. by destruct f'. }
    intros [] s3 [HR3 Hsc3]. split; [exact HR3|].
    eapply same_cache_trans; [|exact Hsc3]. by eapply same_cache_trans.
Qed.

End DeleteFix.

Section Unlink.

Context {Item : Type}.
Implicit Types (t : rbt Item) (C : ctx Item) (s : state Item).

Lemma replaceNode_unlink_r s C n cn x r :
  Rep s (plug C (T n cn E x r)) ->
  wp (replaceNode (Some n) (ptr_of r)) s (fun _ s' =>
    Rep s' (plug C r) /\ same_cache s s' /\ heap s' !! n = heap s !! n).
Proof.
  intros HR.
  destruct C as [|[p cp xp sb|p cp sb xp] C];
    (destruct r as [|q cq ql xq qr]);
    rep_open HR; unfold replaceNode; mrun;
    (split; [rep_close|split; [done|]]); simpl;
    rewrite ?lookup_insert_ne by nd_atom; done.
Qed.

Lemma replaceNode_unlink_l s C n cn l x :
  Rep s (plug C (T n cn l x E)) ->
  wp (replaceNode (Some n) (ptr_of l)) s (fun _ s' =>
    Rep s' (plug C l) /\ same_cache s s' /\ heap s' !! n = heap s !! n).
Proof.
  intros HR.
  destruct C as [|[p cp xp sb|p cp sb xp] C];
    (destruct l as [|q cq ql xq qr]);
    rep_open HR; unfold replaceNode; mrun;
    (split; [rep_close|split; [done|]]); simpl;
    rewrite ?lookup_insert_ne by nd_atom; done.
Qed.

Lemma Rep_ext s s' t :
  Rep s t -> heap s' = heap s -> root (tree s') = root (tree s) -> Rep s' t.
Proof. unfold Rep. intros (? & ? & ?) -> ->. done. Qed.

Lemma minNode_loop_sim t : forall C s fuel m,
  Rep s (plug C t) -> ptr_of t = Some m -> minNode (tree s) = Some m ->
  (length (ptrs t) <= fuel)%nat ->
  wp (minNode_loop fuel) s (fun _ s' =>
    heap s' = heap s /\ root (tree s') = root (tree s) /\
    maxNode (tree s') = maxNode (tree s) /\ count (tree s') = count (tree s) /\
    minNode (tree s') = fst <$> leftmost t).
Proof.
  induction t as [|p c l IHl x r _]; intros C s fuel m HR Hm Hmin Hfuel; [done|].
  simpl in Hm. injection Hm as ->.
  rewrite length_ptrs_T in Hfuel.
  destruct fuel as [|fuel]; [lia|]. simpl minNode_loop. rsteps. rewrite Hmin. rsteps.
  destruct l as [|lp lc ll lx lr]; rsteps; [done|].
  rewrite Hmin. rsteps.
  eapply wp_mono.
  { eapply (IHl (FL m c x r :: C) _ fuel lp); [exact HR|reflexivity|reflexivity|lia]. }
  intros [] s' (? & ? & ? & ? & ?). done.
Qed.

Lemma maxNode_loop_sim t : forall C s fuel m,
  Rep s (plug C t) -> ptr_of t = Some m -> maxNode (tree s) = Some m ->
  (length (ptrs t) <= fuel)%nat ->
  wp (maxNode_loop fuel) s (fun _ s' =>
    heap s' = heap s /\ root (tree s') = root (tree s) /\
    minNode (tree s') = minNode (tree s) /\ count (tree s') = count (tree s) /\
    maxNode (tree s') = fst <$> rightmost t).
Proof.
  induction t as [|p c l _ x r IHr]; intros C s fuel m HR Hm Hmax Hfuel; [done|].
  simpl in Hm. injection Hm as ->.
  rewrite length_ptrs_T in Hfuel.
  destruct fuel as [|fuel]; [lia|]. simpl maxNode_loop. rsteps. rewrite Hmax. rsteps.
  destruct r as [|rp rc rl rx rr]; rsteps; [done|].
  rewrite Hmax. rsteps.
  eapply wp_mono.
  { eapply (IHr (FR m c l x :: C) _ fuel rp); [exact HR|reflexivity|reflexivity|lia]. }
  intros [] s' (? & ? & ? & ? & ?). done.
Qed.

Lemma refreshMinMax_sim s t :
  Rep s t ->
  wp refreshMinMax s (fun _ s' =>
    heap s' = heap s /\ root (tree s') = root (tree s) /\
    count (tree s') = count (tree s) /\
    minNode (tree s') = refreshed (count (tree s)) (minNode (tree s)) (fst <$> leftmost t) /\
    maxNode (tree s') = refreshed (count (tree s)) (maxNode (tree s)) (fst <$> rightmost t)).
Proof.
  intros HR. unfold refreshMinMax, refreshed. rsteps.
  destruct (count (tree s) >? 0); rsteps; [|done].
  pose proof (Rep_size _ _ HR) as Hsz. pose proof HR as (Hroot & _).
  eapply (wp_mono _ _ (fun _ s' =>
    heap s' = heap s /\ root (tree s') = root (tree s) /\
    count (tree s') = count (tree s) /\ maxNode (tree s') = maxNode (tree s) /\
    minNode (tree s') =
      (if is_nil (minNode (tree s)) then fst <$> leftmost t else minNode (tree s)))).
  { destruct (minNode (tree s)) as [m|] eqn:Hmin; rsteps; [done|].
    rewrite Hroot. destruct t as [|p c l x r]; rsteps; [done|].
    eapply wp_mono.
    { eapply (minNode_loop_sim _ [] _ _ p);
        [eapply Rep_ext; [exact HR|reflexivity|by rewrite Hroot]
        |reflexivity|reflexivity|simpl; lia]. }
    intros [] s' (? & ? & ? & ? & ?). simpl in *. split_and!; congruence. }
  intros [] s1 (Hh & Hr & Hc & Hmx & Hmn). rsteps.
  assert (HR1 : Rep s1 t) by (by eapply Rep_ext).
  rewrite Hmx.
  destruct (maxNode (tree s)) as [m|] eqn:Hmax; rsteps.
  { split_and!; try done; congruence. }
  rewrite Hr, Hroot. destruct t as [|p c l x r]; rsteps.
  { split_and!; try done; congruence. }
  pose proof (Rep_size _ _ HR1) as Hsz1.
  eapply wp_mono.
  { eapply (maxNode_loop_sim _ [] _ _ p);
      [eapply Rep_ext; [exact HR1|reflexivity|simpl in *; congruence]
      |reflexivity|reflexivity|simpl; lia]. }
  intros [] s' (? & ? & ? & ? & ?). simpl in *. split_and!; congruence.
Qed.

End Unlink.

Section SubContexts.

Context {Item : Type}.
Implicit Types (t : rbt Item) (C : ctx Item) (s : state Item).
Implicit Types (h : gmap positive (node Item)).

Lemma ptr_of_plug C : forall t, ptr_of (plug C t) = ctop C (ptr_of t).
Proof. induction C as [|f C IH]; intros t; [done|]. simpl. rewrite IH. by destruct f. Qed.

Lemma rep_plug_g h par0 C : forall t,
  rep h par0 (plug C t) <-> repcg h par0 C (ptr_of t) /\ rep h (cparg par0 C) t.
Proof.
  induction C as [|f C IH]; intros t; simpl.
  - tauto.
  - rewrite IH. destruct f; simpl; tauto.
Qed.

Lemma repcg_frame h h' par0 C q :
  repcg h par0 C q -> (forall a, a ∈ cptrs C -> h' !! a = h !! a) -> repcg h' par0 C q.
Proof.
  revert q. induction C as [|f C IH]; intros q; simpl; [done|].
  destruct f; unfold fptrs; simpl; intros (Hp & Hs & Hc) Hf; split_and!.
  - rewrite Hf; [done|set_solver].
  - eapply rep_frame; [done|]. intros; apply Hf; set_solver.
  - apply IH; [done|]. intros; apply Hf; set_solver.
  - rewrite Hf; [done|set_solver].
  - eapply rep_frame; [done|]. intros; apply Hf; set_solver.
  - apply IH; [done|]. intros; apply Hf; set_solver.
Qed.

Lemma max_path_spine t : forall C,
  exists Cl, (max_path C t).1 = Cl ++ C /\ Forall isFR Cl /\
    plug Cl (max_path C t).2 = t.
Proof.
  induction t as [|p c l _ x r IHr]; intros C.
  - exists []. done.
  - destruct r as [|rp rc rl rx rr].
    + exists []. done.
    + destruct (IHr (FR p c l x :: C)) as (Cl & H1 & H2 & H3).
      exists (Cl ++ [FR p c l x]).
      change (max_path C (T p c l x (T rp rc rl rx rr)))
        with (max_path (FR p c l x :: C) (T rp rc rl rx rr)).
      rewrite H1, <- app_assoc. split; [done|]. split.
      * apply Forall_app. split; [done|]. by constructor.
      * rewrite plug_app, H3. done.
Qed.

Lemma max_path_app t : forall C,
  max_path C t = ((max_path [] t).1 ++ C, (max_path [] t).2).
Proof.
  induction t as [|p c l _ x r IHr]; intros C; [done|].
  destruct r as [|rp rc rl rx rr]; [done|].
  change (max_path C (T p c l x (T rp rc rl rx rr)))
    with (max_path (FR p c l x :: C) (T rp rc rl rx rr)).
  change (max_path [] (T p c l x (T rp rc rl rx rr)))
    with (max_path [FR p c l x] (T rp rc rl rx rr)).
  rewrite (IHr (FR p c l x :: C)), (IHr [FR p c l x]). simpl.
  by rewrite <- app_assoc.
Qed.

Lemma max_path_plug_FR Cm : forall t C0,
  t <> E -> Forall isFR Cm -> max_path C0 (plug Cm t) = max_path (Cm ++ C0) t.
Proof.
  induction Cm as [|f Cm IH]; intros t C0 Ht HF; [done|].
  apply Forall_cons in HF as [Hf HF]. destruct f as [|p c l x]; [done|].
  simpl plug. rewrite IH by done. destruct t; done.
Qed.

Lemma plug_ne_E C p c (l : rbt Item) x r : plug C (T p c l x r) <> E.
Proof.
  revert p c l x r. induction C as [|f C IH]; intros p c l x r; [done|].
  destruct f; simpl; apply IH.
Qed.

Lemma max_path_T_r C p c (l : rbt Item) x r :
  r <> E -> max_path C (T p c l x r) = max_path (FR p c l x :: C) r.
Proof. destruct r; done. Qed.

End SubContexts.

Ltac repcg_fr :=
  eapply repcg_frame; [eassumption|];
  let a := fresh "a" in let Ha := fresh "Ha" in
  intros a Ha; simpl heap;
  repeat (rewrite lookup_insert_ne by (intros ->; contradiction)); reflexivity.

Ltac rep_close_g :=
  first [apply Rep_plug | unfold Rep];
  cbn [repc rep plug fill cpar fptr ptr_of root tree heap]; split_and!;
  try (apply rep_plug_g; cbn [rep]; split_and!);
  rewrite ?ptr_of_plug; cbn [ptr_of];
  first [ lk | rep_fr | repcg_fr | nd_goal | reflexivity ].

Section Swap.

Context {Item : Type}.
Implicit Types (t : rbt Item) (C : ctx Item) (s : state Item).

Lemma wp_maxPredecessor C n cn l x r s pr (Q : ptr -> state Item -> Prop) :
  Rep s (plug C (T n cn l x r)) -> l <> E ->
  focus_ptr (Some (max_path (FL n cn x r :: C) l)) = Some pr ->
  Q (Some pr) s ->
  wp (maxPredecessor (Some n)) s Q.
Proof.
  intros HR Hl Hp HQ. eapply wp_mono; [by eapply maxPredecessor_sim|].
  intros q s' [-> ->]. by rewrite Hp.
Qed.

(** The predecessor is the left child of [n]. *)
Lemma swap_adjacent s C n c x pr cpr prl px rp rc rl rx rr :
  let r := T rp rc rl rx rr in
  Rep s (plug C (T n c (T pr cpr prl px E) x r)) ->
  wp (swapWithPredecessor (Some n)) s (fun _ s' =>
    Rep s' (plug C (T pr c (T n cpr prl px E) px r)) /\ same_cache s s').
Proof.
  intros r HR. subst r. unfold swapWithPredecessor.
  apply wp_bind. eapply wp_maxPredecessor; [exact HR|done|reflexivity|].
  destruct C as [|[p cp xp sb|p cp sb xp] C]; destruct prl as [|lp lc ll lx lr];
    rep_open HR; unfold replaceNode; mrun.
  all: mfin.
Qed.

(** The predecessor is the right child of the left child of [n]. *)
Lemma swap_near s C n c x l0 c0 a x0 pr cpr prl px rp rc rl rx rr :
  let r := T rp rc rl rx rr in
  Rep s (plug C (T n c (T l0 c0 a x0 (T pr cpr prl px E)) x r)) ->
  wp (swapWithPredecessor (Some n)) s (fun _ s' =>
    Rep s' (plug C (T pr c (T l0 c0 a x0 (T n cpr prl px E)) px r)) /\ same_cache s s').
Proof.
  intros r HR. subst r. unfold swapWithPredecessor.
  apply wp_bind. eapply wp_maxPredecessor; [exact HR|done|reflexivity|].
  destruct C as [|[p cp xp sb|p cp sb xp] C]; destruct prl as [|lp lc ll lx lr];
    rep_open HR; unfold replaceNode; mrun; mfin.
Qed.

(** The predecessor is deeper in the left subtree of [n]: [q] is its
    parent, and [Cm] the path from [q] up to the left child [l0] of [n]. *)
Lemma swap_far s C n c x l0 c0 a x0 Cm q cq ql xq pr cpr prl px rp rc rl rx rr :
  let r := T rp rc rl rx rr in
  Forall isFR Cm ->
  Rep s (plug C (T n c (T l0 c0 a x0
           (plug Cm (T q cq ql xq (T pr cpr prl px E)))) x r)) ->
  wp (swapWithPredecessor (Some n)) s (fun _ s' =>
    Rep s' (plug C (T pr c (T l0 c0 a x0
           (plug Cm (T q cq ql xq (T n cpr prl px E)))) px r)) /\ same_cache s s').
Proof.
  intros r HF HR. subst r. unfold swapWithPredecessor.
  apply wp_bind. eapply wp_maxPredecessor; [exact HR|done| |].
  { rewrite max_path_T_r by apply plug_ne_E.
    rewrite max_path_plug_FR by done. reflexivity. }
  destruct C as [|[p cp xp sb|p cp sb xp] C]; destruct prl as [|lp lc ll lx lr];
    rep_open HR;
    match goal with
    | H : rep _ _ (plug Cm _) |- _ =>
        apply rep_plug_g in H; cbn [rep ptr_of] in H; destruct_and?
    end;
    rewrite ?ptr_of_plug in *; cbn [ptr_of] in *; nd_break;
    unfold replaceNode; mrun.
  all: split; [rep_close_g|done].
Qed.

End Swap.

Section DeleteSim.

Context {Item : Type}.
Implicit Types (t : rbt Item) (C : ctx Item) (s : state Item).

Lemma swap_sim s C n c x r Cl pr cpr prl px :
  r <> E -> Forall isFR Cl ->
  Rep s (plug C (T n c (plug Cl (T pr cpr prl px E)) x r)) ->
  wp (swapWithPredecessor (Some n)) s (fun _ s' =>
    Rep s' (plug (Cl ++ FL pr c px r :: C) (T n cpr prl px E)) /\ same_cache s s').
Proof.
  intros Hr HF HR. destruct r as [|rp rc rl rx rr]; [done|].
  rewrite plug_app. cbn [plug fill].
  destruct Cl as [|f Cl1].
  { by eapply swap_adjacent. }
  apply Forall_cons in HF as [Hf HF]. destruct f as [|q cq ql xq]; [done|].
  destruct (decide (Cl1 = [])) as [->|Hne].
  { by eapply swap_near. }
  destruct (exists_last Hne) as (Cm & g & ->).
  apply Forall_app in HF as [HF Hg]. apply Forall_cons in Hg as [Hg _].
  destruct g as [|l0 c0 a x0]; [done|].
  cbn [plug fill] in HR |- *. rewrite plug_app in HR |- *. cbn [plug fill] in HR |- *.
  by eapply swap_far.
Qed.

Lemma wp_clear (b : bool) (m : M Item unit) s s1 (Q : unit -> state Item -> Prop) :
  (if b then m s = Ok tt s1 else s1 = s) ->
  Q tt s1 -> wp (if b then m else ret tt) s Q.
Proof. destruct b; [intros H|intros ->]; unfold wp; [rewrite H|]; done. Qed.

Lemma clearMinMax_sim s n :
  wp (clearMinMax (Some n)) s (fun _ s' =>
    heap s' = heap s /\ root (tree s') = root (tree s) /\
    count (tree s') = count (tree s) - 1 /\
    minNode (tree s') =
      (if ptr_eqb (minNode (tree s)) (Some n) then None else minNode (tree s)) /\
    maxNode (tree s') =
      (if ptr_eqb (maxNode (tree s)) (Some n) then None else maxNode (tree s))).
Proof.
  unfold clearMinMax. rsteps.
  destruct (ptr_eqb (minNode (tree s)) (Some n)); rsteps;
    destruct (ptr_eqb (maxNode (tree s)) (Some n)); rsteps; done.
Qed.

Lemma wp_bind_assoc {A B D} (m : M Item A) (k : A -> M Item B) (k' : B -> M Item D) s Q :
  wp (bind (bind m k) k') s Q -> wp (bind m (fun a => bind (k a) k')) s Q.
Proof. unfold wp, bind. destruct (m s); done. Qed.

Lemma unlink_fix_sim s C2 n cn l2 x2 r2 C3 :
  Rep s (plug C2 (T n cn l2 x2 r2)) ->
  (if is_black cn then dfix C2 else Some C2) = Some C3 ->
  wp (nc <- load color (Some n) ;;
      (if is_black nc then
         cc <- getColor (ptr_of (child_of l2 r2)) ;;
         set_color (Some n) cc ;;;
         fuel <- loop_fuel ;;
         deleteCase1 fuel (Some n)
       else ret tt)) s (fun _ s' =>
    exists cn', Rep s' (plug C3 (T n cn' l2 x2 r2)) /\ same_cache s s').
Proof.
  intros HR HC3. rsteps. destruct cn; rsteps.
  - injection HC3 as <-. by eexists.
  - assert (Hcc : wp (getColor (ptr_of (child_of l2 r2))) s (fun c s' => s' = s)).
    { unfold child_of. destruct r2 as [|? ? ? ? ?]; [destruct l2 as [|? ? ? ? ?]|];
        rsteps; done. }
    eapply wp_mono; [exact Hcc|]. intros cc s' ->. rsteps.
    lazymatch goal with H : Rep _ _ |- _ => rename H into HRc end.
    pose proof (Rep_size_plug _ _ _ HRc) as Hsz. rewrite length_ptrs_T in Hsz.
    eapply wp_mono.
    { eapply (deleteCase1_sim _ C2 (T n cc l2 x2 r2)); [exact HRc|reflexivity|exact HC3|lia]. }
    intros [] s2 [HR2 Hsc2]. eexists. split; [exact HR2|]. by eapply same_cache_trans.
Qed.

Lemma unlinkNode_sim s C2 n cn l2 x2 r2 C3 :
  Rep s (plug C2 (T n cn l2 x2 r2)) -> l2 = E \/ r2 = E ->
  (if is_black cn then dfix C2 else Some C2) = Some C3 ->
  wp (unlinkNode (Some n)) s (fun _ s' =>
    Rep s' (match C3 with
            | [] => blacken (child_of l2 r2)
            | _ => plug C3 (child_of l2 r2)
            end) /\ same_cache s s').
Proof.
  intros HR Hshape HC3. unfold unlinkNode. rsteps.
  assert (Hassert : is_nil (ptr_of l2) || is_nil (ptr_of r2) = true).
  { destruct Hshape as [-> | ->]; [done|]. by destruct l2. }
  rewrite Hassert. rsteps.
  assert (Hchild : wp (if is_nil (ptr_of r2) then load left (Some n) else ret (ptr_of r2)) s
            (fun v s' => v = ptr_of (child_of l2 r2) /\ s' = s)).
  { unfold child_of. destruct r2 as [|? ? ? ? ?]; rsteps; done. }
  eapply wp_mono; [exact Hchild|]. intros v s' [-> ->].
  apply wp_bind_assoc.
  apply wp_bind. eapply wp_mono; [by eapply unlink_fix_sim|].
  intros [] s1 (cn' & HR1 & Hsc1). cbv beta.
  pose proof (Rep_lookup _ _ _ _ _ _ _ HR1) as Hn1.
  assert (Hrep : wp (replaceNode (Some n) (ptr_of (child_of l2 r2))) s1 (fun _ s' =>
     Rep s' (plug C3 (child_of l2 r2)) /\ same_cache s1 s' /\ heap s' !! n = heap s1 !! n)).
  { unfold child_of. destruct Hshape as [-> | ->].
    - replace (match r2 with E => E | _ => r2 end) with r2 by (by destruct r2).
      by eapply replaceNode_unlink_r.
    - by eapply replaceNode_unlink_l. }
  apply wp_bind. eapply wp_mono; [exact Hrep|].
  intros [] s2 (HR2 & Hsc2 & Hn2). cbv beta.
  apply wp_bind. eapply wp_load; [rewrite Hn2; exact Hn1|]. rsimpl.
  destruct C3 as [|f C3]; rsimpl.
  - destruct (child_of l2 r2) as [|q cq ql xq qr]; rsteps; (split; [done|sc_merge; done]).
  - rsteps. split; [done|sc_merge; done].
Qed.

Lemma delete_tail_sim s C2 n cn l2 x2 r2 t' mn mx cnt :
  Rep s (plug C2 (T n cn l2 x2 r2)) -> l2 = E \/ r2 = E ->
  match (if is_black cn then dfix C2 else Some C2) with
  | Some [] => Some (blacken (child_of l2 r2))
  | Some C3 => Some (plug C3 (child_of l2 r2))
  | None => None
  end = Some t' ->
  minNode (tree s) = mn -> maxNode (tree s) = mx -> count (tree s) = cnt ->
  wp (unlinkNode (Some n)) s (fun _ s1 => wp refreshMinMax s1 (fun _ s' =>
    Rep s' t' /\ count (tree s') = cnt /\
    minNode (tree s') = refreshed cnt mn (fst <$> leftmost t') /\
    maxNode (tree s') = refreshed cnt mx (fst <$> rightmost t'))).
Proof.
  intros HR Hshape Ht' Hmn Hmx Hcnt.
  destruct (if is_black cn then dfix C2 else Some C2) as [C3|] eqn:HC3; [|done].
  eapply wp_mono; [by eapply unlinkNode_sim|].
  intros [] s1 (HR1 & Hmn1 & Hmx1 & Hc1).
  assert (HR1' : Rep s1 t').
  { destruct C3; injection Ht' as <-; exact HR1. }
  eapply wp_mono; [by eapply refreshMinMax_sim|].
  intros [] s2 (Hh & Hr & Hc & Hmn2 & Hmx2).
  split; [by eapply Rep_ext|]. subst. rewrite Hc, Hmn2, Hmx2, Hc1, Hmn1, Hmx1. done.
Qed.

Lemma doDelete_sim s C n c l x r t' :
  Rep s (plug C (T n c l x r)) ->
  delete_abs C (T n c l x r) = Some t' ->
  wp (doDelete (Some n)) s (fun _ s' =>
    Rep s' t' /\ count (tree s') = count (tree s) - 1 /\
    minNode (tree s') =
      refreshed (count (tree s) - 1)
        (if ptr_eqb (minNode (tree s)) (Some n) then None else minNode (tree s))
        (fst <$> leftmost t') /\
    maxNode (tree s') =
      refreshed (count (tree s) - 1)
        (if ptr_eqb (maxNode (tree s)) (Some n) then None else maxNode (tree s))
        (fst <$> rightmost t')).
Proof.
  intros HR Hdel. unfold doDelete.
  apply wp_bind. eapply wp_mono; [apply clearMinMax_sim|].
  intros [] s1 (Hh & Hr & Hc & Hmn & Hmx).
  assert (HR1 : Rep s1 (plug C (T n c l x r))) by (by eapply Rep_ext).
  clear HR. rsteps.
  unfold delete_abs in Hdel.
  destruct l as [|lp lc ll lx lr]; [|destruct r as [|rp rc rl rx rr]]; rsteps.
  - eapply delete_tail_sim; [exact HR1|by left|exact Hdel|done..].
  - eapply delete_tail_sim; [exact HR1|by right|exact Hdel|done..].
  - unfold swap_abs in Hdel.
    destruct (max_path_spine (T lp lc ll lx lr) []) as (Cl & H1 & HF & Hpl).
    destruct (max_path_node (T lp lc ll lx lr) []) as (pr & cpr & prl & px & Hnode); [done|].
    destruct (max_path [] (T lp lc ll lx lr)) as [Cl' tp]. simpl in H1, Hpl, Hnode.
    rewrite app_nil_r in H1. subst Cl' tp.
    rewrite <- Hpl in HR1.
    eapply wp_mono;
      [eapply (swap_sim s1 C n c x (T rp rc rl rx rr) Cl pr cpr prl px);
         [discriminate|exact HF|exact HR1]|].
    intros [] s2 (HR2 & Hmn2 & Hmx2 & Hc2). apply wp_bind.
    eapply delete_tail_sim; [exact HR2|by right|exact Hdel|congruence..].
Qed.

End DeleteSim.

Section Invariants.

Context {Item : Type}.
Implicit Types (t : rbt Item) (C : ctx Item).

Lemma bal_plug C : forall t, bal (plug C t) <-> bal t /\ cbal C (bh t).
Proof.
  induction C as [|f C IH]; intros t; simpl; [tauto|].
  rewrite IH. destruct f; simpl; [intuition congruence|].
  split.
  - intros ((Hb & ? & ?) & Hc). rewrite Hb in Hc. tauto.
  - intros (? & ? & Hb & Hc). rewrite Hb. tauto.
Qed.

Lemma R3_plug C : forall t, R3 (plug C t) <-> R3 t /\ cnrr C (root_color t).
Proof.
  induction C as [|f C IH]; intros t; simpl; [tauto|].
  rewrite IH. destruct f; simpl; tauto.
Qed.

Lemma root_color_plug C : forall t, root_color (plug C t) = croot C (root_color t).
Proof. induction C as [|f C IH]; intros t; simpl; [done|]. rewrite IH. by destruct f. Qed.

Lemma nodes_plug C : forall t, nodes (plug C t) = cleft C ++ nodes t ++ cright C.
Proof.
  induction C as [|f C IH]; intros t; simpl.
  - by rewrite app_nil_r.
  - rewrite IH. destruct f; simpl; rewrite <- ?app_assoc; simpl; done.
Qed.

Lemma cnrr_weaken C c : cnrr C red -> cnrr C c.
Proof. destruct C as [|f C]; simpl; [done|]. intros (? & H & ?). split_and!; try done.
  intros Hr. destruct (H Hr) as [? _]. done. Qed.

Lemma cnrr_black C c : cnrr C c -> cnrr C black.
Proof. destruct C as [|f C]; simpl; [done|]. intros (? & H & ?). split_and!; try done.
  intros Hr. destruct (H Hr) as [_ ?]. done. Qed.

Lemma croot_cons f C c c' : croot (f :: C) c = croot (f :: C) c'.
Proof. done. Qed.

(** The loop of [Insert] restores R2, R3 and R4 and keeps the nodes in
    order. *)
Lemma ifix_ok_aux C :
  (forall n l x r,
     R3 l -> R3 r -> root_color l = black -> root_color r = black ->
     bal (T n red l x r) -> cbal C (bh (T n red l x r)) -> cnrr C black ->
     croot C black = black ->
     exists t', ifix C (T n red l x r) = Some t' /\
       R2 t' /\ R3 t' /\ bal t' /\ nodes t' = nodes (plug C (T n red l x r))) /\
  (forall f n l x r,
     R3 l -> R3 r -> root_color l = black -> root_color r = black ->
     bal (T n red l x r) -> cbal (f :: C) (bh (T n red l x r)) -> cnrr (f :: C) black ->
     croot (f :: C) black = black ->
     exists t', ifix (f :: C) (T n red l x r) = Some t' /\
       R2 t' /\ R3 t' /\ bal t' /\ nodes t' = nodes (plug (f :: C) (T n red l x r))).
Proof.
  induction C as [|g C2 [IH0 IH1]].
  - split.
    + intros n l x r Hl Hr Hcl Hcr Hb _ _ _. eexists. split; [reflexivity|].
      simpl in *. unfold R2. simpl. intuition congruence.
    + intros f n l x r Hl Hr Hcl Hcr Hb Hcb Hcn Hroot.
      simpl in Hroot. cbn [ifix]. rewrite Hroot. cbn [is_black].
      eexists. split; [reflexivity|].
      unfold R2. rewrite root_color_plug, R3_plug, bal_plug. simpl in *.
      destruct f; simpl in *; subst; intuition congruence.
  - split; [apply (IH1 g)|].
    intros f n l x r Hl Hr Hcl Hcr Hb Hcb Hcn Hroot.
    cbn [ifix]. destruct (fcolor f) eqn:Hfc; cbn [is_black].
    2:{ eexists. split; [reflexivity|].
        unfold R2. rewrite root_color_plug, R3_plug, bal_plug. simpl in *.
        rewrite Hfc in *.
        destruct f; simpl in *; subst; intuition congruence. }
    destruct g as [gp gc gx u|gp gc u gx]; destruct f as [p pc xp pr|p pc pl xp];
      simpl in Hfc; subst pc; cbn [fsib].
    all: destruct u as [|up [] ul ux ur].
    all: simpl in Hcb, Hcn, Hroot, Hb; unfold bw in *; simpl in Hcb, Hb;
      rewrite ?Nat.add_0_r in *; destruct_and?.
    all: try match goal with H : red = red -> _ |- _ => destruct (H eq_refl); clear H end.
    all: try match goal with H : ?c = red -> red = black /\ _ |- _ =>
           assert (c = black)
             by (destruct c; [exfalso; destruct (H eq_refl); discriminate|done]);
           subst c; clear H end.
    all: try discriminate.
    all: cbn [bw is_black] in *; rewrite ?Nat.add_0_r in *.
    all: try (eexists; split; [reflexivity|];
      unfold R2; rewrite root_color_plug, R3_plug, bal_plug, !nodes_plug;
      simpl; unfold bw; simpl; rewrite ?Nat.add_0_r;
      split_and!; try done; try congruence; try lia;
      try (match goal with H : cbal ?C ?a |- cbal ?C ?b =>
             replace b with a by lia; exact H end);
      try (repeat (rewrite <- ?app_assoc; simpl); reflexivity)).
    all: try match goal with
      | |- exists t', ifix _ (T ?a red ?b ?c ?d) = _ /\ _ =>
          destruct (IH0 a b c d) as (t' & Hfix & ? & ? & ? & Hn);
            [simpl; try done..|
             exists t'; split_and!; try done; rewrite Hn, !nodes_plug;
             repeat (rewrite <- ?app_assoc; simpl); reflexivity]
      end.
    all: unfold bw; simpl; split_and?; try done; try congruence; try lia.
    all: match goal with H : cbal ?C ?a |- cbal ?C ?b =>
             replace b with a by lia; exact H end.
Qed.

Lemma ifix_ok C n l x r :
  R3 l -> R3 r -> root_color l = black -> root_color r = black ->
  bal (T n red l x r) -> cbal C (bh (T n red l x r)) -> cnrr C black ->
  croot C black = black ->
  exists t', ifix C (T n red l x r) = Some t' /\
    R2 t' /\ R3 t' /\ bal t' /\ nodes t' = nodes (plug C (T n red l x r)).
Proof. apply ifix_ok_aux. Qed.

Lemma croot_black C c : croot C c = black -> croot C black = black.
Proof. by destruct C. Qed.

Lemma bh_0_black t : bh t = 0%nat -> root_color t = black -> t = E.
Proof. destruct t as [|p [] l x r]; simpl; unfold bw; simpl; [done|done|lia]. Qed.

Ltac cbal_arith :=
  match goal with H : cbal ?C ?a |- cbal ?C ?b =>
    replace b with a by lia; exact H end.

Ltac inv_tidy :=
  repeat match goal with
  | H : red = red -> _ |- _ => destruct (H eq_refl); clear H
  | H : black = red -> _ |- _ => clear H
  | H : _ /\ _ |- _ => destruct H
  end.

(** Cases 3 to 6 of the deletion fixup, below a black sibling. *)
Lemma dcases_ok f C1 k :
  cbal (f :: C1) (S k) -> cnrr (f :: C1) black -> root_color (fsib f) = black ->
  match dcases f C1 with
  | DStop C' =>
      cbal C' k /\ cnrr C' red /\
      (croot (f :: C1) black = black -> croot C' black = black) /\
      cleft C' = cleft (f :: C1) /\ cright C' = cright (f :: C1)
  | DUp f' =>
      fcolor f = black /\ fcolor f' = black /\
      bal (fsib f') /\ bh (fsib f') = k /\ R3 (fsib f') /\
      forall C, cleft (f' :: C) = cleft (f :: C) /\ cright (f' :: C) = cright (f :: C)
  | DFail => False
  end.
Proof.
  intros Hb Hn Hs.
  destruct f as [p cp xp [|sp sc sl sx sr]|p cp [|sp sc sl sx sr] xp];
    simpl in Hb, Hn, Hs; destruct_and?; try discriminate; subst sc.
  all: unfold dcases.
  all: destruct sl as [|slp [] sll slx slr]; destruct sr as [|srp [] srl srx srr];
    cbn [root_color is_black is_red andb]; destruct cp; cbn -[cbal cnrr croot cleft cright].
  all: simpl in *; unfold bw in *; simpl in *; rewrite ?Nat.add_0_r in *; inv_tidy.
  all: try lia.
  all: split_and?; try done; try congruence; try lia; try cbal_arith;
    eauto using cnrr_black, croot_black.
  all: try (intros; split; rewrite <- ?app_assoc; simpl; rewrite <- ?app_assoc; done).
  all: try (rewrite <- ?app_assoc; simpl; rewrite <- ?app_assoc; simpl; rewrite <- ?app_assoc; done).
Qed.

(** [deleteCase1] repairs a path whose hole has lost one black node. *)
Lemma dfix_ok C : forall k,
  cbal C (S k) -> cnrr C black -> croot C black = black ->
  exists C', dfix C = Some C' /\ cbal C' k /\ cnrr C' red /\
    croot C' black = black /\ cleft C' = cleft C /\ cright C' = cright C.
Proof.
  induction C as [|f C1 IH]; intros k Hb Hn Hr.
  - exists []. simpl. done.
  - destruct (decide (root_color (fsib f) = black)) as [Hs|Hs].
    + pose proof (dcases_ok f C1 k Hb Hn Hs) as Hd.
      assert (dfix (f :: C1) = match dcases f C1 with
                | DStop C' => Some C'
                | DUp f' => match dfix C1 with Some C1' => Some (f' :: C1') | None => None end
                | DFail => None end) as ->.
      { destruct f as [p cp xp [|sp [] sl sx sr]|p cp [|sp [] sl sx sr] xp];
          try done; simpl in Hs; done. }
      destruct (dcases f C1) as [C'|f'|]; [| |done].
      * exists C'. destruct_and?. split_and!; auto.
      * destruct Hd as (Hf & Hf' & Hbs & Hhs & Hrs & Hlr).
        simpl in Hb, Hn, Hr. destruct_and?. rewrite Hf in *.
        unfold bw in *; cbn [is_black] in *.
        destruct (IH (S k)) as (C1' & -> & ? & ? & ? & ? & ?); [cbal_arith|done|done|].
        exists (f' :: C1'). split; [done|].
        assert (cleft (f' :: C1') = cleft (f :: C1) /\ cright (f' :: C1') = cright (f :: C1))
          as [Hcl Hcr].
        { destruct (Hlr C1') as [-> ->]. destruct f; simpl; split; congruence. }
        split_and!; try done; simpl; rewrite ?Hf'; unfold bw; simpl;
          split_and?; try done; try cbal_arith; eauto using cnrr_black.
    + destruct f as [p cp xp [|sp [] sl sx sr]|p cp [|sp [] sl sx sr] xp];
        simpl in Hs; try done.
      * simpl in Hb, Hn, Hr. destruct_and?.
        assert (cp = black) as -> by (destruct cp; [inv_tidy; done|done]).
        pose proof (dcases_ok (FL p red xp sl) (FL sp black sx sr :: C1) k) as Hd.
        cbn [dfix]. destruct (dcases _ _) as [C'|f'|].
        -- exists C'. simpl in *. unfold bw in *. simpl in *. rewrite ?Nat.add_0_r in *.
           inv_tidy. destruct Hd as (? & ? & ? & ? & ?); try done.
           { split_and!; try done; try lia; cbal_arith. }
           split_and!; try done; eauto.
           rewrite <- ?app_assoc. done.
        -- exfalso. simpl in *. unfold bw in *. simpl in *. rewrite ?Nat.add_0_r in *.
           inv_tidy. destruct Hd as (? & _); try done.
           split_and!; try done; try lia; cbal_arith.
        -- exfalso. simpl in *. unfold bw in *. simpl in *. rewrite ?Nat.add_0_r in *.
           inv_tidy. apply Hd; try done.
           split_and!; try done; try lia; cbal_arith.
      * simpl in Hb, Hn, Hr. destruct_and?.
        assert (cp = black) as -> by (destruct cp; [inv_tidy; done|done]).
        pose proof (dcases_ok (FR p red sr xp) (FR sp black sl sx :: C1) k) as Hd.
        cbn [dfix]. destruct (dcases _ _) as [C'|f'|].
        -- exists C'. simpl in *. unfold bw in *. simpl in *. rewrite ?Nat.add_0_r in *.
           inv_tidy. destruct Hd as (? & ? & ? & ? & ?); try done.
           { split_and!; try done; try lia; cbal_arith. }
           split_and!; try done; eauto.
           etrans; [eassumption|]. repeat (rewrite <- ?app_assoc; simpl). done.
        -- exfalso. simpl in *. unfold bw in *. simpl in *. rewrite ?Nat.add_0_r in *.
           inv_tidy. destruct Hd as (? & _); try done.
           split_and!; try done; try lia; cbal_arith.
        -- exfalso. simpl in *. unfold bw in *. simpl in *. rewrite ?Nat.add_0_r in *.
           inv_tidy. apply Hd; try done.
           split_and!; try done; try lia; cbal_arith.
Qed.

(** R4 as stated on paths is the structural balance [bal]. *)
Lemma elem_of_map {A B} (f : A -> B) (l : list A) y :
  y ∈ map f l <-> exists x, y = f x /\ x ∈ l.
Proof.
  rewrite list_elem_of_In, in_map_iff. split; intros (x & ? & ?); exists x.
  - by rewrite list_elem_of_In.
  - by rewrite <- list_elem_of_In.
Qed.

Lemma bh_path_blacks t : bh t ∈ path_blacks t.
Proof.
  induction t as [|p c l IHl x r IHr]; simpl; [set_solver|].
  rewrite Nat.add_comm. apply elem_of_map. exists (bh l). split; [done|].
  apply elem_of_app. by left.
Qed.

Lemma bal_path_blacks t : bal t -> forall a, a ∈ path_blacks t -> a = bh t.
Proof.
  induction t as [|p c l IHl x r IHr]; simpl.
  - intros _ a Ha. apply list_elem_of_singleton in Ha. done.
  - intros (Hh & Hl & Hr) a Ha.
    apply elem_of_map in Ha as (b & -> & Hb).
    apply elem_of_app in Hb as [Hb|Hb].
    + rewrite (IHl Hl b Hb). lia.
    + rewrite (IHr Hr b Hb). lia.
Qed.

Lemma bal_subtrees t : bal t -> forall u, u ∈ subtrees t -> bal u.
Proof.
  induction t as [|p c l IHl x r IHr]; simpl; intros Hb u Hu.
  - by apply elem_of_nil in Hu.
  - destruct Hb as (Hh & Hl & Hr).
    apply elem_of_cons in Hu as [->|Hu]; [done|].
    apply elem_of_app in Hu as [Hu|Hu]; eauto.
Qed.

Lemma bal_R4 t : bal t -> R4 t.
Proof.
  intros Hb u Hu a b Ha Hb'.
  pose proof (bal_subtrees t Hb u Hu) as Hbu.
  rewrite (bal_path_blacks u Hbu a Ha), (bal_path_blacks u Hbu b Hb'). done.
Qed.

Lemma R4_bal t : R4 t -> bal t.
Proof.
  induction t as [|p c l IHl x r IHr]; [done|].
  intros H4. simpl. split_and!.
  - assert ((bw c + bh l)%nat = (bw c + bh r)%nat); [|lia].
    apply (H4 (T p c l x r)); [simpl; set_solver| |]; simpl;
      apply elem_of_map; eexists; (split; [reflexivity|]);
      apply elem_of_app; [left|right]; apply bh_path_blacks.
  - apply IHl. intros u Hu. apply H4. simpl. set_solver.
  - apply IHr. intros u Hu. apply H4. simpl. set_solver.
Qed.

End Invariants.

Section DeleteInv.

Context {Item : Type}.
Implicit Types (t : rbt Item) (C : ctx Item).

Lemma cleft_app C1 : forall C2, cleft (C1 ++ C2) = cleft C2 ++ cleft C1.
Proof.
  induction C1 as [|f C1 IH]; intros C2; simpl; [by rewrite app_nil_r|].
  destruct f; rewrite IH; [done|]. by rewrite <- app_assoc.
Qed.

Lemma cright_app C1 : forall C2, cright (C1 ++ C2) = cright C1 ++ cright C2.
Proof.
  induction C1 as [|f C1 IH]; intros C2; simpl; [done|].
  destruct f; rewrite IH; simpl; rewrite <- ?app_assoc; done.
Qed.

Lemma cright_FR C : Forall isFR C -> cright C = [].
Proof. induction 1 as [|f C Hf _ IH]; [done|]. by destruct f. Qed.

Lemma bh_plug C : forall t1 t2, bh t1 = bh t2 -> bh (plug C t1) = bh (plug C t2).
Proof.
  induction C as [|f C IH]; intros t1 t2 H; simpl; [done|].
  apply IH. destruct f; simpl; congruence.
Qed.

Lemma R3_blacken t : R3 t -> R3 (blacken t).
Proof. destruct t; simpl; [done|]. intros (_ & ? & ?). done. Qed.

Lemma bal_blacken t : bal t -> bal (blacken t).
Proof. by destruct t. Qed.

Lemma nodes_blacken t : nodes (blacken t) = nodes t.
Proof. by destruct t. Qed.

Lemma croot_ne C c c' : C <> [] -> croot C c = croot C c'.
Proof. by destruct C. Qed.

(** Unlinking a node that has at most one child, with the fixup before
    it when the node is black. *)
Lemma delete_at_ok C2 n cn l2 x2 r2 :
  l2 = E \/ r2 = E ->
  R2 (plug C2 (T n cn l2 x2 r2)) -> R3 (plug C2 (T n cn l2 x2 r2)) ->
  bal (plug C2 (T n cn l2 x2 r2)) ->
  exists t',
    match (if is_black cn then dfix C2 else Some C2) with
    | Some [] => Some (blacken (match r2 with E => l2 | _ => r2 end))
    | Some C3 => Some (plug C3 (match r2 with E => l2 | _ => r2 end))
    | None => None
    end = Some t' /\
    R2 t' /\ R3 t' /\ bal t' /\
    nodes t' = cleft C2 ++ nodes l2 ++ nodes r2 ++ cright C2.
Proof.
  intros Hone. unfold R2. rewrite root_color_plug, R3_plug, bal_plug.
  cbn [root_color]. intros Hroot (HR3 & Hnrr) (Hbal & Hcb).
  simpl in HR3, Hbal. destruct HR3 as (Hred & HRl & HRr). destruct Hbal as (Hh & Hbl & Hbr).
  set (child := match r2 with E => l2 | _ => r2 end).
  assert (bh l2 = 0%nat /\ bh r2 = 0%nat) as [Hl0 Hr0].
  { destruct Hone as [-> | ->]; simpl in *; lia. }
  assert (bh child = 0%nat /\ R3 child /\ bal child /\
          nodes child = nodes l2 ++ nodes r2) as (Hc0 & HRc & Hbc & Hnc).
  { subst child. destruct Hone as [Hx|Hx]; [subst l2; destruct r2|subst r2];
      simpl in *; rewrite ?app_nil_r; done. }
  destruct cn; cbn [is_black].
  - destruct (Hred eq_refl) as [Hcl Hcr].
    assert (child = E) as Hce.
    { subst child. rewrite (bh_0_black l2), (bh_0_black r2) by done. done. }
    rewrite Hce in *. simpl in Hnc. symmetry in Hnc. apply app_eq_nil in Hnc as [-> ->].
    destruct C2 as [|f C2]; [done|].
    eexists. split; [reflexivity|].
    unfold R2. rewrite root_color_plug, R3_plug, bal_plug, nodes_plug.
    split_and!; try done.
    + eauto using cnrr_black.
    + simpl in Hcb |- *. unfold bw in *. simpl in *. rewrite Hl0 in *. done.
  - destruct (dfix_ok C2 0) as (C3 & -> & Hb3 & Hn3 & Hr3 & Hl3 & Hrt3).
    { simpl in Hcb. unfold bw in Hcb. simpl in Hcb. rewrite Hl0 in Hcb. done. }
    { done. } { done. }
    rewrite <- Hl3, <- Hrt3.
    destruct C3 as [|f C3].
    + eexists. split; [reflexivity|].
      rewrite nodes_blacken. unfold R2. split_and!.
      * by destruct child.
      * by apply R3_blacken.
      * by apply bal_blacken.
      * simpl. rewrite Hnc, app_nil_r. done.
    + eexists. split; [reflexivity|].
      unfold R2. rewrite root_color_plug, R3_plug, bal_plug, nodes_plug.
      split_and!; try done.
      * eauto using cnrr_weaken.
      * by rewrite Hc0.
      * rewrite Hnc. by rewrite <- app_assoc.
Qed.

(** The exchange with the predecessor keeps the shape and the colors. *)
Lemma swap_inv C Cl n c x r pr cpr prl px prr :
  let t := plug C (T n c (plug Cl (T pr cpr prl px prr)) x r) in
  let t2 := plug (Cl ++ FL pr c px r :: C) (T n cpr prl px prr) in
  (R2 t -> R2 t2) /\ (R3 t -> R3 t2) /\ (bal t -> bal t2).
Proof.
  intros t t2. subst t t2. rewrite plug_app. simpl.
  unfold R2. rewrite !root_color_plug, !R3_plug, !bal_plug. simpl.
  rewrite !root_color_plug, !R3_plug, !bal_plug. simpl.
  rewrite (bh_plug Cl (T n cpr prl px prr) (T pr cpr prl px prr)) by done.
  tauto.
Qed.

(** [doDelete] keeps R2, R3 and R4 and removes exactly the node. *)
Lemma delete_abs_ok C n c l x r :
  R2 (plug C (T n c l x r)) -> R3 (plug C (T n c l x r)) ->
  bal (plug C (T n c l x r)) ->
  exists t', delete_abs C (T n c l x r) = Some t' /\
    R2 t' /\ R3 t' /\ bal t' /\
    nodes t' = cleft C ++ nodes l ++ nodes r ++ cright C.
Proof.
  intros H2 H3 H4.
  assert ((l = E \/ r = E) \/ (l <> E /\ r <> E)) as [Hone|Hboth].
  { destruct l, r; auto; right; done. }
  - destruct (delete_at_ok C n c l x r Hone H2 H3 H4) as (t' & Ht' & ?).
    exists t'. split; [|done].
    unfold delete_abs. rewrite <- Ht'.
    destruct Hone as [-> | ->]; [done|]. by destruct l.
  - destruct Hboth as [Hl Hr].
    destruct (max_path_spine l []) as (Cl & HCl & HFR & Hpl).
    destruct (max_path_node l [] Hl) as (pr & cpr & prl & px & Hnode).
    rewrite app_nil_r in HCl. rewrite Hnode in Hpl.
    destruct (swap_inv C Cl n c x r pr cpr prl px E) as (S2 & S3 & S4).
    rewrite Hpl in S2, S3, S4.
    destruct (delete_at_ok (Cl ++ FL pr c px r :: C) n cpr prl px E)
      as (t' & Ht' & ? & ? & ? & Hn); auto.
    exists t'. split_and!; try done.
    + unfold delete_abs, swap_abs.
      destruct l as [|? ? ? ? ?]; [done|]. destruct r as [|? ? ? ? ?]; [done|].
      destruct (max_path [] _) as [Cl' nd] eqn:Hmp. simpl in HCl, Hnode. subst Cl' nd.
      exact Ht'.
    + rewrite Hn, cleft_app, cright_app, (cright_FR Cl HFR). simpl.
      rewrite <- Hpl, nodes_plug, (cright_FR Cl HFR). simpl.
      repeat (rewrite <- ?app_assoc; simpl). done.
Qed.

End DeleteInv.

Section Order.

Context {Item : Type}.
Implicit Types (t : rbt Item) (C : ctx Item).

Variable compare : Item -> Item -> Z.

(** The comparator contract: the sign of [compare] is a total preorder. *)
Hypothesis compare_anti : forall x y, compare x y < 0 <-> 0 < compare y x.
Hypothesis compare_trans :
  forall x y z, compare x y <= 0 -> compare y z <= 0 -> compare x z <= 0.

Lemma compare_eq_sym x y : compare x y = 0 -> compare y x = 0.
Proof. pose proof (compare_anti x y). pose proof (compare_anti y x). lia. Qed.

Lemma compare_refl x : compare x x = 0.
Proof. pose proof (compare_anti x x). lia. Qed.

Lemma compare_le_lt x y z : compare x y <= 0 -> compare y z < 0 -> compare x z < 0.
Proof.
  intros Hxy Hyz.
  pose proof (compare_anti x z). pose proof (compare_anti z x).
  pose proof (compare_anti y z). pose proof (compare_anti z y).
  pose proof (compare_trans x y z). pose proof (compare_trans z x y). lia.
Qed.

Lemma compare_lt_le x y z : compare x y < 0 -> compare y z <= 0 -> compare x z < 0.
Proof.
  intros Hxy Hyz.
  pose proof (compare_anti x z). pose proof (compare_anti z x).
  pose proof (compare_anti x y). pose proof (compare_anti y x).
  pose proof (compare_trans x y z). pose proof (compare_trans y z x). lia.
Qed.

Lemma compare_lt_trans x y z : compare x y < 0 -> compare y z < 0 -> compare x z < 0.
Proof. intros ? ?. apply (compare_le_lt x y z); [lia|done]. Qed.

Lemma compare_gt_lt x y : compare x y > 0 <-> compare y x < 0.
Proof. pose proof (compare_anti y x). lia. Qed.

Lemma increasing_app (l1 l2 : list Item) :
  increasing compare (l1 ++ l2) <->
  increasing compare l1 /\ increasing compare l2 /\
  Forall (fun a => Forall (fun b => compare a b < 0) l2) l1.
Proof.
  induction l1 as [|a l1 IH]; simpl.
  - intuition constructor.
  - rewrite IH, Forall_app, Forall_cons. tauto.
Qed.

Lemma items_T p c (l : rbt Item) x r : items (T p c l x r) = items l ++ x :: items r.
Proof. unfold items. simpl. by rewrite fmap_app. Qed.

(** R1 says that the in-order list of the items is strictly increasing. *)
Lemma R1_increasing t : R1 compare t <-> increasing compare (items t).
Proof.
  induction t as [|p c l IHl x r IHr]; [done|].
  rewrite items_T, increasing_app. cbn [R1 increasing]. rewrite IHl, IHr.
  split.
  - intros (Hl & Hr & Il & Ir). split_and!; try done.
    + eapply Forall_impl; [exact Hr|]. intros y Hy. by apply compare_gt_lt.
    + eapply Forall_impl; [exact Hl|]. intros a Ha. constructor; [done|].
      eapply Forall_impl; [exact Hr|]. intros b Hb. simpl in Hb.
      apply (compare_lt_trans a x b); [done|]. by apply compare_gt_lt.
  - intros (Il & (Hr & Ir) & Hc). split_and!; try done.
    + eapply Forall_impl; [exact Hc|]. intros a Ha. by apply Forall_cons in Ha as [? _].
    + eapply Forall_impl; [exact Hr|]. intros y Hy. by apply compare_gt_lt.
Qed.

Lemma find_app_or {A} (P : A -> bool) (l1 l2 : list A) :
  find P (l1 ++ l2) = or_else (find P l1) (find P l2).
Proof. induction l1 as [|a l1 IH]; simpl; [done|]. by destruct (P a). Qed.

Lemma find_all_false {A} (P : A -> bool) (l : list A) :
  Forall (fun a => P a = false) l -> find P l = None.
Proof. induction 1 as [|a l Ha _ IH]; simpl; [done|]. by rewrite Ha. Qed.

Lemma find_split {A} (P : A -> bool) (l : list A) q :
  find P l = Some q ->
  exists pre post, l = pre ++ q :: post /\ Forall (fun a => P a = false) pre /\ P q = true.
Proof.
  induction l as [|a l IH]; simpl; [done|].
  destruct (P a) eqn:Ha.
  - intros [= ->]. exists [], l. split_and!; [reflexivity|constructor|assumption].
  - intros H. destruct (IH H) as (pre & post & -> & ? & ?).
    exists (a :: pre), post. split_and!; try done. by constructor.
Qed.

Lemma find_None_all {A} (P : A -> bool) (l : list A) :
  find P l = None -> Forall (fun a => P a = false) l.
Proof.
  induction l as [|a l IH]; simpl; [constructor|].
  destruct (P a) eqn:Ha; [done|]. intros H. constructor; auto.
Qed.

Lemma climb_next_first_FL C : forall t, focus_node (climb_next C t) = first_FL C.
Proof. induction C as [|f C IH]; intros t; [done|]. destruct f; simpl; [done|]. apply IH. Qed.

Lemma nodes_below key (l : rbt Item) x :
  Forall (fun y => compare y x < 0) (items l) -> 0 <= compare key x ->
  Forall (fun q => ge_key compare key q = false) (nodes l).
Proof.
  unfold items. rewrite Forall_fmap. intros H Hk.
  eapply Forall_impl; [exact H|]. intros [q y] Hy. simpl in Hy.
  unfold ge_key. simpl. apply Z.leb_gt.
  pose proof (compare_anti key x). pose proof (compare_anti x key).
  pose proof (compare_lt_le y x key). pose proof (compare_anti y key). lia.
Qed.

(** [findGE] returns the first node in order whose item is not below the
    key, or else the nearest ancestor reached from its left child. *)
Lemma findGE_abs_find key t : forall C, R1 compare t -> t <> E \/ C = [] ->
  let hit := or_else (find (ge_key compare key) (nodes t)) (first_FL C) in
  focus_node (findGE_abs compare key C t).1 = hit /\
  (findGE_abs compare key C t).2 =
    match hit with Some q => compare key q.2 =? 0 | None => false end.
Proof.
  induction t as [|p c l IHl x r IHr]; intros C HR1 Hne.
  { destruct Hne as [?| ->]; done. }
  clear Hne. destruct HR1 as (Hl & Hr & HRl & HRr).
  cbn [findGE_abs nodes]. cbv zeta.
  destruct (compare key x =? 0) eqn:E0.
  { pose proof E0 as E0'. apply Z.eqb_eq in E0.
    rewrite find_app_or, (find_all_false _ (nodes l)) by (eapply nodes_below; [done|lia]).
    simpl. unfold ge_key at 1 3. simpl. rewrite E0. simpl. by rewrite E0'. }
  pose proof E0 as E0b. apply Z.eqb_neq in E0.
  destruct (compare key x <? 0) eqn:E1.
  - apply Z.ltb_lt in E1.
    assert (ge_key compare key (p, x) = true) as Hpx by (unfold ge_key; simpl; apply Z.leb_le; lia).
    destruct l as [|lp lc ll lx lr].
    + simpl. rewrite Hpx. simpl. by rewrite E0b.
    + destruct (IHl (FL p c x r :: C) HRl) as [H1 H2]; [by left|].
      rewrite H1, H2. rewrite find_app_or.
      remember (T lp lc ll lx lr) as l0. simpl find. rewrite Hpx.
      destruct (find (ge_key compare key) (nodes l0)); simpl; by rewrite ?E0b.
  - apply Z.ltb_ge in E1.
    assert (ge_key compare key (p, x) = false) as Hpx by (unfold ge_key; simpl; apply Z.leb_gt; lia).
    rewrite find_app_or, (find_all_false _ (nodes l)) by (eapply nodes_below; [done|lia]).
    simpl or_else at 2 4. simpl find. rewrite Hpx.
    destruct r as [|rp rc rl rx rr].
    + simpl find. simpl or_else.
      pose proof (climb_next_first_FL C (T p c l x E)) as Hc.
      destruct (climb_next C (T p c l x E)) as [[C1 [|q c' l' y r']]|]; simpl in Hc;
        rewrite <- Hc; done.
    + destruct (IHr (FR p c l x :: C) HRr) as [H1 H2]; [by left|]. done.
Qed.

End Order.

Section Ends.

Context {Item : Type}.
Implicit Types (t : rbt Item) (C : ctx Item).

Lemma nodes_nil t : nodes t = [] -> t = E.
Proof. destruct t; [done|]. simpl. intros H. by apply app_eq_nil in H as [_ ?]. Qed.

Lemma leftmost_None t : leftmost t = None -> t = E.
Proof.
  induction t as [|p c l IHl x r _]; [done|]. simpl.
  destruct l; [done|]. intros H. by apply IHl in H.
Qed.

Lemma rightmost_None t : rightmost t = None -> t = E.
Proof.
  induction t as [|p c l _ x r IHr]; [done|]. simpl.
  destruct r; [done|]. intros H. by apply IHr in H.
Qed.

Lemma leftmost_head t : leftmost t = head (nodes t).
Proof.
  induction t as [|p c l IHl x r _]; [done|]. cbn [leftmost nodes].
  rewrite head_app, <- IHl. destruct (leftmost l) eqn:Hl.
  - by destruct l.
  - by rewrite (leftmost_None l Hl).
Qed.

Lemma rightmost_last t : rightmost t = last (nodes t).
Proof.
  induction t as [|p c l _ x r IHr]; [done|]. cbn [rightmost nodes].
  rewrite last_app, last_cons, <- IHr. destruct (rightmost r) eqn:Hr.
  - by destruct r.
  - by rewrite (rightmost_None r Hr).
Qed.

Lemma climb_prev_last C : forall t, focus_node (climb_prev C t) = last (cleft C).
Proof.
  induction C as [|f C IH]; intros t; [done|]. destruct f; simpl; [apply IH|].
  by rewrite app_assoc, last_snoc.
Qed.

Lemma first_FL_head C : first_FL C = head (cright C).
Proof. induction C as [|f C IH]; [done|]. by destruct f. Qed.

Lemma prev_abs_last C p c l x r :
  focus_node (prev_abs C (T p c l x r)) = last (cleft C ++ nodes l).
Proof.
  unfold prev_abs. destruct l as [|lp lc ll lx lr].
  - rewrite app_nil_r. apply climb_prev_last.
  - cbn [focus_node]. remember (T lp lc ll lx lr) as l eqn:Hl.
    pose proof (rightmost_max_path l (FL p c x r :: C)) as Hm.
    destruct (max_path (FL p c x r :: C) l) as [C' t']. simpl in Hm.
    rewrite <- Hm, rightmost_last, last_app.
    destruct (last (nodes l)) eqn:Hlast; [done|].
    apply last_None, nodes_nil in Hlast. congruence.
Qed.

Lemma next_abs_head C p c l x r :
  focus_node (next_abs C (T p c l x r)) = head (nodes r ++ cright C).
Proof.
  unfold next_abs. destruct r as [|rp rc rl rx rr].
  - simpl app. rewrite <- first_FL_head. apply climb_next_first_FL.
  - cbn [focus_node]. remember (T rp rc rl rx rr) as r eqn:Hr.
    pose proof (leftmost_min_path r (FR p c l x :: C)) as Hm.
    destruct (min_path (FR p c l x :: C) r) as [C' t']. simpl in Hm.
    rewrite <- Hm, leftmost_head, head_app.
    destruct (head (nodes r)) eqn:Hh; [done|].
    apply head_None, nodes_nil in Hh. congruence.
Qed.

End Ends.

Section SearchSpec.

Context {Item : Type}.
Implicit Types (t : rbt Item) (C : ctx Item).

Variable compare : Item -> Item -> Z.
Hypothesis compare_anti : forall x y, compare x y < 0 <-> 0 < compare y x.
Hypothesis compare_trans :
  forall x y z, compare x y <= 0 -> compare y z <= 0 -> compare x z <= 0.

Lemma increasing_mid (pre post : list (positive * Item)) q :
  increasing compare (pre ++ q :: post).*2 ->
  Forall (fun z => compare z.2 q.2 < 0) pre /\
  Forall (fun z => compare q.2 z.2 < 0) post.
Proof.
  rewrite fmap_app, fmap_cons, (increasing_app compare). cbn [increasing].
  intros (_ & (Hq & _) & Hc). split.
  - rewrite Forall_fmap in Hc. eapply Forall_impl; [exact Hc|].
    intros z Hz. simpl in Hz. by apply Forall_cons in Hz as [? _].
  - by rewrite Forall_fmap in Hq.
Qed.

Lemma split_unique (l1 : list (positive * Item)) : forall l2 l1' l2' q,
  increasing compare (l1 ++ q :: l2).*2 ->
  l1 ++ q :: l2 = l1' ++ q :: l2' -> l1 = l1' /\ l2 = l2'.
Proof.
  assert (forall (a : positive * Item) l, increasing compare (a :: l).*2 -> a ∉ l) as Hirr.
  { intros a l [Ha _] Hin. rewrite Forall_fmap in Ha.
    rewrite Forall_forall in Ha. specialize (Ha a Hin). simpl in Ha.
    pose proof (compare_refl compare compare_anti a.2). lia. }
  induction l1 as [|a l1 IH]; intros l2 l1' l2' q Hinc Heq.
  - destruct l1' as [|b l1']; simpl in *.
    + by injection Heq.
    + injection Heq as <- ->. exfalso. apply (Hirr _ _ Hinc). set_solver.
  - destruct l1' as [|b l1']; simpl in Heq.
    + injection Heq as -> <-. exfalso. apply (Hirr _ _ Hinc). set_solver.
    + injection Heq as <- Heq. destruct Hinc as [_ Hinc].
      destruct (IH _ _ _ _ Hinc Heq) as [-> ->]. done.
Qed.

(** What [findGE] finds, in terms of the in-order list of the nodes. *)
Lemma findGE_abs_hit key t : R1 compare t ->
  match findGE_abs compare key [] t with
  | (Some (C, T q c l y r), b) =>
      plug C (T q c l y r) = t /\ b = (compare key y =? 0) /\ compare key y <= 0 /\
      Forall (fun z => compare z.2 key < 0) (cleft C ++ nodes l) /\
      Forall (fun z => compare key z.2 < 0) (nodes r ++ cright C)
  | (Some (_, E), _) => False
  | (None, b) => b = false /\ Forall (fun z => compare z.2 key < 0) (nodes t)
  end.
Proof.
  intros HR1.
  destruct (findGE_abs_find compare compare_anti compare_trans key t [] HR1) as [H1 H2];
    [by right|].
  simpl first_FL in H1, H2.
  assert (forall z : positive * Item, ge_key compare key z = false -> compare z.2 key < 0) as Hlt.
  { intros z Hz. unfold ge_key in Hz. apply Z.leb_gt in Hz.
    pose proof (compare_anti z.2 key). lia. }
  destruct (findGE_abs compare key [] t) as [[[C t']|] b] eqn:Hf; simpl in H1, H2.
  - destruct (findGE_abs_plug compare key t [] C t' b Hf) as [Hp (q & c & l & y & r & ->)].
    simpl in Hp, H1. split; [done|].
    destruct (find (ge_key compare key) (nodes t)) as [hit|] eqn:Hfind; simpl in H1, H2; [|done].
    injection H1 as <-. simpl in H2. split; [done|].
    destruct (find_split _ _ _ Hfind) as (pre & post & Hn & Hpre & Hq).
    unfold ge_key in Hq. simpl in Hq. apply Z.leb_le in Hq. split; [done|].
    pose proof HR1 as Hinc. apply (R1_increasing compare compare_anti compare_trans) in Hinc.
    unfold items in Hinc. rewrite Hn in Hinc.
    rewrite <- Hp, nodes_plug in Hn. simpl in Hn. rewrite <- app_assoc in Hn.
    rewrite (app_assoc (cleft C)) in Hn. simpl in Hn.
    symmetry in Hn. destruct (split_unique _ _ _ _ _ Hinc Hn) as [-> ->].
    split.
    + eapply Forall_impl; [exact Hpre|]. done.
    + destruct (increasing_mid _ _ _ Hinc) as [_ Hpost].
      eapply Forall_impl; [exact Hpost|]. intros z Hz. simpl in Hz.
      by apply (compare_le_lt compare compare_anti compare_trans key y z.2).
  - destruct (find (ge_key compare key) (nodes t)) as [hit|] eqn:Hfind; simpl in H1, H2; [done|].
    split; [done|]. apply find_None_all in Hfind.
    eapply Forall_impl; [exact Hfind|]. done.
Qed.

Lemma elem_of_items t z : z ∈ items t <-> exists q, (q, z) ∈ nodes t.
Proof.
  unfold items. rewrite list_elem_of_fmap. split.
  - intros ([q y] & -> & ?). by exists q.
  - intros (q & ?). by exists (q, z).
Qed.

(** The node found by [findGE] holds the least item that is not below the
    key. *)
Lemma findGE_abs_least key t C q c l y r b :
  R1 compare t -> findGE_abs compare key [] t = (Some (C, T q c l y r), b) ->
  (q, y) ∈ nodes t /\ compare key y <= 0 /\
  (forall z, z ∈ items t -> compare key z <= 0 -> compare y z <= 0) /\
  (b = true <-> compare key y = 0).
Proof.
  intros HR1 Hf. pose proof (findGE_abs_hit key t HR1) as H. rewrite Hf in H.
  destruct H as (Hp & -> & Hy & Hpre & Hpost).
  assert (nodes t = (cleft C ++ nodes l) ++ (q, y) :: (nodes r ++ cright C)) as Hn.
  { rewrite <- Hp, nodes_plug. simpl. by rewrite <- !app_assoc. }
  split_and!; try done.
  - rewrite Hn. set_solver.
  - intros z Hz Hkz. apply elem_of_items in Hz as [qz Hz]. rewrite Hn in Hz.
    apply elem_of_app in Hz as [Hz|Hz].
    + rewrite Forall_forall in Hpre. specialize (Hpre _ Hz). simpl in Hpre.
      pose proof (compare_anti z key). lia.
    + apply elem_of_cons in Hz as [Hz|Hz].
      * injection Hz as -> ->. pose proof (compare_refl compare compare_anti y). lia.
      * pose proof HR1 as Hinc. apply (R1_increasing compare compare_anti compare_trans) in Hinc.
        unfold items in Hinc. rewrite Hn in Hinc.
        destruct (increasing_mid _ _ _ Hinc) as [_ Hgt].
        rewrite Forall_forall in Hgt. specialize (Hgt _ Hz). simpl in Hgt. lia.
  - apply Z.eqb_eq.
Qed.

(** [FindLE] finds the node that holds the greatest item not above the
    key, and nothing when every item is above the key. *)
Lemma FindLE_abs_spec key t : R1 compare t ->
  match focus_node (FindLE_abs compare key t) with
  | Some (q, y) =>
      (q, y) ∈ nodes t /\ compare y key <= 0 /\
      forall z, z ∈ items t -> compare z key <= 0 -> compare z y <= 0
  | None => Forall (fun z => compare key z < 0) (items t)
  end.
Proof.
  intros HR1. pose proof (findGE_abs_hit key t HR1) as H.
  pose proof HR1 as Hinc. apply (R1_increasing compare compare_anti compare_trans) in Hinc.
  unfold items in Hinc.
  (* the last node of an increasing list holds its greatest item *)
  assert (forall (pre rest : list (positive * Item)) q' y',
    nodes t = (pre ++ [(q', y')]) ++ rest ->
    compare y' key < 0 -> Forall (fun z => compare key z.2 < 0) rest ->
    (q', y') ∈ nodes t /\ compare y' key <= 0 /\
    forall z, z ∈ items t -> compare z key <= 0 -> compare z y' <= 0) as Hlast.
  { intros pre rest q' y' Hn Hy' Hrest. split_and!.
    - rewrite Hn. set_solver.
    - lia.
    - intros z Hz Hzk. apply elem_of_items in Hz as [qz Hz]. rewrite Hn in Hz.
      rewrite Hn, <- app_assoc in Hinc. simpl in Hinc.
      destruct (increasing_mid _ _ _ Hinc) as [Hlt _].
      rewrite !elem_of_app, list_elem_of_singleton in Hz. destruct Hz as [[Hz|Hz]|Hz].
      + rewrite Forall_forall in Hlt. specialize (Hlt _ Hz). simpl in Hlt. lia.
      + injection Hz as -> ->. pose proof (compare_refl compare compare_anti y'). lia.
      + rewrite Forall_forall in Hrest. specialize (Hrest _ Hz). simpl in Hrest.
        pose proof (compare_anti key z). lia. }
  unfold FindLE_abs.
  destruct (findGE_abs compare key [] t) as [[[C [|q c l y r]]|] b] eqn:Hf; [done| |].
  - destruct H as (Hp & -> & Hy & Hpre & Hpost).
    assert (nodes t = (cleft C ++ nodes l) ++ (q, y) :: (nodes r ++ cright C)) as Hn.
    { rewrite <- Hp, nodes_plug. simpl. by rewrite <- !app_assoc. }
    destruct (compare key y =? 0) eqn:E0.
    + apply Z.eqb_eq in E0. simpl. split_and!.
      * rewrite Hn. set_solver.
      * pose proof (compare_eq_sym compare compare_anti key y). lia.
      * intros z _ Hz. apply (compare_trans z key y); lia.
    + apply Z.eqb_neq in E0. rewrite prev_abs_last.
      destruct (last (cleft C ++ nodes l)) as [[q' y']|] eqn:Hl.
      * apply last_Some in Hl as [pre Hl]. rewrite Hl in Hn, Hpre.
        apply (Hlast pre ((q, y) :: nodes r ++ cright C)); [done| |].
        -- rewrite Forall_app, Forall_singleton in Hpre. by destruct Hpre.
        -- constructor; [simpl; lia|done].
      * apply last_None in Hl. rewrite Hl in Hn. simpl in Hn.
        unfold items. rewrite Hn, Forall_fmap. constructor; [simpl; lia|done].
  - destruct H as [-> Hall]. destruct t as [|p c l x r]; [constructor|].
    remember (T p c l x r) as t eqn:Ht.
    pose proof (rightmost_max_path t []) as Hm. cbn [focus_node].
    destruct (max_path [] t) as [C' t']. simpl in Hm. rewrite <- Hm, rightmost_last.
    destruct (last (nodes t)) as [[q' y']|] eqn:Hl.
    + apply last_Some in Hl as [pre Hl].
      apply (Hlast pre []); [by rewrite app_nil_r| |constructor].
      rewrite Hl, Forall_app, Forall_singleton in Hall. by destruct Hall.
    + apply last_None, nodes_nil in Hl. congruence.
Qed.

End SearchSpec.

Section InsertSpec.

Context {Item : Type}.
Implicit Types (t : rbt Item) (C : ctx Item).

Variable compare : Item -> Item -> Z.

Lemma ins_path_plug x t : forall C C',
  ins_path compare x C t = Some C' -> plug C' E = plug C t.
Proof.
  induction t as [|p c l IHl y r IHr]; intros C C' H; simpl in H.
  - by injection H as <-.
  - destruct (compare x y =? 0); [done|].
    destruct (compare x y <? 0); [apply IHl in H|apply IHr in H]; done.
Qed.

Lemma ins_path_nodes x t C' :
  ins_path compare x [] t = Some C' -> nodes t = cleft C' ++ cright C'.
Proof.
  intros H. apply ins_path_plug in H. simpl in H. rewrite <- H, nodes_plug. done.
Qed.

Lemma ins_path_None x t : forall C,
  ins_path compare x C t = None -> exists y, y ∈ items t /\ compare x y = 0.
Proof.
  induction t as [|p c l IHl y r IHr]; intros C H; simpl in H; [done|].
  rewrite (items_T p c l y r).
  destruct (compare x y =? 0) eqn:E0.
  - apply Z.eqb_eq in E0. exists y. split; [set_solver|done].
  - destruct (compare x y <? 0).
    + destruct (IHl _ H) as (z & ? & ?). exists z. split; [set_solver|done].
    + destruct (IHr _ H) as (z & ? & ?). exists z. split; [set_solver|done].
Qed.

(** The insertion fixup keeps R2, R3 and R4 whatever the comparator. *)
Lemma insert_fix_ok n x t C' :
  ins_path compare x [] t = Some C' -> R2 t -> R3 t -> bal t ->
  exists t', ifix C' (T n red E x E) = Some t' /\ R2 t' /\ R3 t' /\ bal t' /\
    nodes t' = cleft C' ++ (n, x) :: cright C'.
Proof.
  intros Hp H2 H3 H4. apply ins_path_plug in Hp. simpl in Hp. subst t.
  unfold R2 in H2. rewrite root_color_plug in H2. rewrite R3_plug in H3.
  rewrite bal_plug in H4. simpl in *.
  destruct (ifix_ok C' n E x E) as (t' & ? & ? & ? & ? & Hn); simpl; try tauto.
  exists t'. split_and!; try done. rewrite Hn, nodes_plug. done.
Qed.

Hypothesis compare_anti : forall x y, compare x y < 0 <-> 0 < compare y x.
Hypothesis compare_trans :
  forall x y z, compare x y <= 0 -> compare y z <= 0 -> compare x z <= 0.

Lemma ins_path_bounds x t : forall C C',
  R1 compare t ->
  Forall (fun z => compare z.2 x < 0) (cleft C) ->
  Forall (fun z => compare x z.2 < 0) (cright C) ->
  ins_path compare x C t = Some C' ->
  Forall (fun z => compare z.2 x < 0) (cleft C') /\
  Forall (fun z => compare x z.2 < 0) (cright C').
Proof.
  induction t as [|p c l IHl y r IHr]; intros C C' HR1 HL HR H; simpl in H.
  - by injection H as <-.
  - destruct HR1 as (Hl & Hr & HRl & HRr).
    destruct (compare x y =? 0) eqn:E0; [done|]. apply Z.eqb_neq in E0.
    destruct (compare x y <? 0) eqn:E1.
    + apply Z.ltb_lt in E1. apply (IHl _ _ HRl) in H; [done|done|].
      simpl. constructor; [done|]. apply Forall_app. split; [|done].
      unfold items in Hr. rewrite Forall_fmap in Hr.
      eapply Forall_impl; [exact Hr|]. intros z Hz. simpl in Hz.
      apply (compare_lt_trans compare compare_anti compare_trans x y z.2); [done|].
      pose proof (compare_anti y z.2). lia.
    + apply Z.ltb_ge in E1. apply (IHr _ _ HRr) in H; [done| |done].
      simpl. rewrite !Forall_app, Forall_singleton. split_and!; [done| |].
      * unfold items in Hl. rewrite Forall_fmap in Hl.
        eapply Forall_impl; [exact Hl|]. intros z Hz. simpl in Hz.
        apply (compare_lt_trans compare compare_anti compare_trans z.2 y x); [done|].
        pose proof (compare_anti y x). lia.
      * simpl. pose proof (compare_anti y x). lia.
Qed.

(** Attaching the new node where the descent ends keeps the order. *)
Lemma insert_order n x t C' :
  ins_path compare x [] t = Some C' -> R1 compare t ->
  (forall y, y ∈ items t -> compare x y <> 0) /\
  increasing compare (cleft C' ++ (n, x) :: cright C').*2 /\
  Forall (fun z => compare z.2 x < 0) (cleft C') /\
  Forall (fun z => compare x z.2 < 0) (cright C').
Proof.
  intros Hp HR1.
  destruct (ins_path_bounds x t [] C' HR1) as [HL HR]; [constructor|constructor|done|].
  pose proof (ins_path_nodes x t C' Hp) as Hn.
  apply (R1_increasing compare compare_anti compare_trans) in HR1.
  unfold items in HR1. rewrite Hn, fmap_app, (increasing_app compare) in HR1.
  destruct HR1 as (IL & IR & Hc).
  split_and!; try done.
  - intros y Hy. unfold items in Hy. rewrite Hn in Hy.
    apply list_elem_of_fmap in Hy as (z & -> & Hz).
    apply elem_of_app in Hz as [Hz|Hz].
    + rewrite Forall_forall in HL. specialize (HL _ Hz).
      pose proof (compare_anti z.2 x). lia.
    + rewrite Forall_forall in HR. specialize (HR _ Hz). lia.
  - rewrite fmap_app, fmap_cons, (increasing_app compare). cbn [increasing].
    split_and!; try done.
    + by rewrite Forall_fmap.
    + rewrite Forall_fmap. rewrite Forall_fmap in Hc.
      rewrite Forall_forall in HL, Hc. apply Forall_forall. intros z Hz.
      constructor; [by apply HL|]. by apply Hc.
Qed.

End InsertSpec.

Section CacheSpec.

Context {Item : Type}.
Implicit Types (t : rbt Item) (C : ctx Item).

Lemma last_app_ne {A} (l1 l2 : list A) : l2 <> [] -> last (l1 ++ l2) = last l2.
Proof.
  intros H. rewrite last_app. destruct (last l2) eqn:Hl; [done|].
  by apply last_None in Hl.
Qed.

Lemma head_app_ne {A} (l1 l2 : list A) : l1 <> [] -> head (l1 ++ l2) = head l1.
Proof. by destruct l1. Qed.

(** [refreshMinMax] after the removal of the node [(n, x)]. *)
Lemma refreshed_head (pre post : list (positive * Item)) n x :
  let l := pre ++ (n, x) :: post in
  refreshed (Z.of_nat (length l) - 1)
    (if ptr_eqb (fst <$> head l) (Some n) then None else fst <$> head l)
    (fst <$> head (pre ++ post)) = fst <$> head (pre ++ post).
Proof.
  intros l. subst l. unfold refreshed. rewrite length_app. simpl length.
  destruct pre as [|[a y] pre]; simpl.
  - rewrite ptr_eqb_refl. destruct post; simpl; [done|].
    match goal with |- context [?a >? 0] => destruct (Z.gtb_spec a 0) end; [done|lia].
  - destruct (Z.gtb_spec (Z.of_nat (S (length pre + S (length post))) - 1) 0); [|lia].
    destruct (ptr_eqb (Some a) (Some n)); done.
Qed.

Lemma refreshed_last (pre post : list (positive * Item)) n x :
  let l := pre ++ (n, x) :: post in
  refreshed (Z.of_nat (length l) - 1)
    (if ptr_eqb (fst <$> last l) (Some n) then None else fst <$> last l)
    (fst <$> last (pre ++ post)) = fst <$> last (pre ++ post).
Proof.
  intros l. subst l. unfold refreshed. rewrite length_app. simpl length.
  destruct post as [|[a y] post _] using rev_ind.
  - rewrite app_nil_r, last_snoc. simpl. rewrite ptr_eqb_refl.
    match goal with |- context [?a >? 0] => destruct (Z.gtb_spec a 0) as [Hc|Hc] end; [done|].
    destruct pre; [done|]. simpl in Hc. lia.
  - rewrite (app_assoc pre), last_snoc.
    change (pre ++ (n, x) :: post ++ [(a, y)]) with (pre ++ ((n, x) :: post) ++ [(a, y)]).
    rewrite (app_assoc pre), last_snoc. simpl. rewrite length_app. simpl.
    destruct (Z.gtb_spec (Z.of_nat (length pre + S (length post + 1)) - 1) 0); [|lia].
    destruct (ptr_eqb (Some a) (Some n)); done.
Qed.

Variable compare : Item -> Item -> Z.
Hypothesis compare_anti : forall x y, compare x y < 0 <-> 0 < compare y x.
Hypothesis compare_trans :
  forall x y z, compare x y <= 0 -> compare y z <= 0 -> compare x z <= 0.

Lemma increasing_remove (pre post : list (positive * Item)) a :
  increasing compare (pre ++ a :: post).*2 -> increasing compare (pre ++ post).*2.
Proof.
  rewrite !fmap_app, fmap_cons, !(increasing_app compare). cbn [increasing].
  intros (? & (? & ?) & Hc). split_and!; try done.
  eapply Forall_impl; [exact Hc|]. intros z Hz. by apply Forall_cons in Hz as [_ ?].
Qed.

(** [maybeSetMinNode] and [maybeSetMaxNode] keep the caches at the two
    ends of the tree. *)
Lemma cache_after_attach_ok n x t C' :
  ins_path compare x [] t = Some C' -> R1 compare t ->
  cache_after_attach compare n x C' t (fst <$> leftmost t) (fst <$> rightmost t) =
    (fst <$> head (cleft C' ++ (n, x) :: cright C'),
     fst <$> last (cleft C' ++ (n, x) :: cright C')).
Proof.
  intros Hp HR1.
  destruct (insert_order compare compare_anti compare_trans n x t C' Hp HR1)
    as (_ & _ & HL & HR).
  pose proof (ins_path_nodes compare x t C' Hp) as Hn.
  unfold cache_after_attach.
  rewrite !leftmost_head, !rightmost_last, !Hn.
  destruct C' as [|[p c y r|p c l y] C'']; [done| |].
  - cbn [cleft cright] in *.
    remember (cleft C'') as L eqn:HeqL. remember (nodes r ++ cright C'') as R eqn:HeqR.
    clear HeqL HeqR Hn Hp.
    rewrite (last_app_ne L ((p, y) :: R)), (last_app_ne L ((n, x) :: (p, y) :: R)) by done.
    rewrite (last_cons_cons (n, x)).
    apply Forall_cons in HR as [HR _]. simpl in HR.
    destruct L as [|[m ym] L]; simpl.
    + destruct (Z.ltb_spec (compare x y) 0); [done|lia].
    + apply Forall_cons in HL as [HL _]. simpl in HL.
      pose proof (compare_anti ym x).
      destruct (Z.ltb_spec (compare x ym) 0); [lia|done].
  - cbn [cleft cright] in *.
    remember (cleft C'' ++ nodes l) as L eqn:HeqL. remember (cright C'') as R eqn:HeqR.
    rewrite !app_assoc in *. rewrite <- HeqL in *.
    clear HeqL HeqR Hn Hp.
    rewrite !(head_app_ne (L ++ [(p, y)])) by (by destruct L).
    rewrite Forall_app, Forall_singleton in HL. destruct HL as [_ HL]. simpl in HL.
    rewrite (last_app (L ++ [(p, y)]) ((n, x) :: R)), (last_cons (n, x) R),
      (last_app (L ++ [(p, y)]) R), !last_snoc.
    destruct (last R) as [[m ym]|] eqn:HlR; simpl.
    + apply last_Some in HlR as [R' ->].
      rewrite Forall_app, Forall_singleton in HR. destruct HR as [_ HR]. simpl in HR.
      pose proof (compare_anti x ym).
      destruct (Z.gtb_spec (compare x ym) 0); [lia|done].
    + pose proof (compare_anti y x).
      destruct (Z.gtb_spec (compare x y) 0); [done|lia].
Qed.

End CacheSpec.

Section Operations.

Context {Item : Type}.
Implicit Types (t : rbt Item) (C : ctx Item) (s : state Item).

(** Every node of a tree is the root of a subtree in some path. *)
Lemma focus_of p t : p ∈ ptrs t -> exists C c l x r, t = plug C (T p c l x r).
Proof.
  induction t as [|q c l IHl y r IHr]; unfold ptrs; simpl; [by intros ?%elem_of_nil|].
  rewrite fmap_app, fmap_cons, elem_of_app, elem_of_cons. simpl.
  intros [H|[->|H]].
  - destruct (IHl H) as (C & c' & l' & x' & r' & ->).
    exists (C ++ [FL q c y r]), c', l', x', r'. by rewrite plug_app.
  - by exists [], c, l, y, r.
  - destruct (IHr H) as (C & c' & l' & x' & r' & ->).
    exists (C ++ [FR q c l y]), c', l', x', r'. by rewrite plug_app.
Qed.

Lemma size_t_length t : size_t t = length (ptrs t).
Proof. unfold size_t, ptrs. by rewrite length_fmap. Qed.

(** [doDelete] on a node of a red-black tree. *)
Lemma doDelete_ok s C n c l x r :
  Rep s (plug C (T n c l x r)) ->
  R2 (plug C (T n c l x r)) -> R3 (plug C (T n c l x r)) -> bal (plug C (T n c l x r)) ->
  exists s' t', doDelete (Some n) s = Ok tt s' /\
    Rep s' t' /\ R2 t' /\ R3 t' /\ bal t' /\
    nodes t' = (cleft C ++ nodes l) ++ (nodes r ++ cright C) /\
    count (tree s') = count (tree s) - 1 /\
    minNode (tree s') = refreshed (count (tree s) - 1)
      (if ptr_eqb (minNode (tree s)) (Some n) then None else minNode (tree s))
      (fst <$> head (nodes t')) /\
    maxNode (tree s') = refreshed (count (tree s) - 1)
      (if ptr_eqb (maxNode (tree s)) (Some n) then None else maxNode (tree s))
      (fst <$> last (nodes t')).
Proof.
  intros HR H2 H3 H4.
  destruct (delete_abs_ok C n c l x r H2 H3 H4) as (t' & Hd & ? & ? & ? & Hn).
  pose proof (doDelete_sim s C n c l x r t' HR Hd) as Hwp.
  apply wp_Ok in Hwp as ([] & s' & Hrun & HR' & Hc & Hmin & Hmax).
  exists s', t'. rewrite <- leftmost_head, <- rightmost_last.
  split_and!; try done. by rewrite Hn, <- !app_assoc.
Qed.

Lemma nodes_focus C n c l x r :
  nodes (plug C (T n c l x r)) = (cleft C ++ nodes l) ++ (n, x) :: (nodes r ++ cright C).
Proof. rewrite nodes_plug. simpl. by rewrite <- !app_assoc. Qed.

(** [DeleteWithIterator] at a node of the tree. *)
Lemma DeleteWithIterator_rb s t p :
  Rep s t -> R2 t -> R3 t -> bal t -> p ∈ ptrs t ->
  exists s' t' pre x post, DeleteWithIterator (mkIterator (Some p)) s = Ok tt s' /\
    Rep s' t' /\ R2 t' /\ R3 t' /\ bal t' /\
    nodes t = pre ++ (p, x) :: post /\ nodes t' = pre ++ post /\
    count (tree s') = count (tree s) - 1 /\
    minNode (tree s') = refreshed (count (tree s) - 1)
      (if ptr_eqb (minNode (tree s)) (Some p) then None else minNode (tree s))
      (fst <$> head (nodes t')) /\
    maxNode (tree s') = refreshed (count (tree s) - 1)
      (if ptr_eqb (maxNode (tree s)) (Some p) then None else maxNode (tree s))
      (fst <$> last (nodes t')).
Proof.
  intros HR H2 H3 H4 Hp.
  destruct (focus_of p t Hp) as (C & c & l & x & r & ->).
  destruct (doDelete_ok s C p c l x r HR H2 H3 H4)
    as (s' & t' & Hrun & ? & ? & ? & ? & Hn & ? & ? & ?).
  exists s', t', (cleft C ++ nodes l), x, (nodes r ++ cright C).
  split_and!; try done. apply nodes_focus.
Qed.

Variable compare : Item -> Item -> Z.

(** [FindGE] returns the node found by the descent. *)
Lemma FindGE_sim key s t :
  Rep s t ->
  FindGE compare key s =
    Ok (mkIterator (focus_ptr (findGE_abs compare key [] t).1)) s.
Proof.
  intros HR. pose proof (findGE_sim compare key s t HR) as H.
  apply wp_Ok in H as (r & s' & Hrun & -> & ->).
  unfold FindGE, bind. rewrite Hrun. done.
Qed.

Lemma findGE_abs_member key t C t' b :
  findGE_abs compare key [] t = (Some (C, t'), b) ->
  exists p c l x r, t' = T p c l x r /\ t = plug C t' /\ p ∈ ptrs t.
Proof.
  intros H. apply findGE_abs_plug in H as [Hp (p & c & l & x & r & ->)].
  simpl in Hp. exists p, c, l, x, r. split_and!; [done|done|].
  rewrite <- Hp. unfold ptrs. rewrite nodes_focus, fmap_app, fmap_cons. set_solver.
Qed.

(** [DeleteWithKey] deletes the node that [FindGE] returns, whether its
    item is equal to the key or not. *)
Lemma DeleteWithKey_rb key s t :
  Rep s t -> R2 t -> R3 t -> bal t ->
  match focus_ptr (findGE_abs compare key [] t).1 with
  | None => DeleteWithKey compare key s = Ok false s
  | Some p =>
      p ∈ ptrs t /\
      exists s', DeleteWithIterator (mkIterator (Some p)) s = Ok tt s' /\
        DeleteWithKey compare key s = Ok true s'
  end.
Proof.
  intros HR H2 H3 H4.
  assert (DeleteWithKey compare key s =
    let p := focus_ptr (findGE_abs compare key [] t).1 in
    if negb (is_nil p) then
      match DeleteWithIterator (mkIterator p) s with
      | Ok _ s' => Ok true s' | Panic => Panic | Timeout => Timeout
      end
    else Ok false s) as ->.
  { unfold DeleteWithKey, bind at 1. rewrite (FindGE_sim key s t HR). cbn [iter_node].
    destruct (focus_ptr _); [|done]. simpl. unfold bind at 1.
    by destruct (DeleteWithIterator _ s). }
  destruct (findGE_abs compare key [] t) as [[[C t']|] b] eqn:Hf; [|done].
  destruct (findGE_abs_member key t C t' b Hf) as (p & c & l & x & r & -> & -> & Hp).
  destruct (DeleteWithIterator_rb s _ p HR H2 H3 H4 Hp) as (s' & ? & ? & ? & ? & Hrun & _).
  cbv zeta. cbn [focus_ptr focus_node root_node fst fmap option_fmap option_map is_nil negb].
  rewrite Hrun. split; [done|]. by exists s'.
Qed.

(** [Insert] keeps R2, R3 and R4, whatever the comparator is. *)
Lemma Insert_rb x s t :
  Rep s t -> cache_ok s t -> R2 t -> R3 t -> bal t ->
  exists b s' t', Insert compare x s = Ok b s' /\
    Rep s' t' /\ R2 t' /\ R3 t' /\ bal t'.
Proof.
  intros HR Hc H2 H3 H4. pose proof (Insert_sim compare x s t HR Hc) as H.
  cbv zeta in H. destruct (ins_path compare x [] t) as [C'|] eqn:Hp.
  - destruct (insert_fix_ok compare (fresh (dom (heap s))) x t C' Hp H2 H3 H4)
      as (t' & Hfix & ? & ? & ? & _).
    specialize (H t' Hfix). apply wp_Ok in H as (b & s' & Hrun & -> & ? & _).
    by exists true, s', t'.
  - eexists false, _, t. split; [exact H|].
    split_and!; try done.
    by destruct (Rep_alloc s t (mkNode x None None None red) HR).
Qed.

End Operations.

Section Invariant.

Context {Item : Type}.
Implicit Types (t : rbt Item) (C : ctx Item) (s : state Item).

Variable compare : Item -> Item -> Z.

Lemma Inv_NewTree : Inv compare NewTree E.
Proof.
  unfold Inv, Rep, cache_ok, R2. simpl. split_and!; try done.
  - constructor.
  - apply bal_R4. done.
Qed.

Hypothesis compare_anti : forall x y, compare x y < 0 <-> 0 < compare y x.
Hypothesis compare_trans :
  forall x y z, compare x y <= 0 -> compare y z <= 0 -> compare x z <= 0.

Lemma Inv_cache s t :
  Inv compare s t ->
  minNode (tree s) = fst <$> head (nodes t) /\ maxNode (tree s) = fst <$> last (nodes t).
Proof.
  intros (_ & [H1 H2] & _). by rewrite <- leftmost_head, <- rightmost_last.
Qed.

(** [Insert] on a state that satisfies the invariants. *)
Lemma Insert_Inv x s t :
  Inv compare s t ->
  exists b s', Insert compare x s = Ok b s' /\
    ((b = false /\ (exists y, y ∈ items t /\ compare x y = 0) /\
      Inv compare s' t /\ tree s' = tree s /\
      (forall p, p ∈ dom (heap s) -> heap s' !! p = heap s !! p)) \/
     (b = true /\ (forall y, y ∈ items t -> compare x y <> 0) /\
      exists t' pre post n, Inv compare s' t' /\
        nodes t = pre ++ post /\ nodes t' = pre ++ (n, x) :: post)).
Proof.
  intros (HR & Hc & Hcnt & H1 & H2 & H3 & H4).
  pose proof (Insert_sim compare x s t HR Hc) as H. cbv zeta in H.
  destruct (ins_path compare x [] t) as [C'|] eqn:Hp.
  - destruct (insert_fix_ok compare (fresh (dom (heap s))) x t C' Hp H2 H3 (R4_bal _ H4))
      as (t' & Hfix & ? & ? & ? & Hn).
    specialize (H t' Hfix).
    apply wp_Ok in H as (b & s' & Hrun & -> & HR' & Hcnt' & Hmm).
    destruct (insert_order compare compare_anti compare_trans (fresh (dom (heap s))) x t C' Hp H1)
      as (Hfresh & Hinc & _).
    exists true, s'. split; [done|]. right. split; [done|]. split; [done|].
    exists t', (cleft C'), (cright C'), (fresh (dom (heap s))).
    split; [|split; [by apply ins_path_nodes in Hp|done]].
    destruct Hc as [Hmin Hmax]. rewrite Hmin, Hmax in Hmm.
    rewrite (cache_after_attach_ok compare compare_anti compare_trans _ _ _ _ Hp H1) in Hmm.
    injection Hmm as Hmin' Hmax'.
    unfold Inv, cache_ok. rewrite leftmost_head, rightmost_last, Hn.
    split_and!; try done.
    + rewrite Hcnt', Hcnt. unfold size_t. rewrite Hn, (ins_path_nodes _ _ _ _ Hp).
      rewrite !length_app. simpl. lia.
    + apply (R1_increasing compare compare_anti compare_trans). unfold items. by rewrite Hn.
    + by apply bal_R4.
  - exists false, (mkState (<[fresh (dom (heap s)) := mkNode x None None None red]> (heap s)) (tree s)).
    split; [done|]. left. split; [done|].
    split; [by apply ins_path_None in Hp|].
    destruct (Rep_alloc s t (mkNode x None None None red) HR) as [HR' _].
    split_and!; try done.
    intros p Hin. simpl. apply lookup_insert_ne. intros <-.
    by apply is_fresh in Hin.
Qed.

(** [DeleteWithIterator] on a state that satisfies the invariants. *)
Lemma DeleteWithIterator_Inv s t p :
  Inv compare s t -> p ∈ ptrs t ->
  exists s' t' pre x post, DeleteWithIterator (mkIterator (Some p)) s = Ok tt s' /\
    Inv compare s' t' /\ nodes t = pre ++ (p, x) :: post /\ nodes t' = pre ++ post.
Proof.
  intros HI Hp. pose proof (Inv_cache s t HI) as [Hmin Hmax].
  destruct HI as (HR & Hc & Hcnt & H1 & H2 & H3 & H4).
  destruct (DeleteWithIterator_rb s t p HR H2 H3 (R4_bal _ H4) Hp)
    as (s' & t' & pre & x & post & Hrun & HR' & ? & ? & ? & Hn & Hn' & Hcnt' & Hmin' & Hmax').
  exists s', t', pre, x, post. split_and!; try done.
  unfold Inv, cache_ok. rewrite leftmost_head, rightmost_last.
  unfold size_t in *. rewrite Hcnt, Hmin, Hn, Hn' in Hmin'. rewrite Hcnt, Hmax, Hn, Hn' in Hmax'.
  rewrite refreshed_head in Hmin'. rewrite refreshed_last in Hmax'.
  split_and!; try done.
  - by rewrite Hn'.
  - by rewrite Hn'.
  - rewrite Hcnt', Hcnt, Hn, Hn', !length_app. simpl. lia.
  - apply (R1_increasing compare compare_anti compare_trans).
    apply (R1_increasing compare compare_anti compare_trans) in H1.
    unfold items in *. rewrite Hn in H1. rewrite Hn'.
    by apply increasing_remove in H1.
  - by apply bal_R4.
Qed.

End Invariant.

Section Api.

Context {Item : Type}.
Implicit Types (t : rbt Item) (C : ctx Item) (s : state Item).

Lemma focus_of_node q y t :
  (q, y) ∈ nodes t -> exists C c l r, t = plug C (T q c l y r).
Proof.
  induction t as [|p c l IHl x r IHr]; simpl; [by intros ?%elem_of_nil|].
  rewrite elem_of_app, elem_of_cons.
  intros [H|[[= -> ->]|H]].
  - destruct (IHl H) as (C & c' & l' & r' & ->).
    exists (C ++ [FL p c x r]), c', l', r'. by rewrite plug_app.
  - by exists [], c, l, r.
  - destruct (IHr H) as (C & c' & l' & r' & ->).
    exists (C ++ [FR p c l x]), c', l', r'. by rewrite plug_app.
Qed.

Lemma elem_of_ptrs p t : p ∈ ptrs t <-> exists y, (p, y) ∈ nodes t.
Proof.
  unfold ptrs. rewrite list_elem_of_fmap. split.
  - intros ([q y] & -> & ?). by exists y.
  - intros (y & ?). by exists (p, y).
Qed.

(** [Item()] of an iterator at a node of the tree. *)
Lemma Iterator_Item_sim s t q y :
  Rep s t -> (q, y) ∈ nodes t -> Iterator_Item (mkIterator (Some q)) s = Ok y s.
Proof.
  intros HR Hq. destruct (focus_of_node q y t Hq) as (C & c & l & r & ->).
  apply Rep_lookup in HR. unfold Iterator_Item, load. simpl. by rewrite HR.
Qed.

(** A node of the tree holds one item only. *)
Lemma nodes_item_unique s t q y y' :
  Rep s t -> (q, y) ∈ nodes t -> (q, y') ∈ nodes t -> y = y'.
Proof.
  intros HR H1 H2.
  pose proof (Iterator_Item_sim s t q y HR H1) as E1.
  pose proof (Iterator_Item_sim s t q y' HR H2) as E2. congruence.
Qed.

Variable compare : Item -> Item -> Z.

Lemma Get_sim key s t :
  Rep s t ->
  Get compare key s =
    Ok (match findGE_abs compare key [] t with
        | (Some (_, T _ _ _ y _), true) => Some y
        | _ => None
        end) s.
Proof.
  intros HR. pose proof (findGE_sim compare key s t HR) as H.
  apply wp_Ok in H as (r & s' & Hrun & -> & ->).
  unfold Get, bind at 1. rewrite Hrun. cbn [fst snd].
  destruct (findGE_abs compare key [] t) as [[[C t']|] b] eqn:Hf.
  - destruct (findGE_abs_plug compare key t [] C t' b Hf) as [Hp (q & c & l & y & r & ->)].
    simpl in Hp. rewrite <- Hp in HR. apply Rep_lookup in HR.
    destruct b; [|done]. cbn. unfold bind, load. by rewrite HR.
  - destruct b; [|done]. by apply findGE_abs_exact in Hf as (? & ? & ? & ? & ? & ? & ? & _).
Qed.

Lemma wp_eq {A} (m : M Item A) s (v : A) :
  wp m s (fun r s' => s' = s /\ r = v) -> m s = Ok v s.
Proof. intros H. apply wp_Ok in H as (r & s' & -> & -> & ->). done. Qed.

Lemma FindLE_sim key s t :
  Rep s t ->
  FindLE compare key s = Ok (mkIterator (focus_ptr (FindLE_abs compare key t))) s.
Proof.
  intros HR. apply wp_eq. unfold FindLE. apply wp_bind.
  eapply wp_mono; [apply (findGE_sim compare key s t HR)|].
  intros r s' [-> ->]. cbn [fst snd]. unfold FindLE_abs.
  destruct (findGE_abs compare key [] t) as [[[C t']|] b] eqn:Hf.
  - destruct (findGE_abs_plug compare key t [] C t' b Hf) as [Hp (q & c & l & y & r & ->)].
    simpl in Hp. destruct b; [done|]. rewrite <- Hp in HR.
    cbn [fst snd focus_ptr focus_node root_node fmap option_fmap option_map is_nil negb].
    apply wp_bind. eapply wp_mono; [apply (prev_sim C (T q c l y r) s q HR eq_refl)|].
    intros r' s' [-> ->]. done.
  - destruct b; [by apply findGE_abs_exact in Hf as (? & ? & ? & ? & ? & ? & ? & _)|].
    cbn [fst snd focus_ptr focus_node root_node fmap option_fmap option_map is_nil negb].
    apply wp_bind. apply wp_get.
    destruct t as [|p c l x r].
    + destruct HR as (-> & _). done.
    + pose proof (Rep_size _ _ HR) as Hsz.
      destruct HR as (Hroot & HR'). rewrite Hroot.
      cbn [ptr_of is_nil]. apply wp_bind. unfold wp at 1, loop_fuel.
      apply wp_bind.
      eapply wp_mono;
        [apply (rightmost_loop_sim (T p c l x r) [] s (S (size (heap s))) p);
           [split; done|done|lia]|].
      intros r' s' [-> ->]. done.
Qed.

End Api.

Section Runs.

Context {Item : Type}.
Implicit Types (t : rbt Item) (C : ctx Item) (s : state Item).

Lemma reachable_focus s C : forall t0 p,
  Rep s (plug C t0) -> ptr_of t0 = Some p -> reachable s p.
Proof.
  induction C as [|f C IH]; intros t0 p HR Hp.
  - apply reach_root. destruct HR as (-> & _). done.
  - simpl in HR. destruct f as [q c x r|q c l x]; simpl in HR.
    + pose proof (IH _ q HR eq_refl) as Hq. apply Rep_lookup in HR.
      eapply reach_left; [exact Hq|exact HR|done].
    + pose proof (IH _ q HR eq_refl) as Hq. apply Rep_lookup in HR.
      eapply reach_right; [exact Hq|exact HR|done].
Qed.

Lemma reachable_ptrs s t p : Rep s t -> reachable s p <-> p ∈ ptrs t.
Proof.
  intros HR. split.
  - induction 1 as [p Hroot|q nd p Hq IH Hnd Hl|q nd p Hq IH Hnd Hr].
    + destruct HR as (Hr & _). rewrite Hroot in Hr. symmetry in Hr. by apply ptr_of_elem.
    + destruct (focus_of q t IH) as (C & c & l & x & r & ->).
      pose proof (Rep_lookup _ _ _ _ _ _ _ HR) as Hlk. rewrite Hlk in Hnd.
      injection Hnd as <-. simpl in Hl.
      rewrite ptrs_plug, ptrs_T. apply ptr_of_elem in Hl. set_solver.
    + destruct (focus_of q t IH) as (C & c & l & x & r & ->).
      pose proof (Rep_lookup _ _ _ _ _ _ _ HR) as Hlk. rewrite Hlk in Hnd.
      injection Hnd as <-. simpl in Hr.
      rewrite ptrs_plug, ptrs_T. apply ptr_of_elem in Hr. set_solver.
  - intros Hp. destruct (focus_of p t Hp) as (C & c & l & x & r & ->).
    by eapply reachable_focus.
Qed.

Variable compare : Item -> Item -> Z.

Lemma count_ops_app (f : @op Item * bool -> bool) tr1 tr2 :
  count_ops f (tr1 ++ tr2) = count_ops f tr1 + count_ops f tr2.
Proof. induction tr1 as [|e tr1 IH]; simpl; [done|]. rewrite IH. lia. Qed.

Hypothesis compare_anti : forall x y, compare x y < 0 <-> 0 < compare y x.
Hypothesis compare_trans :
  forall x y z, compare x y <= 0 -> compare y z <= 0 -> compare x z <= 0.

(** One operation keeps the invariants and moves [count] by one when it
    changes the tree. *)
Lemma exec_Inv s t o b s' :
  Inv compare s t -> valid_op s o -> exec compare o s = Ok b s' ->
  exists t', Inv compare s' t' /\
    count (tree s') =
      count (tree s) + (if is_insert (o, b) then 1 else 0) - (if is_delete (o, b) then 1 else 0).
Proof.
  intros HI Hv Hrun. destruct o as [x|key|[[p|]]]; simpl in Hrun, Hv.
  - destruct (Insert_Inv compare compare_anti compare_trans x s t HI)
      as (b' & s'' & Hrun' & [(-> & _ & HI' & Htree & _)|(-> & _ & t' & pre & post & n & HI' & Hn & Hn')]);
      rewrite Hrun' in Hrun; injection Hrun as <- <-.
    + exists t. split; [done|]. rewrite Htree. simpl. lia.
    + exists t'. split; [done|]. simpl.
      destruct HI as (_ & _ & Hc & _). destruct HI' as (_ & _ & Hc' & _).
      rewrite Hc, Hc'. unfold size_t. rewrite Hn, Hn', !length_app. simpl. lia.
  - pose proof HI as (HR & _ & Hc & _ & H2 & H3 & H4).
    pose proof (DeleteWithKey_rb compare key s t HR H2 H3 (R4_bal _ H4)) as Hd.
    destruct (focus_ptr (findGE_abs compare key [] t).1) as [p|].
    + destruct Hd as (Hp & s'' & Hrun1 & Hrun2).
      rewrite Hrun2 in Hrun. injection Hrun as <- <-.
      destruct (DeleteWithIterator_Inv compare compare_anti compare_trans s t p HI Hp)
        as (s3 & t' & pre & x & post & Hrun3 & HI' & Hn & Hn').
      rewrite Hrun3 in Hrun1. injection Hrun1 as <-.
      exists t'. split; [done|]. simpl.
      destruct HI' as (_ & _ & Hc' & _).
      rewrite Hc, Hc'. unfold size_t. rewrite Hn, Hn', !length_app. simpl. lia.
    + rewrite Hd in Hrun. injection Hrun as <- <-. exists t. split; [done|]. simpl. lia.
  - pose proof HI as (HR & _ & Hc & _).
    apply (reachable_ptrs s t p HR) in Hv.
    destruct (DeleteWithIterator_Inv compare compare_anti compare_trans s t p HI Hv)
      as (s3 & t' & pre & x & post & Hrun3 & HI' & Hn & Hn').
    unfold bind in Hrun. rewrite Hrun3 in Hrun. injection Hrun as <- <-.
    exists t'. split; [done|]. simpl.
    destruct HI' as (_ & _ & Hc' & _).
    rewrite Hc, Hc'. unfold size_t. rewrite Hn, Hn', !length_app. simpl. lia.
  - done.
Qed.

(** No operation gets stuck on a state that satisfies the invariants,
    a deletion at the End iterator apart. *)
Lemma exec_progress s t o :
  Inv compare s t -> valid_op s o -> o <> OpDeleteIter (mkIterator None) ->
  exists b s', exec compare o s = Ok b s'.
Proof.
  intros HI Hv Hne. destruct o as [x|key|[[p|]]]; simpl in Hv; [| | |done].
  - destruct (Insert_Inv compare compare_anti compare_trans x s t HI) as (b & s' & Hrun & _).
    by exists b, s'.
  - pose proof HI as (HR & _ & Hc & _ & H2 & H3 & H4).
    pose proof (DeleteWithKey_rb compare key s t HR H2 H3 (R4_bal _ H4)) as Hd.
    destruct (focus_ptr (findGE_abs compare key [] t).1) as [p|].
    + destruct Hd as (Hp & s'' & Hrun1 & Hrun2). by exists true, s''.
    + by exists false, s.
  - pose proof HI as (HR & _).
    apply (reachable_ptrs s t p HR) in Hv.
    destruct (DeleteWithIterator_Inv compare compare_anti compare_trans s t p HI Hv)
      as (s3 & t' & pre & x & post & Hrun3 & _).
    exists true, s3. simpl. unfold bind. by rewrite Hrun3.
Qed.

(** Every state reached from the empty tree satisfies the invariants, and
    its [count] is the number of insertions minus the number of deletions. *)
Lemma run_Inv tr s :
  run compare tr s ->
  exists t, Inv compare s t /\
    count (tree s) = count_ops is_insert tr - count_ops is_delete tr.
Proof.
  induction 1 as [|tr s o b s' Hrun (t & HI & Hc) Hv Hexec].
  - exists E. split; [apply Inv_NewTree|done].
  - destruct (exec_Inv s t o b s' HI Hv Hexec) as (t' & HI' & Hc').
    exists t'. split; [done|].
    rewrite Hc', Hc, !count_ops_app. simpl. lia.
Qed.

End Runs.

Section Lookups.

Context {Item : Type}.
Implicit Types (t : rbt Item) (C : ctx Item) (s : state Item).

Variable compare : Item -> Item -> Z.
Hypothesis compare_anti : forall x y, compare x y < 0 <-> 0 < compare y x.
Hypothesis compare_trans :
  forall x y z, compare x y <= 0 -> compare y z <= 0 -> compare x z <= 0.

(** Two items of an increasing list that compare equal are the same. *)
Lemma increasing_eq (l : list Item) a b :
  increasing compare l -> a ∈ l -> b ∈ l -> compare a b = 0 -> a = b.
Proof.
  induction l as [|c l IH]; simpl; [by intros _ ?%elem_of_nil|].
  intros [Hc Hl] Ha Hb Hab. rewrite Forall_forall in Hc.
  apply elem_of_cons in Ha as [->|Ha]; apply elem_of_cons in Hb as [->|Hb]; auto.
  - specialize (Hc _ Hb). lia.
  - specialize (Hc _ Ha). pose proof (compare_eq_sym compare compare_anti a c Hab). lia.
Qed.

(** What [findGE] returns on a well-formed state. *)
Lemma findGE_spec key s t :
  Rep s t -> R1 compare t ->
  exists n exact, findGE compare key s = Ok (n, exact) s /\
    match n with
    | None => exact = false /\ forall z, z ∈ items t -> compare z key < 0
    | Some q => exists y,
        (q, y) ∈ nodes t /\ compare key y <= 0 /\
        (forall z, z ∈ items t -> compare key z <= 0 -> compare y z <= 0) /\
        (exact = true <-> compare key y = 0)
    end.
Proof.
  intros HR H1. pose proof (findGE_sim compare key s t HR) as H.
  apply wp_Ok in H as (r & s' & Hrun & -> & ->).
  eexists _, _. split; [exact Hrun|].
  destruct (findGE_abs compare key [] t) as [[[C t']|] b] eqn:Hf.
  - destruct (findGE_abs_plug compare key t [] C t' b Hf) as [_ (q & c & l & y & r & ->)].
    simpl. exists y.
    by apply (findGE_abs_least compare compare_anti compare_trans key t C q c l y r b).
  - pose proof (findGE_abs_hit compare compare_anti compare_trans key t H1) as Hh.
    rewrite Hf in Hh. destruct Hh as [-> Hall]. simpl. split; [done|].
    intros z Hz. apply elem_of_items in Hz as [qz Hz].
    rewrite Forall_forall in Hall. by apply (Hall _ Hz).
Qed.

(** What [Get] returns on a well-formed state. *)
Lemma Get_spec key s t :
  Rep s t -> R1 compare t ->
  exists r, Get compare key s = Ok r s /\
    match r with
    | Some y => y ∈ items t /\ compare key y = 0
    | None => forall z, z ∈ items t -> compare key z <> 0
    end.
Proof.
  intros HR H1. rewrite (Get_sim compare key s t HR). eexists. split; [reflexivity|].
  pose proof (findGE_abs_hit compare compare_anti compare_trans key t H1) as Hh.
  destruct (findGE_abs compare key [] t) as [[[C [|q c l y r]]|] b] eqn:Hf; [done| |].
  - destruct (findGE_abs_least compare compare_anti compare_trans key t C q c l y r b H1 Hf)
      as (Hin & Hle & Hleast & Hex).
    destruct b.
    + split; [|by apply Hex]. apply elem_of_items. by exists q.
    + intros z Hz Hkz. specialize (Hleast z Hz). 
      assert (compare key y <> 0) by (intros ?; by apply Hex in H).
      pose proof (compare_lt_le compare compare_anti compare_trans key y z). lia.
  - destruct Hh as [-> Hall]. intros z Hz. apply elem_of_items in Hz as [qz Hz].
    rewrite Forall_forall in Hall. specialize (Hall _ Hz). simpl in Hall.
    pose proof (compare_anti z key). lia.
Qed.

(** [Get] finds every item of the tree. *)
Lemma Get_present x s t :
  Rep s t -> R1 compare t -> x ∈ items t -> Get compare x s = Ok (Some x) s.
Proof.
  intros HR H1 Hx. destruct (Get_spec x s t HR H1) as ([y|] & Hrun & Hy).
  - destruct Hy as [Hy Hxy].
    apply (R1_increasing compare compare_anti compare_trans) in H1.
    by rewrite <- (increasing_eq _ x y H1 Hx Hy Hxy) in Hrun.
  - exfalso. apply (Hy x Hx). apply (compare_refl compare compare_anti).
Qed.

(** What [FindLE] returns on a well-formed state. *)
Lemma FindLE_spec key s t :
  Rep s t -> R1 compare t ->
  exists it, FindLE compare key s = Ok it s /\
    match iter_node it with
    | None => forall z, z ∈ items t -> compare key z < 0
    | Some q => exists y,
        (q, y) ∈ nodes t /\ compare y key <= 0 /\
        forall z, z ∈ items t -> compare z key <= 0 -> compare z y <= 0
    end.
Proof.
  intros HR H1. rewrite (FindLE_sim compare key s t HR). eexists. split; [reflexivity|].
  pose proof (FindLE_abs_spec compare compare_anti compare_trans key t H1) as Hs.
  cbn [iter_node]. unfold focus_ptr.
  destruct (focus_node (FindLE_abs compare key t)) as [[q y]|]; simpl.
  - by exists y.
  - by rewrite Forall_forall in Hs.
Qed.

(** The two ends of the tree hold the least and the greatest item. *)
Lemma head_least (l : list (positive * Item)) q y :
  increasing compare l.*2 -> head l = Some (q, y) ->
  forall z, z ∈ l.*2 -> compare y z <= 0.
Proof.
  destruct l as [|a l]; [done|]. simpl. intros [Hc _] [= ->] z Hz.
  apply elem_of_cons in Hz as [->|Hz].
  - simpl. pose proof (compare_refl compare compare_anti y). lia.
  - rewrite Forall_forall in Hc. specialize (Hc _ Hz). simpl in Hc. lia.
Qed.

Lemma last_greatest (l : list (positive * Item)) q y :
  increasing compare l.*2 -> last l = Some (q, y) ->
  forall z, z ∈ l.*2 -> compare z y <= 0.
Proof.
  intros Hinc Hl z Hz. apply last_Some in Hl as [l' ->].
  rewrite fmap_app in Hz. apply elem_of_app in Hz as [Hz|Hz].
  - rewrite fmap_app, (increasing_app compare) in Hinc. destruct Hinc as (_ & _ & Hc).
    rewrite Forall_forall in Hc. specialize (Hc _ Hz). simpl in Hc.
    rewrite Forall_singleton in Hc. lia.
  - simpl in Hz. apply list_elem_of_singleton in Hz as ->.
    pose proof (compare_refl compare compare_anti y). lia.
Qed.

End Lookups.

(** * The concrete trees *)

Lemma cmpZ_anti : forall x y, cmpZ x y < 0 <-> 0 < cmpZ y x.
Proof. unfold cmpZ. intros. lia. Qed.

Lemma cmpZ_trans : forall x y z, cmpZ x y <= 0 -> cmpZ y z <= 0 -> cmpZ x z <= 0.
Proof. unfold cmpZ. intros. lia. Qed.

Lemma Rep_s3 : Rep s3 t3.
Proof.
  split; [reflexivity|]. split.
  - vm_compute. repeat split.
  - apply (bool_decide_unpack _). vm_compute. exact I.
Qed.

Lemma Inv_s3 : Inv cmpZ s3 t3.
Proof.
  split; [apply Rep_s3|]. split; [split; reflexivity|]. split; [reflexivity|].
  split; [|split; [reflexivity|split; [|apply bal_R4]]].
  - simpl. unfold items. simpl. repeat split; repeat constructor; unfold cmpZ; lia.
  - simpl. intuition congruence.
  - simpl. done.
Qed.

Lemma run_s3 :
  run cmpZ [(OpInsert 10, true); (OpInsert 5, true); (OpInsert 15, true)] s3.
Proof.
  apply (run_step cmpZ [(OpInsert 10, true); (OpInsert 5, true)]
           (after [OpInsert 10; OpInsert 5]) (OpInsert 15) true s3);
    [|exact I|vm_compute; reflexivity].
  apply (run_step cmpZ [(OpInsert 10, true)] (after [OpInsert 10]) (OpInsert 5) true);
    [|exact I|vm_compute; reflexivity].
  apply (run_step cmpZ [] NewTree (OpInsert 10) true); [|exact I|vm_compute; reflexivity].
  apply run_nil.
Qed.

Section Claims.

Context {Item : Type}.
Implicit Types (t : rbt Item) (s : state Item).

Variable compare : Item -> Item -> Z.

(** C2: on a state that holds a red-black tree (R2, R3 and R4), with its
    cached minimum and maximum in place, every single [Insert], every
    [DeleteWithIterator] at a node of the tree and every [DeleteWithKey]
    returns normally and leaves a state that holds a tree with R2 (black
    root), R3 (no red node with a red child) and R4 (the same number of
    black nodes on every path from a node down to a nil link). *)
Theorem C2_red_black_preserved s t :
  Rep s t -> cache_ok s t -> R2 t -> R3 t -> R4 t ->
  (forall x, exists b s' t',
     Insert compare x s = Ok b s' /\ Rep s' t' /\ R2 t' /\ R3 t' /\ R4 t') /\
  (forall p, p ∈ ptrs t -> exists s' t',
     DeleteWithIterator (mkIterator (Some p)) s = Ok tt s' /\
     Rep s' t' /\ R2 t' /\ R3 t' /\ R4 t') /\
  (forall key, exists b s' t',
     DeleteWithKey compare key s = Ok b s' /\ Rep s' t' /\ R2 t' /\ R3 t' /\ R4 t').
Proof.
  intros HR Hc H2 H3 H4. pose proof (R4_bal _ H4) as Hb. split_and!.
  - intros x. destruct (Insert_rb compare x s t HR Hc H2 H3 Hb) as (b & s' & t' & ? & ? & ? & ? & ?).
    exists b, s', t'. split_and!; try done. by apply bal_R4.
  - intros p Hp.
    destruct (DeleteWithIterator_rb s t p HR H2 H3 Hb Hp)
      as (s' & t' & pre & x & post & ? & ? & ? & ? & ? & _).
    exists s', t'. split_and!; try done. by apply bal_R4.
  - intros key. pose proof (DeleteWithKey_rb compare key s t HR H2 H3 Hb) as Hd.
    destruct (focus_ptr (findGE_abs compare key [] t).1) as [p|].
    + destruct Hd as (Hp & s' & Hrun & Hrun').
      destruct (DeleteWithIterator_rb s t p HR H2 H3 Hb Hp)
        as (s'' & t' & pre & x & post & Hrun'' & ? & ? & ? & ? & _).
      rewrite Hrun in Hrun''. injection Hrun'' as <-.
      exists true, s', t'. split_and!; try done. by apply bal_R4.
    + exists false, s, t. done.
Qed.

(** C9: on every state, [Item()] and [Next()] of an End iterator panic,
    [Prev()] of an iterator for which [Begin()] is true panics, and
    [DeleteWithIterator] of an End iterator panics; none of them returns a
    value or a changed state. *)
Theorem C9_precondition_violations_panic s :
  Iterator_Item (mkIterator None) s = Panic /\
  Iterator_Next (mkIterator None) s = Panic /\
  (forall it : Iterator,
     match Iterator_Begin it s with
     | Ok true _ => Iterator_Prev it s = Panic
     | _ => True
     end) /\
  DeleteWithIterator (mkIterator None) s = Panic.
Proof.
  split_and!; try reflexivity.
  intros it. unfold Iterator_Prev, Iterator_Begin, bind, get, ret.
  destruct (ptr_eqb (iter_node it) (minNode (tree s))); done.
Qed.

(** C10: on a state that holds the empty tree, [Begin()] and [End()]
    return the same iterator, whose node is nil; [End()] and [Begin()] are
    both true of it, and [Prev()] of it panics. *)
Theorem C10_empty_tree_iterators s :
  Rep s E -> cache_ok s E ->
  Begin s = Ok (mkIterator None) s /\
  End s = Ok (mkIterator None) s /\
  Iterator_End (mkIterator None) s = Ok true s /\
  Iterator_Begin (mkIterator None) s = Ok true s /\
  Iterator_Prev (mkIterator None) s = Panic.
Proof.
  intros _ [Hmin _]. simpl in Hmin.
  cbv [Begin End Iterator_End Iterator_Begin Iterator_Prev bind get ret].
  rewrite Hmin. split_and!; reflexivity.
Qed.

End Claims.

(** C1: the tree that holds the single item 10 does not hold the key 9
    ([Get] finds nothing), and yet [DeleteWithKey] of 9 returns true and
    removes the item 10: the tree is empty afterwards. *)
Theorem C1_DeleteWithKey_absent_key_removes_successor :
  Get cmpZ 9 s10 = Ok None s10 /\
  exists s',
    DeleteWithKey cmpZ 9 s10 = Ok true s' /\
    Len s' = Ok 0 s' /\ root (tree s') = None /\
    Get cmpZ 10 s' = Ok None s'.
Proof.
  split; [vm_compute; reflexivity|].
  eexists. split; [vm_compute; reflexivity|]. repeat split.
Qed.

Lemma C2_red_black_preserved_witness :
  (Rep s3 t3 /\ cache_ok s3 t3 /\ R2 t3 /\ R3 t3 /\ R4 t3) /\
  (forall x, exists b s' t',
     Insert cmpZ x s3 = Ok b s' /\ Rep s' t' /\ R2 t' /\ R3 t' /\ R4 t').
Proof.
  assert (Rep s3 t3 /\ cache_ok s3 t3 /\ R2 t3 /\ R3 t3 /\ R4 t3) as H.
  { destruct Inv_s3 as (? & ? & _ & _ & ? & ? & ?). done. }
  split; [exact H|].
  destruct H as (HR & Hc & H2 & H3 & H4).
  exact (proj1 (C2_red_black_preserved cmpZ s3 t3 HR Hc H2 H3 H4)).
Defined.

Lemma C10_empty_tree_iterators_witness :
  Rep (@NewTree Z) E /\ cache_ok (@NewTree Z) E /\
  Iterator_Prev (mkIterator None) (@NewTree Z) = Panic.
Proof.
  assert (Rep (@NewTree Z) E) as HR by (split; [reflexivity|split; [exact I|constructor]]).
  assert (cache_ok (@NewTree Z) E) as Hc by (split; reflexivity).
  split; [exact HR|]. split; [exact Hc|].
  exact (proj2 (proj2 (proj2 (proj2 (C10_empty_tree_iterators NewTree HR Hc))))).
Defined.

Section OrderedClaims.

Context {Item : Type}.
Implicit Types (t : rbt Item) (s : state Item).

Variable compare : Item -> Item -> Z.

(** The comparator contract: a total preorder, read off the sign. *)
Hypothesis compare_anti : forall x y, compare x y < 0 <-> 0 < compare y x.
Hypothesis compare_trans :
  forall x y z, compare x y <= 0 -> compare y z <= 0 -> compare x z <= 0.

(** Lookups only depend on the tree that the state holds. *)
Lemma lookups_same s s' t :
  Rep s t -> Rep s' t ->
  forall key,
    (exists r, findGE compare key s = Ok r s /\ findGE compare key s' = Ok r s') /\
    (exists r, Get compare key s = Ok r s /\ Get compare key s' = Ok r s') /\
    (exists it, FindGE compare key s = Ok it s /\ FindGE compare key s' = Ok it s') /\
    (exists it, FindLE compare key s = Ok it s /\ FindLE compare key s' = Ok it s').
Proof.
  intros HR HR' key. split_and!.
  - pose proof (findGE_sim compare key s t HR) as H. apply wp_eq in H.
    pose proof (findGE_sim compare key s' t HR') as H'. apply wp_eq in H'. eauto.
  - rewrite (Get_sim compare key s t HR), (Get_sim compare key s' t HR'). eauto.
  - rewrite (FindGE_sim compare key s t HR), (FindGE_sim compare key s' t HR'). eauto.
  - rewrite (FindLE_sim compare key s t HR), (FindLE_sim compare key s' t HR'). eauto.
Qed.

(** C3: in every state reached from the empty tree by [Insert],
    [DeleteWithKey] and [DeleteWithIterator], the tree satisfies R1 (the
    items of a left subtree are strictly below the item of the node, those
    of a right subtree strictly above), and the items in in-order are
    strictly increasing, hence without duplicates. *)
Theorem C3_order_invariant tr s :
  run compare tr s ->
  exists t, Rep s t /\ R1 compare t /\ increasing compare (items t).
Proof.
  intros Hrun.
  destruct (run_Inv compare compare_anti compare_trans tr s Hrun) as (t & HI & _).
  exists t. destruct HI as (HR & _ & _ & H1 & _). split_and!; try done.
  by apply (R1_increasing compare compare_anti compare_trans).
Qed.

(** C4: on a state that satisfies the invariants, [findGE] returns the
    node that holds the least item not below the key, with [exact] true
    exactly when that item compares equal to the key, and nil (not exact)
    when every item is below the key; [Get] returns a stored item that
    compares equal to the key when there is one, and nil otherwise. *)
Theorem C4_findGE_Get s t key :
  Inv compare s t ->
  (exists n exact, findGE compare key s = Ok (n, exact) s /\
     match n with
     | None => exact = false /\ forall z, z ∈ items t -> compare z key < 0
     | Some q => exists y,
         (q, y) ∈ nodes t /\ Iterator_Item (mkIterator (Some q)) s = Ok y s /\
         compare key y <= 0 /\
         (forall z, z ∈ items t -> compare key z <= 0 -> compare y z <= 0) /\
         (exact = true <-> compare key y = 0)
     end) /\
  (exists r, Get compare key s = Ok r s /\
     match r with
     | Some y => y ∈ items t /\ compare key y = 0
     | None => forall z, z ∈ items t -> compare key z <> 0
     end).
Proof.
  intros (HR & _ & _ & H1 & _). split.
  - destruct (findGE_spec compare compare_anti compare_trans key s t HR H1)
      as (n & exact & Hrun & Hn).
    exists n, exact. split; [done|]. destruct n as [q|]; [|done].
    destruct Hn as (y & Hin & ? & ? & ?). exists y. split_and!; try done.
    by apply (Iterator_Item_sim s t).
  - by apply (Get_spec compare compare_anti compare_trans).
Qed.

(** C5: on a state that satisfies the invariants, [FindLE] returns an
    iterator at the node that holds the greatest item not above the key,
    and an End iterator when every item is above the key, as on the empty
    tree. *)
Theorem C5_FindLE s t key :
  Inv compare s t ->
  exists it, FindLE compare key s = Ok it s /\
    match iter_node it with
    | None => forall z, z ∈ items t -> compare key z < 0
    | Some q => exists y,
        (q, y) ∈ nodes t /\ Iterator_Item (mkIterator (Some q)) s = Ok y s /\
        compare y key <= 0 /\
        forall z, z ∈ items t -> compare z key <= 0 -> compare z y <= 0
    end.
Proof.
  intros (HR & _ & _ & H1 & _).
  destruct (FindLE_spec compare compare_anti compare_trans key s t HR H1) as (it & Hrun & Hit).
  exists it. split; [done|]. destruct (iter_node it) as [q|]; [|done].
  destruct Hit as (y & Hin & ? & ?). exists y. split_and!; try done.
  by apply (Iterator_Item_sim s t).
Qed.

(** C6: on a state that satisfies the invariants, [Insert] returns false
    exactly when an item that compares equal is in the tree; then the tree
    fields, the tree held, [Len] and every lookup are as before.  Otherwise
    it returns true, the invariants hold again, the items are the old ones
    and the new one, and [Get] finds the new item. *)
Theorem C6_Insert_duplicate s t x :
  Inv compare s t ->
  exists b s', Insert compare x s = Ok b s' /\
    (b = false <-> exists y, y ∈ items t /\ compare x y = 0) /\
    (b = false ->
       tree s' = tree s /\ Inv compare s' t /\
       (exists n, Len s = Ok n s /\ Len s' = Ok n s') /\
       forall key,
         (exists r, findGE compare key s = Ok r s /\ findGE compare key s' = Ok r s') /\
         (exists r, Get compare key s = Ok r s /\ Get compare key s' = Ok r s') /\
         (exists it, FindGE compare key s = Ok it s /\ FindGE compare key s' = Ok it s') /\
         (exists it, FindLE compare key s = Ok it s /\ FindLE compare key s' = Ok it s')) /\
    (b = true ->
       exists t', Inv compare s' t' /\ items t' ≡ₚ x :: items t /\
         Get compare x s' = Ok (Some x) s').
Proof.
  intros HI.
  destruct (Insert_Inv compare compare_anti compare_trans x s t HI)
    as (b & s' & Hrun & [(-> & Hdup & HI' & Htree & _)|(-> & Hfresh & t' & pre & post & n & HI' & Hn & Hn')]).
  - exists false, s'. split; [done|]. split; [done|]. split; [|done].
    intros _. split_and!; try done.
    + exists (count (tree s)). unfold Len, get. by rewrite Htree.
    + apply (lookups_same s s' t); [by destruct HI|by destruct HI'].
  - exists true, s'. split; [done|]. split.
    { split; [done|]. intros (y & Hy & Hxy). by destruct (Hfresh y Hy). }
    split; [done|]. intros _. exists t'.
    assert (items t' ≡ₚ x :: items t) as Hperm.
    { unfold items. rewrite Hn, Hn', !fmap_app, fmap_cons. simpl.
      by rewrite Permutation_middle. }
    split_and!; try done.
    destruct HI' as (HR' & _ & _ & H1' & _).
    apply (Get_present compare compare_anti compare_trans x s' t' HR' H1').
    rewrite Hperm. set_solver.
Qed.

(** C7: in every state reached from the empty tree, [Len] is the number
    of [Insert] calls that returned true minus the number of
    [DeleteWithKey] calls that returned true and of [DeleteWithIterator]
    calls; and [count] is the number of nodes reachable from [root]. *)
Theorem C7_Len_counts tr s :
  run compare tr s ->
  Len s = Ok (count_ops is_insert tr - count_ops is_delete tr) s /\
  exists l : list positive,
    NoDup l /\ (forall p, reachable s p <-> p ∈ l) /\
    count (tree s) = Z.of_nat (length l).
Proof.
  intros Hrun.
  destruct (run_Inv compare compare_anti compare_trans tr s Hrun) as (t & HI & Hc).
  split; [unfold Len, get; by rewrite Hc|].
  destruct HI as (HR & _ & Hsz & _).
  exists (ptrs t). split_and!.
  - by destruct HR as (_ & _ & ?).
  - intros p. by apply reachable_ptrs.
  - by rewrite Hsz, size_t_length.
Qed.

(** C8: in every state reached from the empty tree, [minNode] and
    [maxNode] are nil exactly when the tree is empty and are otherwise the
    leftmost and the rightmost node; on a non-empty tree [Begin().Item()]
    is the least item, and [Prev()] of the End iterator is at the greatest
    item. *)
Theorem C8_min_max_cache tr s :
  run compare tr s ->
  exists t, Rep s t /\
    (minNode (tree s) = None <-> root (tree s) = None) /\
    (maxNode (tree s) = None <-> root (tree s) = None) /\
    minNode (tree s) = fst <$> leftmost t /\
    maxNode (tree s) = fst <$> rightmost t /\
    (root (tree s) <> None ->
       (exists it y, Begin s = Ok it s /\ Iterator_Item it s = Ok y s /\
          y ∈ items t /\ forall z, z ∈ items t -> compare y z <= 0) /\
       (exists it y, Iterator_Prev (mkIterator None) s = Ok it s /\
          Iterator_Item it s = Ok y s /\
          y ∈ items t /\ forall z, z ∈ items t -> compare z y <= 0)).
Proof.
  intros Hrun.
  destruct (run_Inv compare compare_anti compare_trans tr s Hrun) as (t & HI & _).
  pose proof (Inv_cache compare s t HI) as [Hmin Hmax].
  destruct HI as (HR & [Hmin' Hmax'] & Hsz & H1 & _).
  apply (R1_increasing compare compare_anti compare_trans) in H1. unfold items in H1.
  pose proof HR as (Hroot & _).
  exists t. split; [done|].
  assert (root (tree s) = None <-> nodes t = []) as Hempty.
  { rewrite Hroot. destruct t; simpl; [done|]. split; [done|].
    intros H. by apply app_eq_nil in H as [_ ?]. }
  split_and!; try done.
  - rewrite Hempty, Hmin. destruct (nodes t); simpl; split; done.
  - rewrite Hempty, Hmax. destruct (nodes t) as [|a l _] using rev_ind; [done|].
    rewrite last_snoc. simpl. split; [done|]. intros H. by apply app_eq_nil in H as [_ ?].
  - intros Hne. split.
    + destruct (head (nodes t)) as [[m y]|] eqn:Hh.
      2:{ apply head_None in Hh. by apply Hempty in Hh. }
      exists (mkIterator (Some m)), y.
      assert ((m, y) ∈ nodes t) as Hin by (by apply head_Some_elem_of).
      split_and!.
      * unfold Begin, bind, get, ret. rewrite Hmin. done.
      * by apply (Iterator_Item_sim s t).
      * apply elem_of_items. by exists m.
      * by apply (head_least compare compare_anti (nodes t) m y).
    + destruct (last (nodes t)) as [[m y]|] eqn:Hl.
      2:{ apply last_None in Hl. by apply Hempty in Hl. }
      exists (mkIterator (Some m)), y.
      assert ((m, y) ∈ nodes t) as Hin by (by apply last_Some_elem_of).
      assert (minNode (tree s) <> None) as Hmn.
      { rewrite Hmin. destruct (nodes t); [done|]. done. }
      split_and!.
      * cbv [Iterator_Prev Iterator_Begin Iterator_End Len bind get ret iter_node is_nil].
        destruct (minNode (tree s)) as [mn|] eqn:Hmn'; [|done].
        rewrite ptr_eqb_None_Some. cbn [negb doAssert]. cbv [ret].
        assert (count (tree s) >? 0 = true) as ->.
        { apply Z.gtb_lt. rewrite Hsz. unfold size_t.
          destruct (nodes t); [done|]. simpl. lia. }
        cbv [doAssert ret]. by rewrite Hmax.
      * by apply (Iterator_Item_sim s t).
      * apply elem_of_items. by exists m.
      * by apply (last_greatest compare compare_anti (nodes t) m y).
Qed.

End OrderedClaims.

(** * The claims at concrete trees *)

Lemma C3_order_invariant_witness :
  ((forall x y, cmpZ x y < 0 <-> 0 < cmpZ y x) /\
   (forall x y z, cmpZ x y <= 0 -> cmpZ y z <= 0 -> cmpZ x z <= 0) /\
   run cmpZ [(OpInsert 10, true); (OpInsert 5, true); (OpInsert 15, true)] s3) /\
  exists t, Rep s3 t /\ R1 cmpZ t /\ increasing cmpZ (items t).
Proof.
  split; [split; [exact cmpZ_anti|split; [exact cmpZ_trans|exact run_s3]]|].
  exact (C3_order_invariant cmpZ cmpZ_anti cmpZ_trans _ s3 run_s3).
Defined.

Lemma C4_findGE_Get_witness :
  ((forall x y, cmpZ x y < 0 <-> 0 < cmpZ y x) /\
   (forall x y z, cmpZ x y <= 0 -> cmpZ y z <= 0 -> cmpZ x z <= 0) /\
   Inv cmpZ s3 t3) /\
  exists r, Get cmpZ 7 s3 = Ok r s3 /\
    match r with
    | Some y => y ∈ items t3 /\ cmpZ 7 y = 0
    | None => forall z, z ∈ items t3 -> cmpZ 7 z <> 0
    end.
Proof.
  split; [split; [exact cmpZ_anti|split; [exact cmpZ_trans|exact Inv_s3]]|].
  exact (proj2 (C4_findGE_Get cmpZ cmpZ_anti cmpZ_trans s3 t3 7 Inv_s3)).
Defined.

Lemma C5_FindLE_witness :
  ((forall x y, cmpZ x y < 0 <-> 0 < cmpZ y x) /\
   (forall x y z, cmpZ x y <= 0 -> cmpZ y z <= 0 -> cmpZ x z <= 0) /\
   Inv cmpZ s3 t3) /\
  exists it, FindLE cmpZ 7 s3 = Ok it s3 /\
    match iter_node it with
    | None => forall z, z ∈ items t3 -> cmpZ 7 z < 0
    | Some q => exists y,
        (q, y) ∈ nodes t3 /\ Iterator_Item (mkIterator (Some q)) s3 = Ok y s3 /\
        cmpZ y 7 <= 0 /\
        forall z, z ∈ items t3 -> cmpZ z 7 <= 0 -> cmpZ z y <= 0
    end.
Proof.
  split; [split; [exact cmpZ_anti|split; [exact cmpZ_trans|exact Inv_s3]]|].
  exact (C5_FindLE cmpZ cmpZ_anti cmpZ_trans s3 t3 7 Inv_s3).
Defined.

Lemma C6_Insert_duplicate_witness :
  ((forall x y, cmpZ x y < 0 <-> 0 < cmpZ y x) /\
   (forall x y z, cmpZ x y <= 0 -> cmpZ y z <= 0 -> cmpZ x z <= 0) /\
   Inv cmpZ s3 t3) /\
  exists b s', Insert cmpZ 5 s3 = Ok b s' /\
    (b = false <-> exists y, y ∈ items t3 /\ cmpZ 5 y = 0).
Proof.
  split; [split; [exact cmpZ_anti|split; [exact cmpZ_trans|exact Inv_s3]]|].
  destruct (C6_Insert_duplicate cmpZ cmpZ_anti cmpZ_trans s3 t3 5 Inv_s3)
    as (b & s' & H1 & H2 & _).
  exact (ex_intro _ b (ex_intro _ s' (conj H1 H2))).
Defined.

Lemma C7_Len_counts_witness :
  ((forall x y, cmpZ x y < 0 <-> 0 < cmpZ y x) /\
   (forall x y z, cmpZ x y <= 0 -> cmpZ y z <= 0 -> cmpZ x z <= 0) /\
   run cmpZ [(OpInsert 10, true); (OpInsert 5, true); (OpInsert 15, true)] s3) /\
  Len s3 = Ok 3 s3.
Proof.
  split; [split; [exact cmpZ_anti|split; [exact cmpZ_trans|exact run_s3]]|].
  exact (proj1 (C7_Len_counts cmpZ cmpZ_anti cmpZ_trans _ s3 run_s3)).
Defined.

Lemma C8_min_max_cache_witness :
  ((forall x y, cmpZ x y < 0 <-> 0 < cmpZ y x) /\
   (forall x y z, cmpZ x y <= 0 -> cmpZ y z <= 0 -> cmpZ x z <= 0) /\
   run cmpZ [(OpInsert 10, true); (OpInsert 5, true); (OpInsert 15, true)] s3) /\
  exists t, Rep s3 t /\
    (minNode (tree s3) = None <-> root (tree s3) = None) /\
    (maxNode (tree s3) = None <-> root (tree s3) = None).
Proof.
  split; [split; [exact cmpZ_anti|split; [exact cmpZ_trans|exact run_s3]]|].
  destruct (C8_min_max_cache cmpZ cmpZ_anti cmpZ_trans _ s3 run_s3)
    as (t & H1 & H2 & H3 & _).
  exact (ex_intro _ t (conj H1 (conj H2 H3))).
Defined.
